(** * Waypoint updater and drive-by-wire node: a shallow embedding

    The two ROS nodes [waypoint_updater.py] and [dbw_node.py] are embedded
    as functions over explicit state.

    - Python floats are idealised as the reals [R]: rounding, overflow and
      NaN are left out; ordering tests become [Rlt_dec].
    - Python exceptions are values: a computation returns a [result]
      together with the state it left behind, so that what was mutated
      before a raise stays mutated, as in Python.
    - The waypoint objects of [self.base_waypoints] are shared: the window
      [final_waypoints] holds references to them, not copies.  The list
      [base_waypoints] is the heap of these objects and a Python list of
      waypoints is a list of references (positions in the heap).
    - Each callback and each tick is run atomically. *)

From Stdlib Require Import Reals Lra Lia ZArith List String.
From stdpp Require Import base list.

Open Scope R_scope.

(** ** Exceptions and the state-and-exception monad *)

Inductive exn : Type :=
| IndexError
| ValueError
| AttributeError
| TypeError
| ZeroDivisionError
| LinAlgError.

#[global] Instance exn_eq_dec : EqDecision exn.
Proof. solve_decision. Defined.

Inductive result (A : Type) : Type :=
| Ok (a : A)
| Raise (e : exn).
Arguments Ok {A} a.
Arguments Raise {A} e.

(** [M S A]: a computation over a mutable state [S]; the state survives a
    raise. *)
Definition M (S A : Type) : Type := S -> result A * S.

Definition ret {S A} (a : A) : M S A := fun s => (Ok a, s).
Definition raise {S A} (e : exn) : M S A := fun s => (Raise e, s).
Definition bind {S A B} (m : M S A) (f : A -> M S B) : M S B :=
  fun s => match m s with
           | (Ok a, s') => f a s'
           | (Raise e, s') => (Raise e, s')
           end.
Definition get_state {S} : M S S := fun s => (Ok s, s).
Definition put_state {S} (s : S) : M S unit := fun _ => (Ok tt, s).
Definition lift_result {S A} (r : result A) : M S A := fun s => (r, s).

(** [try: m except e0: h] *)
Definition try_except {S A} (m : M S A) (e0 : exn) (h : M S A) : M S A :=
  fun s => match m s with
           | (Ok a, s') => (Ok a, s')
           | (Raise e, s') => if decide (e = e0) then h s' else (Raise e, s')
           end.

Declare Scope py_scope.
Delimit Scope py_scope with py.
Notation "x <- m ;; k" := (bind m (fun x => k))
  (at level 100, m at next level, right associativity) : py_scope.
Notation "m ;;; k" := (bind m (fun _ => k))
  (at level 100, right associativity) : py_scope.
Open Scope py_scope.

(** [for x in xs: acc = body x acc], the loop variables carried in [acc]. *)
Fixpoint for_fold {S X Acc} (xs : list X) (acc : Acc)
    (body : X -> Acc -> M S Acc) : M S Acc :=
  match xs with
  | [] => ret acc
  | x :: rest => acc' <- body x acc ;; for_fold rest acc' body
  end.

(** [for x in xs: body x] *)
Definition for_each {S X} (xs : list X) (body : X -> M S unit) : M S unit :=
  for_fold xs tt (fun x _ => body x).

(** [[f x for x in xs]] *)
Fixpoint list_comp {S X A} (xs : list X) (f : X -> M S A) : M S (list A) :=
  match xs with
  | [] => ret []
  | x :: rest => a <- f x ;; r <- list_comp rest f ;; ret (a :: r)
  end.

(** [l[i]] for a non-negative [i]. *)
Definition py_getitem {S A} (l : list A) (i : nat) : M S A :=
  match l !! i with
  | Some a => ret a
  | None => raise IndexError
  end.

(** [l.index(x)]: the first position of [x], [ValueError] when absent. *)
Fixpoint list_index (x : nat) (l : list nat) : option nat :=
  match l with
  | [] => None
  | y :: rest => if (x =? y)%nat then Some 0%nat
                 else option_map S (list_index x rest)
  end.

Definition py_index {S} (l : list nat) (x : option nat) : M S nat :=
  match x with
  | None => raise ValueError
  | Some v => match list_index v l with
              | Some i => ret i
              | None => raise ValueError
              end
  end.

(** [math.sqrt]: a domain error below zero. *)
Definition math_sqrt {S} (v : R) : M S R :=
  if Rlt_dec v 0 then raise ValueError else ret (sqrt v).

(** ** Messages *)

Record Point : Type := { pos_x : R; pos_y : R; pos_z : R }.
Record Quaternion : Type := { ori_x : R; ori_y : R; ori_z : R; ori_w : R }.
Record Pose : Type := { position : Point; orientation : Quaternion }.

(** [styx_msgs/Waypoint]: [pose.pose] and [twist.twist.linear.x]. *)
Record Waypoint : Type := { pose : Pose; linear_x : R }.

Definition with_linear_x (w : Waypoint) (v : R) : Waypoint :=
  {| pose := pose w; linear_x := v |}.

(** [styx_msgs/Lane] as published: the header's sequence number and the
    waypoints as serialised at the call of [publish]. *)
Record Lane : Type := { seq_no : nat; frame_id : string; waypoints : list Waypoint }.

(** [dl] of [distance] and [sameWP]. *)
Definition dl (a b : Point) : R :=
  sqrt ((pos_x a - pos_x b) ^ 2 + (pos_y a - pos_y b) ^ 2 + (pos_z a - pos_z b) ^ 2).

(** ** waypoint_updater.py *)

Module WaypointUpdater.

Definition LOOKAHEAD_WPS : nat := 100.
Definition WP_PUBLISH_RATE : nat := 20.
Definition max_local_dist : R := 20.
Definition light_change_pub : bool := true.

(** The heap of waypoint objects; a reference is a position in it. *)
Abbreviation Heap := (list Waypoint).

Definition origin_wp : Waypoint :=
  {| pose := {| position := {| pos_x := 0; pos_y := 0; pos_z := 0 |};
                orientation := {| ori_x := 0; ori_y := 0; ori_z := 0; ori_w := 0 |} |};
     linear_x := 0 |}.

(** Reading and writing through a reference.  Every reference the node
    builds is valid; a dangling one reads [origin_wp] and writes nothing. *)
Definition deref (r : nat) : M Heap Waypoint :=
  fun h => (Ok (default origin_wp (h !! r)), h).

Definition assign_linear_x (r : nat) (v : R) : M Heap unit :=
  fun h => (Ok tt, match h !! r with
                   | Some w => <[r := with_linear_x w v]> h
                   | None => h
                   end).

Definition get_wpVel (waypoints : list nat) (waypoint : nat) : M Heap R :=
  r <- py_getitem waypoints waypoint ;;
  w <- deref r ;;
  ret (linear_x w).

Definition set_wpVel (waypoints : list nat) (waypoint : nat) (velocity : R) : M Heap unit :=
  r <- py_getitem waypoints waypoint ;;
  assign_linear_x r velocity.

Definition get_position (waypoints : list nat) (waypoint : nat) : M Heap Point :=
  r <- py_getitem waypoints waypoint ;;
  w <- deref r ;;
  ret (position (pose w)).

(** [distance]: the loop variables are [(dist, wp1)]; [range(wp1, wp2+1)]
    is fixed before the first iteration. *)
Definition distance_body (waypoints : list nat) (i : nat) (acc : R * nat) : M Heap (R * nat) :=
  let '(dist, wp1) := acc in
  a <- get_position waypoints wp1 ;;
  b <- get_position waypoints i ;;
  ret (dist + dl a b, i).

Definition distance (waypoints : list nat) (wp1 wp2 : nat) : M Heap R :=
  acc <- for_fold (seq wp1 (wp2 + 1 - wp1)) (0, wp1) (distance_body waypoints) ;;
  ret (fst acc).

(** Node parameters, read once in [__init__]. *)
Record Params : Type := {
  stop_on_red : bool;
  force_stop_on_last_waypoint : bool;
  unsubscribe_base_wp : bool;
  accel : R;
  stop_distance : R
}.

(** [self.accel] as [__init__] sets it: [~target_brake_accel], raised to
    half of [/dbw_node/decel_limit] when that parameter exists. *)
Definition init_accel (target_brake_accel : R) (decel_limit : option R) : R :=
  match decel_limit with
  | Some dl => Rmax (dl / 2) target_brake_accel
  | None => target_brake_accel
  end.

(** [deaccel]: the loop variables are [(vel, d)].  The test on [d] reads
    [self.stop_distance]; the speed formula reads the argument. *)
Definition deaccel_body (self : Params) (waypoints : list nat) (stop_index : nat)
    (stop_distance_arg step : R) (idx : nat) (acc : R * R) : M Heap (R * R) :=
  let '(vel, d) := acc in
  acc' <- (if (idx <? stop_index)%nat then
             let d := d + step in
             if Rlt_dec (stop_distance self) d then
               vel <- math_sqrt (2 * Rabs (accel self) * (d - stop_distance_arg)) ;;
               ret (vel, d)
             else ret (vel, d)
           else ret (vel, d)) ;;
  let '(vel, d) := acc' in
  cur <- get_wpVel waypoints idx ;;
  (if Rlt_dec vel cur then set_wpVel waypoints idx vel else ret tt) ;;;
  ret (vel, d).

Definition deaccel (self : Params) (waypoints : list nat) (stop_index : nat)
    (stop_distance_arg : R) : M Heap unit :=
  if (stop_index <=? 0)%nat then ret tt
  else
    dist <- distance waypoints 0 stop_index ;;
    let step := dist / INR stop_index in
    for_fold (rev (seq 0 (length waypoints))) (0, 0)
      (deaccel_body self waypoints stop_index stop_distance_arg step) ;;;
    ret tt.

(** *** State of the node *)

Record State : Type := {
  base_waypoints : Heap;
  original_wpvel : list R;
  next_waypoint : option nat;
  current_pose : option Pose;
  redlight_wp : option nat;
  msg_seq : nat;
  (** what [final_waypoints_pub] has sent, newest first *)
  published : list Lane;
  (** the [rospy.logwarn] lines, newest first *)
  warnings : list string;
  (** [base_wp_sub] is still registered *)
  base_wp_subscribed : bool
}.

(** [__init__], before the first tick. *)
Definition init : State :=
  {| base_waypoints := []; original_wpvel := []; next_waypoint := None;
     current_pose := None; redlight_wp := None; msg_seq := 0;
     published := []; warnings := []; base_wp_subscribed := true |}.

Definition set_base_waypoints (h : Heap) (st : State) : State :=
  {| base_waypoints := h; original_wpvel := original_wpvel st;
     next_waypoint := next_waypoint st; current_pose := current_pose st;
     redlight_wp := redlight_wp st; msg_seq := msg_seq st;
     published := published st; warnings := warnings st;
     base_wp_subscribed := base_wp_subscribed st |}.

Definition set_original_wpvel (v : list R) (st : State) : State :=
  {| base_waypoints := base_waypoints st; original_wpvel := v;
     next_waypoint := next_waypoint st; current_pose := current_pose st;
     redlight_wp := redlight_wp st; msg_seq := msg_seq st;
     published := published st; warnings := warnings st;
     base_wp_subscribed := base_wp_subscribed st |}.

Definition set_next_waypoint (n : option nat) (st : State) : State :=
  {| base_waypoints := base_waypoints st; original_wpvel := original_wpvel st;
     next_waypoint := n; current_pose := current_pose st;
     redlight_wp := redlight_wp st; msg_seq := msg_seq st;
     published := published st; warnings := warnings st;
     base_wp_subscribed := base_wp_subscribed st |}.

Definition set_current_pose (p : option Pose) (st : State) : State :=
  {| base_waypoints := base_waypoints st; original_wpvel := original_wpvel st;
     next_waypoint := next_waypoint st; current_pose := p;
     redlight_wp := redlight_wp st; msg_seq := msg_seq st;
     published := published st; warnings := warnings st;
     base_wp_subscribed := base_wp_subscribed st |}.

Definition set_redlight_wp (r : option nat) (st : State) : State :=
  {| base_waypoints := base_waypoints st; original_wpvel := original_wpvel st;
     next_waypoint := next_waypoint st; current_pose := current_pose st;
     redlight_wp := r; msg_seq := msg_seq st;
     published := published st; warnings := warnings st;
     base_wp_subscribed := base_wp_subscribed st |}.

Definition send (msg : Lane) (st : State) : State :=
  {| base_waypoints := base_waypoints st; original_wpvel := original_wpvel st;
     next_waypoint := next_waypoint st; current_pose := current_pose st;
     redlight_wp := redlight_wp st; msg_seq := (msg_seq st + 1)%nat;
     published := msg :: published st; warnings := warnings st;
     base_wp_subscribed := base_wp_subscribed st |}.

Definition logwarn (line : string) (st : State) : State :=
  {| base_waypoints := base_waypoints st; original_wpvel := original_wpvel st;
     next_waypoint := next_waypoint st; current_pose := current_pose st;
     redlight_wp := redlight_wp st; msg_seq := msg_seq st;
     published := published st; warnings := line :: warnings st;
     base_wp_subscribed := base_wp_subscribed st |}.

Definition unregister (st : State) : State :=
  {| base_waypoints := base_waypoints st; original_wpvel := original_wpvel st;
     next_waypoint := next_waypoint st; current_pose := current_pose st;
     redlight_wp := redlight_wp st; msg_seq := msg_seq st;
     published := published st; warnings := warnings st;
     base_wp_subscribed := false |}.

(** A heap computation run on [self.base_waypoints]. *)
Definition on_heap {A} (m : M Heap A) : M State A :=
  fun st => let '(r, h) := m (base_waypoints st) in (r, set_base_waypoints h st).

(** [self.base_waypoints] as a Python list: one reference per object. *)
Definition base_refs (st : State) : list nat := seq 0 (length (base_waypoints st)).

(** *** next_wpUpdate

    The [for] loop with its [break]; the loop variables are [wp], [dist]
    and [full_search]. *)
Fixpoint nearest_loop (base : Heap) (x_carpos y_carpos : R)
    (idx_offset num_base_wp : nat) (todo : list nat)
    (wp : option nat) (dist : R) (full_search : bool) : result (option nat) :=
  match todo with
  | [] => Ok wp
  | i :: rest =>
      let idx := ((i + idx_offset) mod num_base_wp)%nat in
      match base !! idx with
      | None => Raise IndexError
      | Some w =>
          let wp_x := pos_x (position (pose w)) in
          let wp_y := pos_y (position (pose w)) in
          let wp_d := sqrt ((x_carpos - wp_x) ^ 2 + (y_carpos - wp_y) ^ 2) in
          if Rlt_dec wp_d dist then
            nearest_loop base x_carpos y_carpos idx_offset num_base_wp rest
              (Some idx) wp_d full_search
          else if negb full_search then
            if Rlt_dec dist max_local_dist then Ok wp
            else nearest_loop base x_carpos y_carpos idx_offset num_base_wp rest
                   wp dist true
          else nearest_loop base x_carpos y_carpos idx_offset num_base_wp rest
                 wp dist full_search
      end
  end.

(** [if self.next_waypoint:] is false for [None] and for index 0. *)
Definition search_start (next_waypoint : option nat) : nat * bool :=
  match next_waypoint with
  | Some (S n) => (S n, false)
  | _ => (0%nat, true)
  end.

Definition next_wpUpdate : M State bool :=
  st <- get_state ;;
  match base_waypoints st with
  | [] => ret false
  | _ :: _ =>
      match current_pose st with
      | None => ret false
      | Some p =>
          let x_carpos := pos_x (position p) in
          let y_carpos := pos_y (position p) in
          let '(idx_offset, full_search) := search_start (next_waypoint st) in
          let num_base_wp := length (base_waypoints st) in
          wp <- lift_result (nearest_loop (base_waypoints st) x_carpos y_carpos
                               idx_offset num_base_wp (seq 0 num_base_wp)
                               None 1000000 full_search) ;;
          match wp with
          | None => ret false
          | Some i => put_state (set_next_waypoint (Some i) st) ;;; ret true
          end
      end
  end.

(** *** msgPublish, restore_velocities, updatePublish *)

Definition msgPublish (final_waypoints : list nat) : M State unit :=
  snapshot <- on_heap (list_comp final_waypoints deref) ;;
  st <- get_state ;;
  put_state (send {| seq_no := msg_seq st; frame_id := "/world";
                     waypoints := snapshot |} st).

Definition restore_velocities (indexes : list nat) : M State unit :=
  for_each indexes (fun idx =>
    st <- get_state ;;
    v <- py_getitem (original_wpvel st) idx ;;
    on_heap (set_wpVel (base_refs st) idx v)).

(** [l[-1]] *)
Definition py_last {S A} (l : list A) : M S A :=
  match last l with
  | Some a => ret a
  | None => raise IndexError
  end.

Definition window_indices (start num_base_wp : nat) : list nat :=
  map (fun idx => (idx mod num_base_wp)%nat) (seq start LOOKAHEAD_WPS).

Definition updatePublish (self : Params) : M State unit :=
  found <- next_wpUpdate ;;
  if found : bool then
    st <- get_state ;;
    let num_base_wp := length (base_waypoints st) in
    let last_base_wp := (num_base_wp - 1)%nat in
    start <- match next_waypoint st with
             | Some n => ret n
             | None => raise TypeError
             end ;;
    (if (num_base_wp =? 0)%nat then raise ZeroDivisionError else ret tt) ;;;
    let waypoint_idx := window_indices start num_base_wp in
    final_waypoints <- list_comp waypoint_idx (py_getitem (base_refs st)) ;;
    (if stop_on_red self then
       restore_velocities waypoint_idx ;;;
       try_except
         (red_idx <- py_index waypoint_idx (redlight_wp st) ;;
          on_heap (deaccel self final_waypoints red_idx (stop_distance self)))
         ValueError (ret tt)
     else ret tt) ;;;
    stop_at_end <- (if force_stop_on_last_waypoint self then ret true
                    else v <- py_last (original_wpvel st) ;;
                         ret (if Rlt_dec v (/ 100000) then true else false)) ;;
    (if stop_at_end : bool then
       try_except
         (last_wp_idx <- py_index waypoint_idx (Some last_base_wp) ;;
          on_heap (deaccel self final_waypoints last_wp_idx 0))
         ValueError (ret tt)
     else ret tt) ;;;
    msgPublish final_waypoints
  else ret tt.

(** *** Callbacks *)

Definition pose_cb (msg_pose : Pose) : M State unit :=
  st <- get_state ;;
  put_state (set_current_pose (Some msg_pose) st).

Definition sameWP (wp1 wp2 : Waypoint) (max_d max_v : R) : bool :=
  let distdif := dl (position (pose wp1)) (position (pose wp2)) in
  if Rlt_dec distdif max_d then true else false.

(** [self.base_waypoints = None] of the changed-list branch is overwritten
    before the callback returns and is read by nothing in between. *)
Definition waypoints_cb (self : Params) (msg_waypoints : list Waypoint) : M State unit :=
  let waypoints := msg_waypoints in
  st <- get_state ;;
  (match base_waypoints st, next_waypoint st with
   | _ :: _, Some n =>
       old <- py_getitem (base_waypoints st) n ;;
       new <- py_getitem waypoints n ;;
       if negb (sameWP old new (1 / 2) (1 / 2)) then
         put_state (logwarn "Base waypoint list changed"
                      (set_next_waypoint None st))
       else ret tt
   | _, _ => ret tt
   end) ;;;
  st <- get_state ;;
  put_state (set_base_waypoints waypoints
               (set_original_wpvel (map linear_x waypoints) st)) ;;;
  if unsubscribe_base_wp self then
    st <- get_state ;; put_state (unregister st)
  else ret tt.

Definition traffic_cb (self : Params) (msg_data : Z) : M State unit :=
  st <- get_state ;;
  let prev_red_light_waypoint := redlight_wp st in
  let new := if (0 <=? msg_data)%Z then Some (Z.to_nat msg_data) else None in
  put_state (set_redlight_wp new st) ;;;
  if negb (bool_decide (prev_red_light_waypoint = new)) then
    if light_change_pub then updatePublish self else ret tt
  else ret tt.

(** *** The node as a transition system *)

Inductive Event : Type :=
| PoseMsg (msg_pose : Pose)
| BaseWaypointsMsg (msg_waypoints : list Waypoint)
| TrafficMsg (msg_data : Z)
| Tick.

Definition handle (self : Params) (ev : Event) : M State unit :=
  match ev with
  | PoseMsg p => pose_cb p
  | BaseWaypointsMsg w => waypoints_cb self w
  | TrafficMsg d => traffic_cb self d
  | Tick => updatePublish self
  end.

(** The state after a run of events.  An exception leaves the state as it
    was at the raise; rospy logs one raised by a callback and goes on,
    one raised by a tick ends the node, so the runs of the node are among
    these. *)
Definition run (self : Params) (evs : list Event) (st : State) : State :=
  fold_left (fun s ev => snd (handle self ev s)) evs st.

End WaypointUpdater.

(** ** dbw_node.py *)

Module DBWNode.

(** [geometry_msgs/TwistStamped]: the two fields the node reads. *)
Record TwistStamped : Type := { linear_x_of : R; angular_z_of : R }.

(** What the three command publishers have sent. *)
Record Command : Type := { throttle_cmd : R; brake_cmd : R; steering_cmd : R }.

(** [np.arctan2] *)
Definition arctan2 (y x : R) : R :=
  if Rlt_dec 0 x then atan (y / x)
  else if Rlt_dec x 0 then
    (if Rle_dec 0 y then atan (y / x) + PI else atan (y / x) - PI)
  else if Rlt_dec 0 y then PI / 2
  else if Rlt_dec y 0 then - (PI / 2)
  else 0.

(** [np.dot] of a row [(a, b)] with a 2x2 matrix given by its rows. *)
Definition dot_row (p : R * R) (m : (R * R) * (R * R)) : R * R :=
  let '(a, b) := p in
  let '((m00, m01), (m10, m11)) := m in
  (a * m00 + b * m10, a * m01 + b * m11).

(** [np.polyval]: coefficients from the highest degree down. *)
Definition polyval (coefficients : list R) (x : R) : R :=
  fold_left (fun acc c => acc * x + c) coefficients 0.

Definition get_xy_from_waypoints (waypoints : list Waypoint) : list (R * R) :=
  map (fun waypoint => (pos_x (position (pose waypoint)),
                        pos_y (position (pose waypoint)))) waypoints.

Section Node.

(** [np.polyfit] and the [Controller] of [twist_controller] are taken as
    given: the least-squares fit may fail, the controller is a state
    machine with [control] and [reset]. *)
Variable polyfit : list R -> list R -> nat -> result (list R).
Variable Controller : Type.
Variable control : Controller -> R -> R -> R -> R -> R -> (R * R * R) * Controller.
Variable reset : Controller -> Controller.

Definition get_cross_track_error {S} (final_waypoints : list Waypoint)
    (current_pose : option Pose) : M S R :=
  w0 <- py_getitem final_waypoints 0 ;;
  let origin := position (pose w0) in
  let waypoints_matrix := get_xy_from_waypoints final_waypoints in
  let shifted_matrix :=
    map (fun p => (fst p - pos_x origin, snd p - pos_y origin)) waypoints_matrix in
  let offset := 15%nat in
  row <- py_getitem shifted_matrix offset ;;
  let angle := arctan2 (snd row) (fst row) in
  let rotation_matrix := ((cos angle, - sin angle), (sin angle, cos angle)) in
  let rotated_matrix := map (fun p => dot_row p rotation_matrix) shifted_matrix in
  let degree := 3%nat in
  coefficients <- lift_result (polyfit (map fst rotated_matrix)
                                 (map snd rotated_matrix) degree) ;;
  cp <- match current_pose with
        | Some p => ret p
        | None => raise AttributeError
        end ;;
  let shifted_pose := (pos_x (position cp) - pos_x origin,
                       pos_y (position cp) - pos_y origin) in
  let rotated_pose := dot_row shifted_pose rotation_matrix in
  let expected_y_value := polyval coefficients (fst rotated_pose) in
  let actual_y_value := snd rotated_pose in
  ret (expected_y_value - actual_y_value).

Record State : Type := {
  controller : Controller;
  is_dbw_enabled : bool;
  current_velocity : option TwistStamped;
  proposed_velocity : option TwistStamped;
  final_waypoints : option (list Waypoint);
  current_pose : option Pose;
  (** [rospy] time in nanoseconds *)
  previous_loop_time : Z;
  (** the commands sent, newest first *)
  sent : list Command
}.

Definition init (c : Controller) (now : Z) : State :=
  {| controller := c; is_dbw_enabled := false; current_velocity := None;
     proposed_velocity := None; final_waypoints := None; current_pose := None;
     previous_loop_time := now; sent := [] |}.

Definition twist_message_callback (message : TwistStamped) : M State unit :=
  fun st => (Ok tt,
    {| controller := controller st; is_dbw_enabled := is_dbw_enabled st;
       current_velocity := current_velocity st;
       proposed_velocity := Some message;
       final_waypoints := final_waypoints st; current_pose := current_pose st;
       previous_loop_time := previous_loop_time st; sent := sent st |}).

Definition current_velocity_callback (message : TwistStamped) : M State unit :=
  fun st => (Ok tt,
    {| controller := controller st; is_dbw_enabled := is_dbw_enabled st;
       current_velocity := Some message;
       proposed_velocity := proposed_velocity st;
       final_waypoints := final_waypoints st; current_pose := current_pose st;
       previous_loop_time := previous_loop_time st; sent := sent st |}).

Definition dbw_enabled_callback (message_data : bool) : M State unit :=
  fun st => (Ok tt,
    {| controller := controller st; is_dbw_enabled := message_data;
       current_velocity := current_velocity st;
       proposed_velocity := proposed_velocity st;
       final_waypoints := final_waypoints st; current_pose := current_pose st;
       previous_loop_time := previous_loop_time st; sent := sent st |}).

Definition final_waypoints_cb (message_waypoints : list Waypoint) : M State unit :=
  fun st => (Ok tt,
    {| controller := controller st; is_dbw_enabled := is_dbw_enabled st;
       current_velocity := current_velocity st;
       proposed_velocity := proposed_velocity st;
       final_waypoints := Some message_waypoints; current_pose := current_pose st;
       previous_loop_time := previous_loop_time st; sent := sent st |}).

Definition current_pose_cb (message_pose : Pose) : M State unit :=
  fun st => (Ok tt,
    {| controller := controller st; is_dbw_enabled := is_dbw_enabled st;
       current_velocity := current_velocity st;
       proposed_velocity := proposed_velocity st;
       final_waypoints := final_waypoints st; current_pose := Some message_pose;
       previous_loop_time := previous_loop_time st; sent := sent st |}).

Definition set_previous_loop_time (t : Z) (st : State) : State :=
  {| controller := controller st; is_dbw_enabled := is_dbw_enabled st;
     current_velocity := current_velocity st;
     proposed_velocity := proposed_velocity st;
     final_waypoints := final_waypoints st; current_pose := current_pose st;
     previous_loop_time := t; sent := sent st |}.

Definition set_controller (c : Controller) (st : State) : State :=
  {| controller := c; is_dbw_enabled := is_dbw_enabled st;
     current_velocity := current_velocity st;
     proposed_velocity := proposed_velocity st;
     final_waypoints := final_waypoints st; current_pose := current_pose st;
     previous_loop_time := previous_loop_time st; sent := sent st |}.

Definition publish (throttle brake steer : R) (st : State) : State :=
  {| controller := controller st; is_dbw_enabled := is_dbw_enabled st;
     current_velocity := current_velocity st;
     proposed_velocity := proposed_velocity st;
     final_waypoints := final_waypoints st; current_pose := current_pose st;
     previous_loop_time := previous_loop_time st;
     sent := {| throttle_cmd := throttle; brake_cmd := brake;
                steering_cmd := steer |} :: sent st |}.

(** How one pass of the [while] loop of [loop] went. *)
Inductive Pass : Type :=
| Skipped
| Controlled (cross_track_error : R).

(** One pass of [loop] at [rospy] time [current_time], up to
    [rate.sleep()]; [ros_duration] is split into [secs] and [nsecs]. *)
Definition loop_pass (current_time : Z) : M State Pass :=
  st <- get_state ;;
  match current_velocity st, proposed_velocity st, final_waypoints st with
  | Some cv, Some pv, Some fw =>
      let ros_duration := (current_time - previous_loop_time st)%Z in
      let duration_in_seconds :=
        IZR (ros_duration / 1000000000) + / 1000000000 * IZR (ros_duration mod 1000000000) in
      put_state (set_previous_loop_time current_time st) ;;;
      let current_linear_velocity := linear_x_of cv in
      let target_linear_velocity := linear_x_of pv in
      let target_angular_velocity := angular_z_of pv in
      cross_track_error <- get_cross_track_error fw (current_pose st) ;;
      st <- get_state ;;
      let '((throttle, brake, steering), c) :=
        control (controller st) target_linear_velocity target_angular_velocity
          current_linear_velocity cross_track_error duration_in_seconds in
      put_state (set_controller c st) ;;;
      (if negb (is_dbw_enabled st)
          || ((if Rlt_dec (Rabs (linear_x_of cv)) (/ 100000) then true else false)
              && (if Rlt_dec (Rabs (linear_x_of pv)) (/ 100000) then true else false))
       then st <- get_state ;; put_state (set_controller (reset (controller st)) st)
       else ret tt) ;;;
      (if is_dbw_enabled st
       then st <- get_state ;; put_state (publish throttle brake steering st)
       else ret tt) ;;;
      ret (Controlled cross_track_error)
  | _, _, _ => ret Skipped
  end.

(** [loop] over the times of its passes: the first exception leaves the
    [while] loop and ends [DBWNode()]. *)
Definition loop (times : list Z) : M State unit :=
  for_each times (fun t => loop_pass t ;;; ret tt).

(** *** The node as a transition system *)

Inductive Event : Type :=
| TwistMsg (message : TwistStamped)
| CurrentVelocityMsg (message : TwistStamped)
| DbwEnabledMsg (message_data : bool)
| FinalWaypointsMsg (message_waypoints : list Waypoint)
| CurrentPoseMsg (message_pose : Pose)
| LoopPass (current_time : Z).

Definition handle (ev : Event) : M State unit :=
  match ev with
  | TwistMsg m => twist_message_callback m
  | CurrentVelocityMsg m => current_velocity_callback m
  | DbwEnabledMsg b => dbw_enabled_callback b
  | FinalWaypointsMsg w => final_waypoints_cb w
  | CurrentPoseMsg p => current_pose_cb p
  | LoopPass t => loop_pass t ;;; ret tt
  end.

(** The state after a run of callbacks and passes of [loop].  A pass that
    raises ends the node; the runs of the node are among these. *)
Definition run (evs : list Event) (st : State) : State :=
  fold_left (fun s ev => snd (handle ev s)) evs st.

End Node.

End DBWNode.

(** * Vocabulary of the statements

    What the theorems below speak of: the invariant, the velocities a
    stop leaves in closed form, the heap a tick leaves, and the paths of
    the worked scenarios. *)

Module WaypointUpdaterSpec.
Import WaypointUpdater.

(** Every waypoint of the heap has a velocity at most its baseline. *)
Definition vel_below (h : Heap) (orig : list R) : Prop :=
  Forall2 (fun w b => linear_x w <= b) h orig.

Definition Inv (st : State) : Prop :=
  vel_below (base_waypoints st) (original_wpvel st).

(** [lowered h h']: the same waypoints at the same places, none faster. *)
Definition lowered (h h' : Heap) : Prop :=
  Forall2 (fun w w' => pose w' = pose w /\ linear_x w' <= linear_x w) h h'.

(** The distance the scan computes for a waypoint. *)
Definition car_distance (x_carpos y_carpos : R) (w : Waypoint) : R :=
  sqrt ((x_carpos - pos_x (position (pose w))) ^ 2
        + (y_carpos - pos_y (position (pose w))) ^ 2).

(** What the loop holds after the indices below [k], scanning from
    offset 0: nothing nearer than the initial 1000000 yet, or the first
    index of the least distance so far. *)
Definition scanned (base : Heap) (x y : R) (k : nat) (wp : option nat) (dist : R) : Prop :=
  match wp with
  | None =>
      dist = 1000000 /\
      forall j w, (j < k)%nat -> base !! j = Some w -> 1000000 <= car_distance x y w
  | Some m =>
      (m < k)%nat /\ dist < 1000000 /\
      (exists wm, base !! m = Some wm /\ dist = car_distance x y wm) /\
      (forall j w, (j < k)%nat -> base !! j = Some w -> dist <= car_distance x y w) /\
      (forall j w, (j < m)%nat -> base !! j = Some w -> dist < car_distance x y w)
  end.

Section ProfileVocabulary.
Variable self : Params.
Variable waypoints : list nat.
Variable stop_index : nat.
Variable D step : R.

(** The speed the walk holds after its pass at window index [k]: the
    test reads [self.stop_distance], the formula the argument [D]. *)
Definition allowed (k : nat) : R :=
  if (k <? stop_index)%nat then
    let d := INR (stop_index - k) * step in
    if Rlt_dec (stop_distance self) d
    then sqrt (2 * Rabs (accel self) * (d - D))
    else 0
  else 0.

(** The least of [v0] and of the speeds allowed at the window indices
    among [idxs] that refer to the waypoint [r]. *)
Definition lowest (idxs : list nat) (r : nat) (v0 : R) : R :=
  fold_left (fun v i => if decide (waypoints !! i = Some r)
                        then Rmin v (allowed i) else v) idxs v0.

Definition profiled (idxs : list nat) (h : Heap) : Heap :=
  imap (fun r w => with_linear_x w (lowest idxs r (linear_x w))) h.

(** The two halves of a pass of the loop: the walk along the path and
    the write through the window. *)
Definition walk (idx : nat) (vel d : R) : M Heap (R * R) :=
  if (idx <? stop_index)%nat then
    let d := d + step in
    if Rlt_dec (stop_distance self) d then
      vel <- math_sqrt (2 * Rabs (accel self) * (d - D)) ;;
      ret (vel, d)
    else ret (vel, d)
  else ret (vel, d).

Definition lower_to (idx : nat) (vel : R) : M Heap unit :=
  cur <- get_wpVel waypoints idx ;;
  if Rlt_dec vel cur then set_wpVel waypoints idx vel else ret tt.

End ProfileVocabulary.

Definition position_at (h : Heap) (waypoints : list nat) (i : nat) : Point :=
  position (pose (default origin_wp (h !! default 0%nat (waypoints !! i)))).

(** The length of the polyline from window index [prev] through [idxs]. *)
Fixpoint path_length (h : Heap) (waypoints : list nat) (prev : nat) (idxs : list nat) : R :=
  match idxs with
  | [] => 0
  | i :: rest => dl (position_at h waypoints prev) (position_at h waypoints i)
                 + path_length h waypoints i rest
  end.

(** The step of the walk: the distance to the stop line over the number
    of waypoints before it. *)
Definition step_of (h : Heap) (waypoints : list nat) (stop_index : nat) : R :=
  path_length h waypoints 0 (seq 0 (stop_index + 1)) / INR stop_index.

(** The heap after [restore_velocities]: the waypoints named in [indexes]
    are back at their baseline. *)
Definition restored (orig : list R) (indexes : list nat) (h : Heap) : Heap :=
  imap (fun r w => if decide (r ∈ indexes)
                   then with_linear_x w (default 0 (orig !! r)) else w) h.

(** The heap after a stop trigger: [deaccel] at the place of [target] in
    the window, nothing when [target] is not in it. *)
Definition trigger (self : Params) (window : list nat) (target : option nat)
    (D : R) (h : Heap) : Heap :=
  match target with
  | Some v => match list_index v window with
              | Some i => snd (deaccel self window i D h)
              | None => h
              end
  | None => h
  end.

Definition stop_at_end (self : Params) (orig : list R) : bool :=
  force_stop_on_last_waypoint self
  || match last orig with
     | Some v => if Rlt_dec v (/ 100000) then true else false
     | None => false
     end.

(** The heap a tick leaves when the car is localised at [start]. *)
Definition tick_heap (self : Params) (st : State) (start : nat) : Heap :=
  let L := length (base_waypoints st) in
  let window := window_indices start L in
  let h1 :=
    if stop_on_red self
    then trigger self window (redlight_wp st) (stop_distance self)
           (restored (original_wpvel st) window (base_waypoints st))
    else base_waypoints st in
  if stop_at_end self (original_wpvel st)
  then trigger self window (Some (L - 1)%nat) 0 h1
  else h1.

Definition snapshot (h : Heap) (refs : list nat) : list Waypoint :=
  map (fun r => default origin_wp (h !! r)) refs.

Definition wp_on_axis (x v : R) : Waypoint :=
  {| pose := {| position := {| pos_x := x; pos_y := 0; pos_z := 0 |};
                orientation := {| ori_x := 0; ori_y := 0; ori_z := 0; ori_w := 1 |} |};
     linear_x := v |}.

Definition pose_on_axis (x : R) : Pose := pose (wp_on_axis x 0).

(** The parameters at their defaults, [/dbw_node/decel_limit] unset. *)
Definition default_params : Params :=
  {| stop_on_red := true; force_stop_on_last_waypoint := true;
     unsubscribe_base_wp := false; accel := init_accel (-1) None;
     stop_distance := 5 |}.

(** A node that has loaded [path] and tracks index [n]. *)
Definition tracking (path : list Waypoint) (n : nat) : State :=
  set_next_waypoint (Some n)
    (set_original_wpvel (map linear_x path) (set_base_waypoints path init)).

Definition scenario_params : Params :=
  {| stop_on_red := true; force_stop_on_last_waypoint := true;
     unsubscribe_base_wp := false; accel := -2; stop_distance := 1 |}.

Definition scenario_path : list Waypoint :=
  [wp_on_axis 0 5; wp_on_axis 1 5; wp_on_axis 2 5; wp_on_axis 3 5].

Definition short_path : list Waypoint :=
  [wp_on_axis 0 10; wp_on_axis 2 10; wp_on_axis 4 10].

(** A path of 100 waypoints, 2 apart along the x axis, each at velocity 10. *)
Definition long_path : list Waypoint :=
  map (fun i => wp_on_axis (2 * INR i) 10) (seq 0 100).

(** The node at its defaults, [long_path] loaded, the car at its first
    waypoint. *)
Definition at_long_start : State :=
  run default_params [BaseWaypointsMsg long_path; PoseMsg (pose_on_axis 0)] init.

Definition no_red_params : Params :=
  {| stop_on_red := false; force_stop_on_last_waypoint := true;
     unsubscribe_base_wp := false; accel := -1; stop_distance := 5 |}.

Definition two_path : list Waypoint := [wp_on_axis 0 5; wp_on_axis 10 5].

Definition two_path_stopped : list Waypoint := [wp_on_axis 0 0; wp_on_axis 10 0].

(** The path loaded and the car at the first waypoint. *)
Definition at_first : State :=
  snd (handle no_red_params (PoseMsg (pose_on_axis 0))
         (snd (handle no_red_params (BaseWaypointsMsg two_path) init))).

(** The car at the second waypoint, after the first tick. *)
Definition at_second : State :=
  snd (handle no_red_params (PoseMsg (pose_on_axis 10))
         (snd (handle no_red_params Tick at_first))).

(** *** Reachable states, the scan from an offset and further scenarios *)

Definition tick_message (self : Params) (st : State) (start : nat) : Lane :=
  {| seq_no := msg_seq st; frame_id := "/world";
     waypoints := snapshot (tick_heap self st start)
                    (window_indices start (length (base_waypoints st))) |}.

(** The state a tick leaves when the car is localised at [start]. *)
Definition after_tick (self : Params) (st : State) (start : nat) : State :=
  send (tick_message self st start)
    (set_base_waypoints (tick_heap self st start)
       (set_next_waypoint (Some start) st)).

(** The path and its baseline agree in length and the tracked index, when
    there is one, is an index of the path. *)
Definition consistent (st : State) : Prop :=
  length (original_wpvel st) = length (base_waypoints st) /\
  forall n, next_waypoint st = Some n -> (n < length (base_waypoints st))%nat.

(** The state [waypoints_cb] leaves when it returns: [st1] is the state
    after the continuity check. *)
Definition loaded (self : Params) (msg_waypoints : list Waypoint) (st1 : State) : State :=
  let st2 := set_base_waypoints msg_waypoints
               (set_original_wpvel (map linear_x msg_waypoints) st1) in
  if unsubscribe_base_wp self then unregister st2 else st2.

Definition light_of (msg_data : Z) : option nat :=
  if (0 <=? msg_data)%Z then Some (Z.to_nat msg_data) else None.

(** [floored h h']: no waypoint of [h'] is slower than the one of [h] at
    its place, or than standstill when that one was reversing. *)
Definition floored (h h' : Heap) : Prop :=
  Forall2 (fun w w' => Rmin (linear_x w) 0 <= linear_x w') h h'.

Definition vel_floor (h : Heap) (orig : list R) : Prop :=
  Forall2 (fun w b => Rmin b 0 <= linear_x w) h orig.

(** The distance from the car to the waypoint the scan visits at its
    [i]-th pass, when it starts at [off]. *)
Definition ahead (base : Heap) (x y : R) (off i : nat) : R :=
  car_distance x y (default origin_wp (base !! ((i + off) mod length base)%nat)).

(** What the scan holds after [k] passes from offset [off]. *)
Definition scan_state (base : Heap) (x y : R) (off k : nat)
    (wp : option nat) (dist : R) (fs : bool) : Prop :=
  match wp with
  | None =>
      dist = 1000000 /\
      forall j, (j < k)%nat -> 1000000 <= ahead base x y off j
  | Some m =>
      dist < 1000000 /\
      exists j, (j < k)%nat /\ m = ((j + off) mod length base)%nat /\
                dist = ahead base x y off j /\
                (forall j', (j' < k)%nat -> dist <= ahead base x y off j') /\
                (fs = false -> S j = k)
  end.

(** What the scan may return: a waypoint nearer than the initial
    1000000 that is a nearest one of the path, or is within
    [max_local_dist] with the waypoint after it, cyclically, not nearer. *)
Definition acceptable (base : Heap) (x y : R) (r : nat) : Prop :=
  exists wr, base !! r = Some wr /\
    car_distance x y wr < 1000000 /\
    ((forall j wj, base !! j = Some wj -> car_distance x y wr <= car_distance x y wj) \/
     (car_distance x y wr < max_local_dist /\
      exists wn, base !! ((r + 1) mod length base)%nat = Some wn /\
                 car_distance x y wr <= car_distance x y wn)).

Definition three_path : list Waypoint :=
  [wp_on_axis 0 5; wp_on_axis 10 5; wp_on_axis 20 5].

(** [three_path] loaded, index 1 tracked, the car at x = 9. *)
Definition at_middle : State :=
  set_current_pose (Some (pose_on_axis 9)) (tracking three_path 1).

(** A path of 150 waypoints, 2 apart along the x axis, each at velocity 10. *)
Definition wide_path : list Waypoint :=
  map (fun i => wp_on_axis (2 * INR i) 10) (seq 0 150).

Definition at_wide_start : State :=
  run default_params [BaseWaypointsMsg wide_path; PoseMsg (pose_on_axis 0)] init.

(** [wide_path] loaded, a red light reported at waypoint 50, then the
    car heard at the first waypoint. *)
Definition at_wide_red : State :=
  run default_params
    [BaseWaypointsMsg wide_path; TrafficMsg 50; PoseMsg (pose_on_axis 0)] init.

End WaypointUpdaterSpec.

Module DBWNodeSpec.
Import DBWNode.

(** A fit that always answers with the zero cubic, a controller without
    state that always commands (0, 0, 0). *)
Definition zero_fit (xs ys : list R) (degree : nat) : result (list R) :=
  Ok [0; 0; 0; 0].

Definition idle_control (c : unit) (target_linear target_angular current_linear
    cross_track_error duration : R) : (R * R * R) * unit := ((0, 0, 0), c).

Definition idle_reset (c : unit) : unit := c.

(** Sixteen waypoints, 1 apart along the x axis. *)
Definition straight_window : list Waypoint :=
  map (fun i => WaypointUpdaterSpec.wp_on_axis (INR i) 5) (seq 0 16).

Definition moving : TwistStamped := {| linear_x_of := 1; angular_z_of := 0 |}.

End DBWNodeSpec.

(** * Reasoning about computations

    [wp m Q s]: run from [s], the computation [m] ends, normally or by a
    raise, in a result and a state that satisfy [Q]. *)

Definition wp {S A} (m : M S A) (Q : result A -> S -> Prop) (s : S) : Prop :=
  Q (fst (m s)) (snd (m s)).

(** [m] reads the state and leaves it as it is. *)
Definition read_only {S A} (m : M S A) : Prop := forall s, snd (m s) = s.

Section MonadFacts.
Context {S : Type}.

Lemma wp_run {A} (m : M S A) Q s r s' : m s = (r, s') -> Q r s' -> wp m Q s.
Proof. unfold wp. intros ->. auto. Qed.

Lemma wp_mono {A} (m : M S A) (Q Q' : result A -> S -> Prop) s :
  (forall r s', Q r s' -> Q' r s') -> wp m Q s -> wp m Q' s.
Proof. unfold wp. auto. Qed.

Lemma wp_bind {A B} (m : M S A) (f : A -> M S B) Q s :
  wp m (fun r s' => match r with
                    | Ok a => wp (f a) Q s'
                    | Raise e => Q (Raise e) s'
                    end) s ->
  wp (bind m f) Q s.
Proof. unfold wp, bind. destruct (m s) as [[a|e] s']; simpl; auto. Qed.

Lemma wp_ret {A} (a : A) (Q : result A -> S -> Prop) s : Q (Ok a) s -> wp (ret a) Q s.
Proof. auto. Qed.

Lemma wp_raise {A} e (Q : result A -> S -> Prop) s : Q (Raise e) s -> wp (raise e) Q s.
Proof. auto. Qed.

Lemma wp_try_except {A} (m h : M S A) e0 Q s :
  wp m (fun r s' => match r with
                    | Ok a => Q (Ok a) s'
                    | Raise e => if decide (e = e0) then wp h Q s'
                                 else Q (Raise e) s'
                    end) s ->
  wp (try_except m e0 h) Q s.
Proof.
  unfold wp, try_except. destruct (m s) as [[a|e] s']; simpl; auto.
  destruct (decide (e = e0)); auto.
Qed.

(** The loop rule: [I rest acc s] holds when [rest] is still to be
    walked; [E] is what a raise leaves behind. *)
Lemma wp_for_fold {X Acc} (I : list X -> Acc -> S -> Prop) (E : exn -> S -> Prop)
    (body : X -> Acc -> M S Acc) xs acc s :
  I xs acc s ->
  (forall x rest a s0, I (x :: rest) a s0 ->
     wp (body x a) (fun r s' => match r with
                                | Ok a' => I rest a' s'
                                | Raise e => E e s'
                                end) s0) ->
  wp (for_fold xs acc body)
     (fun r s' => match r with Ok a' => I [] a' s' | Raise e => E e s' end) s.
Proof.
  intros HI Hbody. revert acc s HI.
  induction xs as [|x rest IH]; intros acc s HI; simpl.
  - exact HI.
  - apply wp_bind. eapply wp_mono; [|apply (Hbody _ _ _ _ HI)].
    intros [a'|e] s'; simpl; auto.
Qed.

Lemma read_only_bind {A B} (m : M S A) (f : A -> M S B) :
  read_only m -> (forall a, read_only (f a)) -> read_only (bind m f).
Proof.
  intros Hm Hf s. unfold bind. specialize (Hm s).
  destruct (m s) as [[a|e] s']; simpl in *; subst; auto. apply Hf.
Qed.

Lemma read_only_for_fold {X Acc} (body : X -> Acc -> M S Acc) xs acc :
  (forall x a, read_only (body x a)) -> read_only (for_fold xs acc body).
Proof.
  intros Hb. revert acc. induction xs as [|x rest IH]; intros acc; simpl.
  - intros s. reflexivity.
  - apply read_only_bind; auto.
Qed.

Lemma read_only_getitem {A} (l : list A) i : read_only (S:=S) (py_getitem l i).
Proof. intros s. unfold py_getitem. destruct (l !! i); reflexivity. Qed.

Lemma read_only_wp {A} (m : M S A) (Q : result A -> S -> Prop) s :
  read_only m -> (forall r, Q r s) -> wp m Q s.
Proof. intros Hm HQ. unfold wp. rewrite Hm. apply HQ. Qed.

End MonadFacts.

(** * The waypoint updater: velocities stay below their baseline *)

Module WaypointUpdaterFacts.
Import WaypointUpdater WaypointUpdaterSpec.

Ltac run_step :=
  unfold get_wpVel, set_wpVel, get_position, py_getitem, deref, assign_linear_x,
    math_sqrt, bind, ret, raise, get_state, put_state, lift_result, wp in *;
  simpl in *.

Lemma wp_on_heap {A} (m : M Heap A) (Q : result A -> State -> Prop) st :
  wp m (fun r h' => Q r (set_base_waypoints h' st)) (base_waypoints st) ->
  wp (on_heap m) Q st.
Proof.
  unfold wp, on_heap. destruct (m (base_waypoints st)) as [r h']. auto.
Qed.

Lemma lowered_refl h : lowered h h.
Proof. apply Forall2_same_length_lookup. split; [reflexivity|].
  intros i x y Hx Hy. simplify_eq. split; [reflexivity|lra]. Qed.

Lemma lowered_assign h0 h r w v :
  lowered h0 h -> h !! r = Some w -> v <= linear_x w ->
  lowered h0 (<[r := with_linear_x w v]> h).
Proof.
  unfold lowered. intros Hb Hr Hv.
  apply Forall2_same_length_lookup in Hb as [Hlen Hb].
  apply Forall2_same_length_lookup. split.
  - rewrite length_insert. exact Hlen.
  - intros i x y Hx Hy. destruct (decide (r = i)) as [->|Hne].
    + rewrite list_lookup_insert_eq in Hy by (eapply lookup_lt_Some; eauto).
      injection Hy as <-. simpl. destruct (Hb _ _ _ Hx Hr) as [Hp Hl].
      split; [exact Hp|lra].
    + rewrite list_lookup_insert_ne in Hy by exact Hne. eauto.
Qed.

Lemma vel_below_lowered h h' orig : vel_below h orig -> lowered h h' -> vel_below h' orig.
Proof.
  unfold vel_below, lowered. intros Hb Hl.
  apply Forall2_same_length_lookup in Hb as [Hlen Hb].
  apply Forall2_same_length_lookup in Hl as [Hlen' Hl].
  apply Forall2_same_length_lookup. split; [congruence|].
  intros i x y Hx Hy.
  destruct (lookup_lt_is_Some_2 h i) as [w Hw].
  { rewrite Hlen'. eapply lookup_lt_Some; eauto. }
  destruct (Hl _ _ _ Hw Hx) as [_ Hle]. specialize (Hb _ _ _ Hw Hy). lra.
Qed.

Lemma distance_read_only waypoints wp1 wp2 : read_only (distance waypoints wp1 wp2).
Proof.
  unfold distance. apply read_only_bind; [|intros a s; reflexivity].
  apply read_only_for_fold. intros i [dist w1] s. unfold distance_body.
  run_step. repeat case_match; simplify_eq/=; reflexivity.
Qed.

(** One pass of the loop of [deaccel] writes a velocity only below the
    one it replaces. *)
Lemma deaccel_body_lowers self waypoints stop_index sd step idx acc h0 h :
  lowered h0 h ->
  wp (deaccel_body self waypoints stop_index sd step idx acc)
     (fun _ h' => lowered h0 h') h.
Proof.
  intros Hb. destruct acc as [vel d]. unfold deaccel_body. run_step.
  repeat case_match; simplify_eq/=; auto;
    apply lowered_assign; auto;
    match goal with
    | Hl : ?h !! ?r = Some _, Hlt : _ < linear_x (default _ (?h !! ?r)) |- _ =>
        let H := fresh in
        pose proof Hlt as H; rewrite Hl in H; simpl in H; lra
    end.
Qed.

Lemma deaccel_lowers self waypoints stop_index sd h :
  lowered h (snd (deaccel self waypoints stop_index sd h)).
Proof.
  change (wp (deaccel self waypoints stop_index sd) (fun _ h' => lowered h h') h).
  pose proof (lowered_refl h) as Hb. revert Hb. generalize h at 1 3 as h0.
  intros h0 Hb.
  unfold deaccel. destruct (stop_index <=? 0)%nat; [exact Hb|].
  apply wp_bind. apply read_only_wp; [apply distance_read_only|].
  intros [dist|e]; [|exact Hb].
  apply wp_bind.
  eapply wp_mono;
    [|apply (wp_for_fold (fun _ _ h' => lowered h0 h')
                         (fun _ h' => lowered h0 h'))].
  - intros [a|e] h'; auto.
  - exact Hb.
  - intros x rest a h1 H1. eapply wp_mono; [|apply deaccel_body_lowers; exact H1].
    intros [a'|e] h'; auto.
Qed.

Lemma deaccel_below self waypoints stop_index sd orig h :
  vel_below h orig ->
  wp (deaccel self waypoints stop_index sd) (fun _ h' => vel_below h' orig) h.
Proof.
  intros Hb. unfold wp. eapply vel_below_lowered; [exact Hb|apply deaccel_lowers].
Qed.

Lemma vel_below_restore h orig r w v :
  vel_below h orig -> h !! r = Some w -> orig !! r = Some v ->
  vel_below (<[r := with_linear_x w v]> h) orig.
Proof.
  unfold vel_below. intros Hb Hr Hv.
  apply Forall2_same_length_lookup in Hb as [Hlen Hb].
  apply Forall2_same_length_lookup. split.
  - rewrite length_insert. exact Hlen.
  - intros i x y Hx Hy. destruct (decide (r = i)) as [->|Hne].
    + rewrite list_lookup_insert_eq in Hx by (eapply lookup_lt_Some; eauto).
      simplify_eq. simpl. lra.
    + rewrite list_lookup_insert_ne in Hx by exact Hne. eauto.
Qed.

(** *** What each step of a tick does to the invariant *)

Lemma next_wpUpdate_state st :
  snd (next_wpUpdate st) = st \/
  exists i, next_wpUpdate st = (Ok true, set_next_waypoint (Some i) st).
Proof.
  unfold next_wpUpdate. run_step.
  repeat case_match; simplify_eq/=; eauto.
Qed.

Lemma next_wpUpdate_Inv st : Inv st -> Inv (snd (next_wpUpdate st)).
Proof.
  intros H. destruct (next_wpUpdate_state st) as [->|[i ->]]; exact H.
Qed.

Lemma restore_velocities_Inv indexes st :
  Inv st -> wp (restore_velocities indexes) (fun _ st' => Inv st') st.
Proof.
  intros H. unfold restore_velocities, for_each.
  eapply wp_mono;
    [|apply (wp_for_fold (fun _ _ st' => Inv st') (fun _ st' => Inv st'))].
  - intros [a|e] st'; auto.
  - exact H.
  - clear st H. intros idx rest _ st H. unfold on_heap, Inv in *. run_step.
    repeat case_match; simplify_eq/=; auto.
    match goal with
    | Hs : base_refs _ !! _ = Some _ |- _ =>
        unfold base_refs in Hs; apply lookup_seq in Hs as [-> _]
    end.
    apply vel_below_restore; auto.
Qed.

Lemma on_heap_deaccel_Inv self waypoints stop_index sd st :
  Inv st ->
  wp (on_heap (deaccel self waypoints stop_index sd)) (fun _ st' => Inv st') st.
Proof.
  intros H. apply wp_on_heap. apply deaccel_below. exact H.
Qed.

Lemma py_index_read_only {S} l x : read_only (S:=S) (py_index l x).
Proof.
  intros s. unfold py_index. destruct x as [v|]; [|reflexivity].
  destruct (list_index v l); reflexivity.
Qed.

Lemma list_comp_read_only {S X A} (xs : list X) (f : X -> M S A) :
  (forall x, read_only (f x)) -> read_only (list_comp xs f).
Proof.
  intros Hf. induction xs as [|x rest IH]; simpl.
  - intros s. reflexivity.
  - apply read_only_bind; [apply Hf|]. intros a.
    apply read_only_bind; [apply IH|]. intros r s. reflexivity.
Qed.

Lemma stop_trigger_Inv self waypoint_idx final_waypoints target sd st :
  Inv st ->
  wp (try_except
        (i <- py_index waypoint_idx target ;;
         on_heap (deaccel self final_waypoints i sd))
        ValueError (ret tt))
     (fun _ st' => Inv st') st.
Proof.
  intros H. apply wp_try_except. apply wp_bind.
  apply read_only_wp; [apply py_index_read_only|].
  intros [i|e].
  - eapply wp_mono; [|apply on_heap_deaccel_Inv; exact H].
    intros [a|e] st' H'; [exact H'|]. destruct (decide (e = ValueError)); exact H'.
  - destruct (decide (e = ValueError)); exact H.
Qed.

Lemma msgPublish_Inv final_waypoints st :
  Inv st -> wp (msgPublish final_waypoints) (fun _ st' => Inv st') st.
Proof.
  intros H. unfold msgPublish. apply wp_bind. apply wp_on_heap.
  apply read_only_wp.
  { apply list_comp_read_only. intros r h. reflexivity. }
  intros [snapshot|e]; exact H.
Qed.

Lemma updatePublish_Inv self st :
  Inv st -> wp (updatePublish self) (fun _ st' => Inv st') st.
Proof.
  intros H. unfold updatePublish. apply wp_bind.
  pose proof (next_wpUpdate_Inv st H) as H1. unfold wp at 1.
  destruct (next_wpUpdate st) as [[found|e] st1]; cbn [fst snd] in *; [|exact H1].
  destruct found; [|exact H1]. clear st H.
  apply wp_bind. unfold get_state, wp at 1. cbn [fst snd].
  apply wp_bind.
  destruct (next_waypoint st1) as [start|]; [|exact H1]. unfold ret, wp at 1. cbn [fst snd].
  apply wp_bind. destruct (length (base_waypoints st1) =? 0)%nat; [exact H1|].
  unfold ret, wp at 1. cbn [fst snd].
  apply wp_bind. apply read_only_wp.
  { apply list_comp_read_only. intros x. apply read_only_getitem. }
  intros [final_waypoints|e]; [|exact H1].
  apply wp_bind.
  eapply wp_mono with (Q := fun _ st' => Inv st').
  2:{ destruct (stop_on_red self); [|exact H1].
      apply wp_bind. eapply wp_mono; [|apply restore_velocities_Inv; exact H1].
      intros [[]|e] st2 H2; [|exact H2]. apply stop_trigger_Inv. exact H2. }
  intros [[]|e] st2 H2; [|exact H2].
  apply wp_bind.
  eapply wp_mono with (Q := fun _ st' => Inv st').
  2:{ destruct (force_stop_on_last_waypoint self); [exact H2|].
      unfold py_last. run_step. repeat case_match; simplify_eq/=; exact H2. }
  intros [stop_at_end|e] st3 H3; [|exact H3].
  apply wp_bind.
  eapply wp_mono with (Q := fun _ st' => Inv st').
  2:{ destruct stop_at_end; [|exact H3]. apply stop_trigger_Inv. exact H3. }
  intros [[]|e] st4 H4; [|exact H4].
  apply msgPublish_Inv. exact H4.
Qed.

Lemma waypoints_cb_Inv self msg_waypoints st :
  Inv st -> wp (waypoints_cb self msg_waypoints) (fun _ st' => Inv st') st.
Proof.
  intros H.
  assert (Hnew : vel_below msg_waypoints (map linear_x msg_waypoints)).
  { apply Forall2_same_length_lookup. split; [by rewrite length_map|].
    intros i x y Hx Hy. rewrite list_lookup_fmap, Hx in Hy. simplify_eq/=. lra. }
  unfold waypoints_cb, Inv in *. run_step.
  repeat case_match; simplify_eq/=; auto; congruence.
Qed.

Lemma handle_Inv self ev st : Inv st -> Inv (snd (handle self ev st)).
Proof.
  intros H. destruct ev as [p|w|d|]; simpl.
  - exact H.
  - apply waypoints_cb_Inv. exact H.
  - unfold traffic_cb. change (wp (bind get_state (fun st0 =>
      (put_state (set_redlight_wp
         (if (0 <=? d)%Z then Some (Z.to_nat d) else None) st0) ;;;
       if negb (bool_decide (redlight_wp st0 =
                  (if (0 <=? d)%Z then Some (Z.to_nat d) else None)))
       then if light_change_pub then updatePublish self else ret tt
       else ret tt))) (fun _ st' => Inv st') st).
    apply wp_bind. unfold get_state, wp at 1. simpl.
    apply wp_bind. unfold put_state, wp at 1. simpl.
    destruct (negb _); [|exact H]. simpl. apply updatePublish_Inv. exact H.
  - apply updatePublish_Inv. exact H.
Qed.

Lemma run_Inv self evs st : Inv st -> Inv (run self evs st).
Proof.
  revert st. induction evs as [|ev evs IH]; intros st H; simpl; [exact H|].
  apply IH. apply handle_Inv. exact H.
Qed.

(** *** The exhaustive scan of [next_wpUpdate] *)

Lemma nearest_loop_cons base x y off L i rest wp dist fs :
  nearest_loop base x y off L (i :: rest) wp dist fs =
  match base !! ((i + off) mod L)%nat with
  | None => Raise IndexError
  | Some w =>
      if Rlt_dec (car_distance x y w) dist then
        nearest_loop base x y off L rest (Some ((i + off) mod L)%nat)
          (car_distance x y w) fs
      else if negb fs then
        if Rlt_dec dist max_local_dist then Ok wp
        else nearest_loop base x y off L rest wp dist true
      else nearest_loop base x y off L rest wp dist fs
  end.
Proof. reflexivity. Qed.

Lemma nearest_loop_step base x y off L i rest wp dist fs w :
  base !! ((i + off) mod L)%nat = Some w ->
  nearest_loop base x y off L (i :: rest) wp dist fs =
  if Rlt_dec (car_distance x y w) dist then
    nearest_loop base x y off L rest (Some ((i + off) mod L)%nat)
      (car_distance x y w) fs
  else if negb fs then
    if Rlt_dec dist max_local_dist then Ok wp
    else nearest_loop base x y off L rest wp dist true
  else nearest_loop base x y off L rest wp dist fs.
Proof. intros H. rewrite nearest_loop_cons, H. reflexivity. Qed.

Lemma nearest_loop_full base x y n k wp dist :
  (k + n = length base)%nat ->
  scanned base x y k wp dist ->
  exists wp' dist',
    nearest_loop base x y 0 (length base) (seq k n) wp dist true = Ok wp' /\
    scanned base x y (length base) wp' dist'.
Proof.
  revert k wp dist. induction n as [|n IH]; intros k wp dist Hk Hs.
  - simpl. exists wp, dist. split; [reflexivity|].
    replace (length base) with k by lia. exact Hs.
  - cbn [seq]. rewrite nearest_loop_cons, Nat.add_0_r, Nat.mod_small by lia.
    destruct (lookup_lt_is_Some_2 base k) as [w Hw]; [lia|]. rewrite Hw.
    destruct (Rlt_dec (car_distance x y w) dist) as [Hlt|Hge].
    + apply IH; [lia|]. simpl. split; [lia|].
      assert (Hd : dist <= 1000000).
      { destruct wp as [m|]; simpl in Hs; [|lra]. lra. }
      split; [lra|]. split; [eauto|]. split.
      * intros j w' Hj Hw'. destruct (decide (j = k)) as [->|Hne].
        { simplify_eq. lra. }
        assert (Hjk : (j < k)%nat) by lia.
        destruct wp as [m|]; simpl in Hs.
        { destruct Hs as (_ & _ & _ & Hall & _). specialize (Hall _ _ Hjk Hw'). lra. }
        { destruct Hs as [-> Hall]. specialize (Hall _ _ Hjk Hw'). lra. }
      * intros j w' Hj Hw'.
        destruct wp as [m|]; simpl in Hs.
        { destruct Hs as (_ & _ & _ & Hall & _). specialize (Hall _ _ Hj Hw'). lra. }
        { destruct Hs as [-> Hall]. specialize (Hall _ _ Hj Hw'). lra. }
    + simpl. apply IH; [lia|].
      destruct wp as [m|]; simpl in *.
      * destruct Hs as (Hm & Hd & Hwm & Hall & Hfirst).
        split; [lia|]. split; [lra|]. split; [exact Hwm|]. split; [|exact Hfirst].
        intros j w' Hj Hw'. destruct (decide (j = k)) as [->|Hne].
        { simplify_eq. lra. }
        apply (Hall j); [lia|exact Hw'].
      * destruct Hs as [-> Hall]. split; [reflexivity|].
        intros j w' Hj Hw'. destruct (decide (j = k)) as [->|Hne].
        { simplify_eq. lra. }
        apply (Hall j); [lia|exact Hw'].
Qed.

Lemma nearest_loop_bound base x y off L todo wp dist fs i :
  (0 < L)%nat ->
  (forall m, wp = Some m -> (m < L)%nat) ->
  nearest_loop base x y off L todo wp dist fs = Ok (Some i) -> (i < L)%nat.
Proof.
  intros HL. revert wp dist fs. induction todo as [|j todo IH]; intros wp dist fs Hwp.
  - simpl. intros [= ->]. auto.
  - rewrite nearest_loop_cons. destruct (base !! _); [|discriminate].
    destruct (Rlt_dec _ dist).
    + apply IH. intros m [= <-]. apply Nat.mod_upper_bound. lia.
    + destruct fs; simpl.
      * apply IH. exact Hwp.
      * destruct (Rlt_dec dist max_local_dist).
        { intros [= ->]. auto. }
        { apply IH. exact Hwp. }
Qed.

(** What a successful [next_wpUpdate] leaves. *)
Lemma next_wpUpdate_found st st1 :
  next_wpUpdate st = (Ok true, st1) ->
  exists start, st1 = set_next_waypoint (Some start) st /\
                (start < length (base_waypoints st))%nat.
Proof.
  unfold next_wpUpdate, bind, get_state.
  destruct (base_waypoints st) as [|w l] eqn:Hb; [discriminate|].
  destruct (current_pose st) as [p|]; [|discriminate].
  destruct (search_start (next_waypoint st)) as [off fs].
  unfold lift_result.
  destruct (nearest_loop _ _ _ _ _ _ _ _ _) as [[i|]|e] eqn:Hloop;
    [|discriminate..].
  unfold put_state, ret. intros [= <-].
  exists i. split; [reflexivity|].
  eapply nearest_loop_bound in Hloop; [exact Hloop|simpl; lia|intros ? [=]].
Qed.

(** *** The velocities [deaccel] leaves, in closed form *)

Section Profile.
Variable self : Params.
Variable waypoints : list nat.
Variable stop_index : nat.
Variable D step : R.

Local Abbreviation allowed := (WaypointUpdaterSpec.allowed self stop_index D step).
Local Abbreviation lowest := (WaypointUpdaterSpec.lowest self waypoints stop_index D step).
Local Abbreviation profiled := (WaypointUpdaterSpec.profiled self waypoints stop_index D step).
Local Abbreviation walk := (WaypointUpdaterSpec.walk self stop_index D step).
Local Abbreviation lower_to := (WaypointUpdaterSpec.lower_to waypoints).

Lemma allowed_nonneg k : 0 <= allowed k.
Proof.
  unfold allowed. destruct (k <? stop_index)%nat; [|lra].
  destruct (Rlt_dec _ _); [apply sqrt_pos|lra].
Qed.

Lemma allowed_beyond k : (stop_index <= k)%nat -> allowed k = 0.
Proof.
  intros H. unfold allowed.
  destruct (k <? stop_index)%nat eqn:E; [|reflexivity].
  apply Nat.ltb_lt in E. lia.
Qed.

Lemma lowest_snoc idxs k r v0 :
  lowest (idxs ++ [k]) r v0 =
  if decide (waypoints !! k = Some r)
  then Rmin (lowest idxs r v0) (allowed k) else lowest idxs r v0.
Proof. unfold lowest. rewrite fold_left_app. reflexivity. Qed.

Lemma lowest_le idxs r v0 : lowest idxs r v0 <= v0.
Proof.
  revert v0. induction idxs as [|i idxs IH]; intros v0; simpl; [lra|].
  destruct (decide _); [|apply IH].
  eapply Rle_trans; [apply IH|apply Rmin_l].
Qed.

Lemma lowest_le_allowed idxs r v0 i :
  In i idxs -> waypoints !! i = Some r -> lowest idxs r v0 <= allowed i.
Proof.
  revert v0. induction idxs as [|j idxs IH]; intros v0 Hin Hr; simpl; [destruct Hin|].
  destruct Hin as [->|Hin].
  - rewrite decide_True by exact Hr.
    eapply Rle_trans; [apply lowest_le|apply Rmin_r].
  - apply IH; assumption.
Qed.

Lemma lowest_attained idxs r v0 :
  lowest idxs r v0 = v0 \/
  exists i, In i idxs /\ waypoints !! i = Some r /\ lowest idxs r v0 = allowed i.
Proof.
  revert v0. induction idxs as [|j idxs IH]; intros v0; simpl; [left; reflexivity|].
  destruct (decide (waypoints !! j = Some r)) as [Hj|Hj].
  - destruct (IH (Rmin v0 (allowed j))) as [Heq|(i & Hin & Hr & Heq)].
    + rewrite Heq. unfold Rmin. destruct (Rle_dec v0 (allowed j)); [left; reflexivity|].
      right. exists j. auto.
    + right. exists i. auto.
  - destruct (IH v0) as [Heq|(i & Hin & Hr & Heq)]; [left; exact Heq|].
    right. exists i. auto.
Qed.

(** A waypoint referred to at or beyond the stop line ends at 0 when its
    velocity was positive and is left as it was otherwise. *)
Lemma lowest_beyond idxs r v0 i :
  In i idxs -> waypoints !! i = Some r -> (stop_index <= i)%nat ->
  lowest idxs r v0 = Rmin v0 0.
Proof.
  intros Hin Hr Hi.
  pose proof (lowest_le idxs r v0) as Hle.
  pose proof (lowest_le_allowed idxs r v0 i Hin Hr) as Hle0.
  rewrite (allowed_beyond i Hi) in Hle0.
  destruct (lowest_attained idxs r v0) as [Heq|(j & _ & _ & Heq)].
  - rewrite Heq in *. rewrite Rmin_left; [reflexivity|lra].
  - pose proof (allowed_nonneg j) as Hj.
    unfold Rmin. destruct (Rle_dec v0 0); lra.
Qed.

(** With no waypoint referred to twice, a waypoint gets the least of its
    own velocity and the speed allowed at its one place in the window. *)
Lemma lowest_NoDup idxs r v0 i :
  NoDup waypoints -> In i idxs -> waypoints !! i = Some r ->
  lowest idxs r v0 = Rmin v0 (allowed i).
Proof.
  intros Hnd Hin Hr.
  pose proof (lowest_le idxs r v0) as Hle.
  pose proof (lowest_le_allowed idxs r v0 i Hin Hr) as Hle0.
  destruct (lowest_attained idxs r v0) as [Heq|(j & _ & Hj & Heq)].
  - rewrite Heq in *. rewrite Rmin_left; [reflexivity|lra].
  - assert (j = i) as ->.
    { eapply NoDup_lookup; eauto. }
    unfold Rmin. destruct (Rle_dec v0 (allowed i)); lra.
Qed.

Lemma lowest_untouched idxs r v0 :
  (forall i, In i idxs -> waypoints !! i <> Some r) -> lowest idxs r v0 = v0.
Proof.
  revert v0. induction idxs as [|j idxs IH]; intros v0 H; simpl; [reflexivity|].
  rewrite decide_False by (apply H; left; reflexivity).
  apply IH. intros i Hi. apply H. right. exact Hi.
Qed.

Lemma profiled_nil h : profiled [] h = h.
Proof.
  unfold profiled. apply list_eq. intros i. rewrite list_lookup_imap.
  destruct (h !! i) as [[p v]|]; reflexivity.
Qed.

Lemma profiled_lookup idxs h r :
  profiled idxs h !! r =
  (fun w => with_linear_x w (lowest idxs r (linear_x w))) <$> h !! r.
Proof. unfold profiled. apply list_lookup_imap. Qed.

Lemma length_profiled idxs h : length (profiled idxs h) = length h.
Proof. unfold profiled. apply length_imap. Qed.

Lemma deaccel_body_eq idx vel d h :
  deaccel_body self waypoints stop_index D step idx (vel, d) h =
  match walk idx vel d h with
  | (Ok (vel', d'), h1) =>
      match lower_to idx vel' h1 with
      | (Ok _, h2) => (Ok (vel', d'), h2)
      | (Raise e, h2) => (Raise e, h2)
      end
  | (Raise e, h1) => (Raise e, h1)
  end.
Proof.
  unfold deaccel_body, lower_to. fold (walk idx vel d). unfold bind.
  destruct (walk idx vel d h) as [[[vel' d']|e] h1]; [|reflexivity].
  destruct (get_wpVel waypoints idx h1) as [[cur|e] h2]; [|reflexivity].
  destruct (Rlt_dec vel' cur); [|reflexivity].
  destruct (set_wpVel waypoints idx vel' h2) as [[[]|e] h3]; reflexivity.
Qed.

Hypothesis step_nonneg : 0 <= step.
Hypothesis D_below : D <= Rmax (stop_distance self) 0.

Lemma walk_spec k h :
  walk k (allowed (k + 1)) (INR (stop_index - (k + 1)) * step) h =
  (Ok (allowed k, INR (stop_index - k) * step), h).
Proof.
  unfold walk, allowed.
  destruct (k <? stop_index)%nat eqn:Ek.
  - apply Nat.ltb_lt in Ek.
    assert (Hd : INR (stop_index - (k + 1)) * step + step = INR (stop_index - k) * step).
    { replace (stop_index - k)%nat with (S (stop_index - (k + 1))) by lia.
      rewrite S_INR. ring. }
    cbv zeta. rewrite Hd.
    assert (Hpos : 0 <= INR (stop_index - k) * step).
    { apply Rmult_le_pos; [apply pos_INR|exact step_nonneg]. }
    destruct (Rlt_dec (stop_distance self) (INR (stop_index - k) * step)) as [Hlt|Hge].
    + unfold math_sqrt, bind.
      destruct (Rlt_dec _ 0) as [Hneg|_]; [|reflexivity].
      exfalso.
      assert (HD : D <= INR (stop_index - k) * step).
      { eapply Rle_trans; [exact D_below|]. apply Rmax_lub; lra. }
      pose proof (Rabs_pos (accel self)) as Ha.
      assert (0 <= 2 * Rabs (accel self) * (INR (stop_index - k) * step - D)).
      { apply Rmult_le_pos; lra. }
      lra.
    + destruct (k + 1 <? stop_index)%nat eqn:Ek1; [|reflexivity].
      destruct (Rlt_dec _ _) as [Hlt|_]; [|reflexivity].
      exfalso. rewrite <- Hd in Hge. lra.
  - apply Nat.ltb_ge in Ek.
    replace (k + 1 <? stop_index)%nat with false
      by (symmetry; apply Nat.ltb_ge; lia).
    replace (stop_index - (k + 1))%nat with 0%nat by lia.
    replace (stop_index - k)%nat with 0%nat by lia. reflexivity.
Qed.

Lemma lower_to_spec idxs k r h :
  waypoints !! k = Some r ->
  lower_to k (allowed k) (profiled idxs h) = (Ok tt, profiled (idxs ++ [k]) h).
Proof.
  intros Hr. unfold lower_to, get_wpVel, set_wpVel, py_getitem, deref,
    assign_linear_x, bind, ret. rewrite Hr. cbn [fst snd].
  assert (Hsame : forall h',
    (forall i, h' !! i = profiled (idxs ++ [k]) h !! i) ->
    (Ok (), h') = (Ok (), profiled (idxs ++ [k]) h)).
  { intros h' H. f_equal. apply list_eq. exact H. }
  rewrite profiled_lookup.
  destruct (h !! r) as [w|] eqn:Hw; simpl.
  - destruct (Rlt_dec (allowed k) (lowest idxs r (linear_x w))) as [Hlt|Hge];
      [rewrite profiled_lookup, Hw; simpl|];
      apply Hsame; intros i; rewrite ?profiled_lookup, ?lowest_snoc.
    + destruct (decide (r = i)) as [<-|Hne].
      * rewrite list_lookup_insert_eq
          by (rewrite length_profiled; eapply lookup_lt_Some; eauto).
        rewrite Hw. simpl. unfold with_linear_x. simpl.
        rewrite lowest_snoc, decide_True by exact Hr.
        rewrite Rmin_right by lra. reflexivity.
      * rewrite list_lookup_insert_ne, !profiled_lookup by exact Hne.
        destruct (h !! i) as [wi|]; [|reflexivity]. simpl.
        rewrite lowest_snoc, decide_False by congruence. reflexivity.
    + destruct (h !! i) as [wi|] eqn:Hi; [|reflexivity]. simpl.
      rewrite lowest_snoc.
      destruct (decide (waypoints !! k = Some i)) as [Hk|Hk]; [|reflexivity].
      assert (i = r) as -> by congruence. simplify_eq.
      rewrite Rmin_left by lra. reflexivity.
  - destruct (Rlt_dec (allowed k) 0);
      [rewrite profiled_lookup, Hw; simpl|];
      apply Hsame; intros i; rewrite !profiled_lookup;
      (destruct (h !! i) as [wi|] eqn:Hi; [|reflexivity]); simpl;
      rewrite lowest_snoc, decide_False by congruence; reflexivity.
Qed.

Lemma deaccel_body_spec idxs k r h :
  waypoints !! k = Some r ->
  deaccel_body self waypoints stop_index D step k
    (allowed (k + 1), INR (stop_index - (k + 1)) * step) (profiled idxs h) =
  (Ok (allowed k, INR (stop_index - k) * step), profiled (idxs ++ [k]) h).
Proof.
  intros Hr. rewrite deaccel_body_eq, walk_spec, (lower_to_spec _ _ _ _ Hr).
  reflexivity.
Qed.

(** The loop from index [k] down, the indices from [k] up already walked. *)
Lemma deaccel_loop_spec k h :
  (k <= length waypoints)%nat ->
  for_fold (rev (seq 0 k)) (allowed k, INR (stop_index - k) * step)
    (deaccel_body self waypoints stop_index D step)
    (profiled (rev (seq k (length waypoints - k))) h) =
  (Ok (allowed 0, INR stop_index * step),
   profiled (rev (seq 0 (length waypoints))) h).
Proof.
  induction k as [|k IH]; intros Hk.
  - simpl. rewrite !Nat.sub_0_r. reflexivity.
  - rewrite seq_S, rev_app_distr. cbn [rev app for_fold Nat.add].
    destruct (lookup_lt_is_Some_2 waypoints k) as [r Hr]; [lia|].
    unfold bind. replace (S k) with (k + 1)%nat by lia.
    rewrite (deaccel_body_spec _ _ _ _ Hr).
    replace (length waypoints - k)%nat with (S (length waypoints - (k + 1))) in IH by lia.
    cbn [seq rev] in IH. replace (S k) with (k + 1)%nat in IH by lia.
    apply IH. lia.
Qed.

End Profile.

(** *** The distance along the window *)

Lemma dl_nonneg a b : 0 <= dl a b.
Proof. apply sqrt_pos. Qed.

Lemma path_length_nonneg h waypoints prev idxs : 0 <= path_length h waypoints prev idxs.
Proof.
  revert prev. induction idxs as [|i rest IH]; intros prev; simpl; [lra|].
  pose proof (dl_nonneg (position_at h waypoints prev) (position_at h waypoints i)).
  specialize (IH i). lra.
Qed.

Lemma distance_body_spec h waypoints i dist wp1 :
  (wp1 < length waypoints)%nat -> (i < length waypoints)%nat ->
  distance_body waypoints i (dist, wp1) h =
  (Ok (dist + dl (position_at h waypoints wp1) (position_at h waypoints i), i), h).
Proof.
  intros H1 Hi.
  destruct (lookup_lt_is_Some_2 waypoints wp1 H1) as [r1 Hr1].
  destruct (lookup_lt_is_Some_2 waypoints i Hi) as [r2 Hr2].
  unfold distance_body, get_position, py_getitem, deref, bind, ret, position_at.
  rewrite Hr1, Hr2. reflexivity.
Qed.

Lemma distance_loop_spec h waypoints idxs dist wp1 :
  (wp1 < length waypoints)%nat ->
  Forall (fun i => (i < length waypoints)%nat) idxs ->
  exists last,
    for_fold idxs (dist, wp1) (distance_body waypoints) h =
    (Ok (dist + path_length h waypoints wp1 idxs, last), h).
Proof.
  revert dist wp1. induction idxs as [|i rest IH]; intros dist wp1 H1 Hall.
  - simpl. unfold ret. rewrite Rplus_0_r. eauto.
  - inversion Hall as [|? ? Hi Hrest]; subst.
    cbn [for_fold path_length]. unfold bind.
    rewrite distance_body_spec by assumption.
    destruct (IH (dist + dl (position_at h waypoints wp1) (position_at h waypoints i))
                 i Hi Hrest) as [last ->].
    exists last. do 3 f_equal. ring.
Qed.

Lemma distance_spec h waypoints stop_index :
  (stop_index < length waypoints)%nat ->
  distance waypoints 0 stop_index h =
  (Ok (path_length h waypoints 0 (seq 0 (stop_index + 1))), h).
Proof.
  intros HS. unfold distance, bind.
  destruct (distance_loop_spec h waypoints (seq 0 (stop_index + 1 - 0)) 0 0%nat)
    as [last Hl].
  - lia.
  - apply Forall_forall. intros i Hi. apply elem_of_seq in Hi. lia.
  - rewrite Hl. unfold ret. cbn [fst]. rewrite Nat.sub_0_r, Rplus_0_l. reflexivity.
Qed.

Lemma step_of_nonneg h waypoints stop_index :
  (0 < stop_index)%nat -> 0 <= step_of h waypoints stop_index.
Proof.
  intros HS. unfold step_of. apply Rmult_le_pos; [apply path_length_nonneg|].
  left. apply Rinv_0_lt_compat. apply lt_0_INR. exact HS.
Qed.

(** [deaccel] in closed form: on a stop line inside the window, with the
    standoff argument at most [max(self.stop_distance, 0)] as at both
    call sites, it returns and leaves the profiled heap. *)
Lemma deaccel_spec self waypoints stop_index D h :
  (0 < stop_index)%nat -> (stop_index < length waypoints)%nat ->
  D <= Rmax (stop_distance self) 0 ->
  deaccel self waypoints stop_index D h =
  (Ok tt, profiled self waypoints stop_index D (step_of h waypoints stop_index)
            (rev (seq 0 (length waypoints))) h).
Proof.
  intros H0 HS HD. unfold deaccel.
  destruct (stop_index <=? 0)%nat eqn:E; [apply Nat.leb_le in E; lia|].
  unfold bind at 1. rewrite distance_spec by exact HS.
  fold (step_of h waypoints stop_index).
  pose proof (deaccel_loop_spec self waypoints stop_index D
                (step_of h waypoints stop_index)
                (step_of_nonneg h waypoints stop_index H0) HD
                (length waypoints) h (Nat.le_refl _)) as Hloop.
  rewrite Nat.sub_diag in Hloop. cbn [seq rev] in Hloop.
  rewrite profiled_nil in Hloop.
  rewrite allowed_beyond in Hloop by lia.
  replace (stop_index - length waypoints)%nat with 0%nat in Hloop by lia.
  simpl INR in Hloop. rewrite Rmult_0_l in Hloop.
  unfold bind. rewrite Hloop. reflexivity.
Qed.

Lemma deaccel_at_start self waypoints D h :
  deaccel self waypoints 0 D h = (Ok tt, h).
Proof. reflexivity. Qed.

Lemma deaccel_ok self waypoints stop_index D h :
  (stop_index < length waypoints)%nat -> D <= Rmax (stop_distance self) 0 ->
  fst (deaccel self waypoints stop_index D h) = Ok tt.
Proof.
  intros HS HD. destruct stop_index as [|n]; [reflexivity|].
  rewrite deaccel_spec by (assumption || lia). reflexivity.
Qed.

(** *** A tick, stage by stage *)

Lemma list_index_lt x l i : list_index x l = Some i -> (i < length l)%nat.
Proof.
  revert i. induction l as [|y l IH]; intros i; simpl; [discriminate|].
  destruct (x =? y)%nat.
  - intros [= <-]. lia.
  - destruct (list_index x l) as [j|]; [|discriminate].
    intros [= <-]. specialize (IH j eq_refl). lia.
Qed.

Lemma list_index_lookup x l i : list_index x l = Some i -> l !! i = Some x.
Proof.
  revert i. induction l as [|y l IH]; intros i; simpl; [discriminate|].
  destruct (x =? y)%nat eqn:E.
  - intros [= <-]. apply Nat.eqb_eq in E. subst. reflexivity.
  - destruct (list_index x l) as [j|]; [|discriminate].
    intros [= <-]. simpl. apply IH. reflexivity.
Qed.

Lemma window_indices_length start L : length (window_indices start L) = LOOKAHEAD_WPS.
Proof. unfold window_indices. rewrite length_map, length_seq. reflexivity. Qed.

Lemma window_indices_lookup start L k :
  (k < LOOKAHEAD_WPS)%nat ->
  window_indices start L !! k = Some ((start + k) mod L)%nat.
Proof.
  intros Hk. unfold window_indices. rewrite list_lookup_fmap, lookup_seq_lt by exact Hk.
  reflexivity.
Qed.

Lemma window_indices_bound start L :
  (0 < L)%nat -> Forall (fun r => (r < L)%nat) (window_indices start L).
Proof.
  intros HL. unfold window_indices. apply Forall_fmap, Forall_forall.
  intros i _. simpl. apply Nat.mod_upper_bound. lia.
Qed.

(** [[self.base_waypoints[wp] for wp in waypoint_idx]]: the references
    themselves. *)
Lemma final_waypoints_spec {S} L xs (s : S) :
  Forall (fun r => (r < L)%nat) xs ->
  list_comp xs (py_getitem (seq 0 L)) s = (Ok xs, s).
Proof.
  induction 1 as [|x xs Hx _ IH]; [reflexivity|].
  cbn [list_comp]. unfold bind, py_getitem at 1.
  rewrite lookup_seq_lt by exact Hx. unfold ret at 1. rewrite IH. reflexivity.
Qed.

Lemma restored_nil orig h : restored orig [] h = h.
Proof.
  unfold restored. apply list_eq. intros i. rewrite list_lookup_imap.
  destruct (h !! i) as [w|]; reflexivity.
Qed.

Lemma restored_lookup orig indexes h r w b :
  r ∈ indexes -> h !! r = Some w -> orig !! r = Some b ->
  restored orig indexes h !! r = Some (with_linear_x w b).
Proof.
  intros Hin Hw Hb. unfold restored. rewrite list_lookup_imap, Hw. simpl.
  rewrite decide_True by exact Hin. rewrite Hb. reflexivity.
Qed.

Lemma length_restored orig indexes h : length (restored orig indexes h) = length h.
Proof. unfold restored. apply length_imap. Qed.

Lemma restore_velocities_loop orig idxs done st :
  original_wpvel st = orig ->
  length orig = length (base_waypoints st) ->
  Forall (fun r => (r < length (base_waypoints st))%nat) idxs ->
  for_fold idxs tt
    (fun idx _ =>
       st0 <- get_state ;;
       v <- py_getitem (original_wpvel st0) idx ;;
       on_heap (set_wpVel (base_refs st0) idx v))
    (set_base_waypoints (restored orig done (base_waypoints st)) st) =
  (Ok tt, set_base_waypoints (restored orig (done ++ idxs) (base_waypoints st)) st).
Proof.
  intros Ho Hlen Hall. revert done.
  induction Hall as [|idx idxs Hidx _ IH]; intros done.
  - rewrite app_nil_r. reflexivity.
  - cbn [for_fold]. unfold bind at 1.
    replace ((st0 <- get_state ;;
              v <- py_getitem (original_wpvel st0) idx ;;
              on_heap (set_wpVel (base_refs st0) idx v))
               (set_base_waypoints (restored orig done (base_waypoints st)) st))
      with (Ok tt, set_base_waypoints
                     (restored orig (done ++ [idx]) (base_waypoints st)) st).
    { rewrite IH, <- app_assoc. reflexivity. }
    destruct (lookup_lt_is_Some_2 orig idx) as [v Hv]; [lia|].
    destruct (lookup_lt_is_Some_2 (base_waypoints st) idx Hidx) as [w Hw].
    unfold bind, get_state, py_getitem, on_heap, set_wpVel, assign_linear_x, base_refs.
    cbn [original_wpvel base_waypoints set_base_waypoints]. rewrite Ho, Hv.
    unfold ret, bind. cbn [base_waypoints set_base_waypoints].
    unfold py_getitem. rewrite length_restored, lookup_seq_lt by exact Hidx.
    cbn [Nat.add]. unfold ret.
    unfold restored at 2. rewrite list_lookup_imap, Hw. simpl.
    unfold set_base_waypoints. simpl. do 2 f_equal.
    apply list_eq. intros i. unfold restored. rewrite list_lookup_imap.
    destruct (decide (idx = i)) as [<-|Hne].
    + rewrite list_lookup_insert_eq by (rewrite length_imap; exact Hidx).
      rewrite Hw. simpl.
      rewrite decide_True
        by (apply elem_of_app; right; apply list_elem_of_singleton; reflexivity).
      rewrite Hv. simpl.
      destruct (decide (idx ∈ done)); reflexivity.
    + rewrite list_lookup_insert_ne, list_lookup_imap by exact Hne.
      destruct (base_waypoints st !! i) as [wi|]; [|reflexivity]. simpl.
      destruct (decide (i ∈ done)) as [Hd|Hd].
      * rewrite decide_True by (apply elem_of_app; left; exact Hd). reflexivity.
      * rewrite decide_False; [reflexivity|].
        apply not_elem_of_app. split; [exact Hd|].
        rewrite list_elem_of_singleton. congruence.
Qed.

Lemma restore_velocities_spec indexes st :
  length (original_wpvel st) = length (base_waypoints st) ->
  Forall (fun r => (r < length (base_waypoints st))%nat) indexes ->
  restore_velocities indexes st =
  (Ok tt, set_base_waypoints
            (restored (original_wpvel st) indexes (base_waypoints st)) st).
Proof.
  intros Hlen Hall. unfold restore_velocities, for_each.
  pose proof (restore_velocities_loop (original_wpvel st) indexes [] st
                eq_refl Hlen Hall) as H.
  rewrite restored_nil in H. destruct st. exact H.
Qed.

Lemma set_base_waypoints_same st : set_base_waypoints (base_waypoints st) st = st.
Proof. destruct st. reflexivity. Qed.

Lemma trigger_spec self window target D st :
  D <= Rmax (stop_distance self) 0 ->
  try_except
    (i <- py_index window target ;; on_heap (deaccel self window i D))
    ValueError (ret tt) st =
  (Ok tt, set_base_waypoints (trigger self window target D (base_waypoints st)) st).
Proof.
  intros HD. unfold try_except, bind, py_index, trigger.
  destruct target as [v|]; [|cbn; rewrite set_base_waypoints_same; reflexivity].
  destruct (list_index v window) as [i|] eqn:Hi;
    [|cbn; rewrite set_base_waypoints_same; reflexivity].
  unfold ret at 1. unfold on_heap.
  pose proof (deaccel_ok self window i D (base_waypoints st)
                (list_index_lt _ _ _ Hi) HD) as Hok.
  destruct (deaccel self window i D (base_waypoints st)) as [r h'].
  simpl in Hok. subst r. reflexivity.
Qed.

Lemma snapshot_spec refs (h : Heap) :
  list_comp refs deref h = (Ok (snapshot h refs), h).
Proof.
  induction refs as [|r refs IH]; [reflexivity|].
  cbn [list_comp]. unfold bind. unfold deref at 1. rewrite IH. reflexivity.
Qed.

Lemma Rmax_stop_distance self : stop_distance self <= Rmax (stop_distance self) 0.
Proof. apply Rmax_l. Qed.

Lemma Rmax_zero self : 0 <= Rmax (stop_distance self) 0.
Proof. apply Rmax_r. Qed.

(** A tick on a localised car returns, leaves [tick_heap] and publishes
    its snapshot through the window. *)
Lemma updatePublish_spec self st start :
  length (original_wpvel st) = length (base_waypoints st) ->
  next_wpUpdate st = (Ok true, set_next_waypoint (Some start) st) ->
  updatePublish self st =
  (Ok tt,
   send {| seq_no := msg_seq st; frame_id := "/world";
           waypoints := snapshot (tick_heap self st start)
                          (window_indices start (length (base_waypoints st))) |}
     (set_base_waypoints (tick_heap self st start)
        (set_next_waypoint (Some start) st))).
Proof.
  intros Hlen Hnext.
  destruct (next_wpUpdate_found _ _ Hnext) as (start' & Heq & Hstart).
  assert (HL : (0 < length (base_waypoints st))%nat) by lia. clear start' Heq Hstart.
  unfold updatePublish. unfold bind at 1. rewrite Hnext.
  unfold bind at 1. unfold get_state at 1.
  set (st1 := set_next_waypoint (Some start) st).
  unfold bind at 1. cbn [next_waypoint st1 set_next_waypoint]. unfold ret at 1.
  change (base_waypoints st1) with (base_waypoints st).
  change (original_wpvel st1) with (original_wpvel st).
  change (redlight_wp st1) with (redlight_wp st).
  unfold bind at 1.
  destruct (length (base_waypoints st) =? 0)%nat eqn:E;
    [apply Nat.eqb_eq in E; lia|]. unfold ret at 1.
  set (window := window_indices start (length (base_waypoints st))).
  assert (Hwin : Forall (fun r => (r < length (base_waypoints st))%nat) window)
    by (apply window_indices_bound; exact HL).
  unfold bind at 1. unfold base_refs.
  change (base_waypoints st1) with (base_waypoints st).
  rewrite (final_waypoints_spec _ _ st1 Hwin).
  unfold tick_heap. fold window.
  set (h1 := if stop_on_red self
             then trigger self window (redlight_wp st) (stop_distance self)
                    (restored (original_wpvel st) window (base_waypoints st))
             else base_waypoints st).
  unfold bind at 1.
  assert (Hstage1 :
    (if stop_on_red self
     then restore_velocities window ;;;
          try_except
            (red_idx <- py_index window (redlight_wp st) ;;
             on_heap (deaccel self window red_idx (stop_distance self)))
            ValueError (ret tt)
     else ret tt) st1 = (Ok tt, set_base_waypoints h1 st1)).
  { subst h1. destruct (stop_on_red self).
    - unfold bind at 1. rewrite restore_velocities_spec by assumption.
      rewrite trigger_spec by apply Rmax_stop_distance.
      reflexivity.
    - reflexivity. }
  rewrite Hstage1. clear Hstage1.
  unfold bind at 1.
  assert (Hstage2 :
    (if force_stop_on_last_waypoint self then ret true
     else v <- py_last (original_wpvel st) ;;
          ret (if Rlt_dec v (/ 100000) then true else false))
      (set_base_waypoints h1 st1) =
    (Ok (stop_at_end self (original_wpvel st)), set_base_waypoints h1 st1)).
  { unfold stop_at_end. destruct (force_stop_on_last_waypoint self); [reflexivity|].
    unfold bind, py_last. simpl orb.
    destruct (last (original_wpvel st)) as [v|] eqn:Hl; [reflexivity|].
    apply last_None in Hl. rewrite Hl in Hlen. simpl in Hlen. lia. }
  rewrite Hstage2. clear Hstage2.
  unfold bind at 1.
  assert (Hstage3 :
    (if stop_at_end self (original_wpvel st)
     then try_except
            (last_wp_idx <- py_index window
                              (Some (length (base_waypoints st) - 1)%nat) ;;
             on_heap (deaccel self window last_wp_idx 0))
            ValueError (ret tt)
     else ret tt) (set_base_waypoints h1 st1) =
    (Ok tt, set_base_waypoints
              (if stop_at_end self (original_wpvel st)
               then trigger self window (Some (length (base_waypoints st) - 1)%nat) 0 h1
               else h1) st1)).
  { destruct (stop_at_end self (original_wpvel st)); [|reflexivity].
    rewrite trigger_spec by apply Rmax_zero. reflexivity. }
  rewrite Hstage3. clear Hstage3.
  unfold msgPublish, bind, on_heap.
  cbn [base_waypoints set_base_waypoints].
  rewrite snapshot_spec. reflexivity.
Qed.

(** *** Points on the x axis, for the worked scenarios *)

Lemma dl_on_axis a b va vb :
  dl (position (pose (wp_on_axis a va))) (position (pose (wp_on_axis b vb))) = Rabs (a - b).
Proof.
  unfold dl. simpl. rewrite <- sqrt_Rsqr_abs. f_equal. unfold Rsqr. ring.
Qed.

Lemma car_distance_on_axis x a v : car_distance x 0 (wp_on_axis a v) = Rabs (x - a).
Proof.
  unfold car_distance. simpl. rewrite <- sqrt_Rsqr_abs. f_equal. unfold Rsqr. ring.
Qed.

(** ** Path replacement *)

(** C10: a replacement path no longer than the tracked index makes
    [waypoints_cb] raise [IndexError] at [waypoints[self.next_waypoint]]:
    no bounds check, the continuity check is not completed and the state
    is left as it was. *)
Theorem waypoints_cb_short_path_raises self msg_waypoints st n :
  base_waypoints st <> [] ->
  next_waypoint st = Some n ->
  (length msg_waypoints <= n)%nat ->
  waypoints_cb self msg_waypoints st = (Raise IndexError, st).
Proof.
  intros Hb Hn Hlen. unfold waypoints_cb, bind, get_state.
  destruct (base_waypoints st) as [|w l] eqn:Hbase; [congruence|].
  rewrite Hn. unfold py_getitem.
  destruct ((w :: l) !! n) as [old|]; [|reflexivity].
  unfold ret at 1. rewrite (lookup_ge_None_2 msg_waypoints n) by lia.
  reflexivity.
Qed.

Lemma waypoints_cb_short_path_raises_witness :
  waypoints_cb default_params [wp_on_axis 0 5]
    (tracking [wp_on_axis 0 5; wp_on_axis 1 5] 1) =
  (Raise IndexError, tracking [wp_on_axis 0 5; wp_on_axis 1 5] 1).
Proof.
  apply (waypoints_cb_short_path_raises _ _ _ 1%nat).
  - discriminate.
  - reflexivity.
  - simpl. lia.
Defined.

(** C9: when a new path arrives, a previous index is known and the old
    and the new waypoint at that index are more than 0.5 apart, the
    callback returns normally, has logged the warning, has taken the new
    path and has reset the previous index to unknown, so that the next
    localisation starts at offset 0 as a full search. *)
Theorem waypoints_cb_discontinuity self msg_waypoints st n old new :
  next_waypoint st = Some n ->
  base_waypoints st !! n = Some old ->
  msg_waypoints !! n = Some new ->
  1 / 2 < dl (position (pose old)) (position (pose new)) ->
  exists st',
    waypoints_cb self msg_waypoints st = (Ok tt, st') /\
    next_waypoint st' = None /\
    search_start (next_waypoint st') = (0%nat, true) /\
    warnings st' = "Base waypoint list changed"%string :: warnings st /\
    base_waypoints st' = msg_waypoints /\
    original_wpvel st' = map linear_x msg_waypoints.
Proof.
  intros Hn Hold Hnew Hfar. unfold waypoints_cb, bind, get_state.
  destruct (base_waypoints st) as [|w l] eqn:Hbase; [discriminate|].
  rewrite Hn. unfold py_getitem. rewrite Hold, Hnew. unfold ret at 1 2.
  unfold sameWP. destruct (Rlt_dec _ (1 / 2)) as [Hlt|_]; [lra|].
  cbn [negb]. unfold put_state, ret.
  destruct (unsubscribe_base_wp self); eexists; repeat split; reflexivity.
Qed.

Lemma waypoints_cb_discontinuity_witness :
  exists st',
    waypoints_cb default_params [wp_on_axis 1 5] (tracking [wp_on_axis 0 5] 0) =
    (Ok tt, st') /\
    next_waypoint st' = None /\
    search_start (next_waypoint st') = (0%nat, true) /\
    warnings st' = "Base waypoint list changed"%string
                   :: warnings (tracking [wp_on_axis 0 5] 0) /\
    base_waypoints st' = [wp_on_axis 1 5] /\
    original_wpvel st' = map linear_x [wp_on_axis 1 5].
Proof.
  apply (waypoints_cb_discontinuity default_params [wp_on_axis 1 5]
           (tracking [wp_on_axis 0 5] 0) 0%nat (wp_on_axis 0 5) (wp_on_axis 1 5)).
  - reflexivity.
  - reflexivity.
  - reflexivity.
  - rewrite dl_on_axis. rewrite Rabs_left by lra. lra.
Defined.

(** ** Velocities and their baseline *)

(** C6: in every state the node reaches from its start, whatever the
    parameters and the stop requests, every waypoint's current velocity
    is at most its baseline.  The two writers of a velocity keep it so:
    [restore_velocities] sets each waypoint it names exactly to its
    baseline, and [deaccel], for any window, stop index and standoff,
    leaves the waypoints where they are and none faster. *)
Theorem current_velocity_below_baseline (self : Params) (evs : list Event) :
  Forall2 (fun w b => linear_x w <= b)
    (base_waypoints (run self evs init)) (original_wpvel (run self evs init))
  /\ (forall indexes,
        Forall (fun r => (r < length (base_waypoints (run self evs init)))%nat)
          indexes ->
        exists h1,
          restore_velocities indexes (run self evs init) =
          (Ok tt, set_base_waypoints h1 (run self evs init)) /\
          forall r, r ∈ indexes ->
            exists w, h1 !! r = Some w /\
                      original_wpvel (run self evs init) !! r = Some (linear_x w))
  /\ forall waypoints stop_index D h,
       Forall2 (fun w w' => pose w' = pose w /\ linear_x w' <= linear_x w)
         h (snd (deaccel self waypoints stop_index D h)).
Proof.
  assert (HInv : Inv (run self evs init)).
  { apply run_Inv. apply Forall2_nil_2. }
  split; [exact HInv|]. split.
  - set (st := run self evs init) in *.
    assert (Hlen : length (original_wpvel st) = length (base_waypoints st)).
    { symmetry. eapply Forall2_length. exact HInv. }
    intros indexes Hall. eexists. split.
    + apply restore_velocities_spec; assumption.
    + intros r Hr.
      assert (Hlt : (r < length (base_waypoints st))%nat).
      { rewrite Forall_forall in Hall. apply Hall. exact Hr. }
      destruct (lookup_lt_is_Some_2 (base_waypoints st) r Hlt) as [w Hw].
      destruct (lookup_lt_is_Some_2 (original_wpvel st) r) as [b Hb]; [lia|].
      exists (with_linear_x w b). split; [|exact Hb].
      apply restored_lookup; assumption.
  - intros waypoints stop_index D h. apply deaccel_lowers.
Qed.

(** ** Localisation with no previous index *)

Lemma next_wpUpdate_unfold st w l p :
  base_waypoints st = w :: l ->
  current_pose st = Some p ->
  next_wpUpdate st =
  match nearest_loop (base_waypoints st) (pos_x (position p)) (pos_y (position p))
          (fst (search_start (next_waypoint st))) (length (base_waypoints st))
          (seq 0 (length (base_waypoints st))) None 1000000
          (snd (search_start (next_waypoint st))) with
  | Ok (Some i) => (Ok true, set_next_waypoint (Some i) st)
  | Ok None => (Ok false, st)
  | Raise e => (Raise e, st)
  end.
Proof.
  intros Hb Hp. unfold next_wpUpdate, bind, get_state. rewrite Hp.
  destruct (base_waypoints st) as [|w' l'] eqn:Hb'; [discriminate|].
  destruct (search_start (next_waypoint st)) as [off fs]. cbn [fst snd].
  unfold lift_result.
  destruct (nearest_loop _ _ _ _ _ _ _ _ _) as [[i|]|e]; reflexivity.
Qed.

(** C7, amended: with no previous index and a known position, when
    some waypoint is nearer than the initial 1000000 [next_wpUpdate]
    succeeds and takes the first index whose distance to the car is
    least over the whole path; when every waypoint is 1000000 or more
    away it reports that none was found. *)
Theorem exhaustive_scan_first_nearest st p :
  next_waypoint st = None ->
  current_pose st = Some p ->
  (forall j wj,
     base_waypoints st !! j = Some wj ->
     car_distance (pos_x (position p)) (pos_y (position p)) wj < 1000000 ->
     exists i wi,
       next_wpUpdate st = (Ok true, set_next_waypoint (Some i) st) /\
       base_waypoints st !! i = Some wi /\
       (forall k wk, base_waypoints st !! k = Some wk ->
          car_distance (pos_x (position p)) (pos_y (position p)) wi
          <= car_distance (pos_x (position p)) (pos_y (position p)) wk) /\
       (forall k wk, (k < i)%nat -> base_waypoints st !! k = Some wk ->
          car_distance (pos_x (position p)) (pos_y (position p)) wi
          < car_distance (pos_x (position p)) (pos_y (position p)) wk)) /\
  ((forall k wk, base_waypoints st !! k = Some wk ->
      1000000 <= car_distance (pos_x (position p)) (pos_y (position p)) wk) ->
   next_wpUpdate st = (Ok false, st)).
Proof.
  intros Hn Hp.
  destruct (base_waypoints st) as [|w l] eqn:Hb.
  { split; [intros j wj Hj; discriminate|]. intros _.
    unfold next_wpUpdate, bind, get_state. rewrite Hb. reflexivity. }
  rewrite (next_wpUpdate_unfold st w l p Hb Hp), Hn. cbn [search_start fst snd].
  rewrite Hb.
  destruct (nearest_loop_full (w :: l) (pos_x (position p)) (pos_y (position p))
              (length (w :: l)) 0 None 1000000) as (wp' & dist' & Hloop & Hs).
  { lia. }
  { split; [reflexivity|]. intros k wk Hk. lia. }
  rewrite Hloop. destruct wp' as [m|]; simpl in Hs.
  - destruct Hs as (Hm & Hd & (wm & Hwm & ->) & Hall & Hfirst). split.
    + intros j wj Hj Hnear.
      exists m, wm. split; [reflexivity|]. split; [exact Hwm|]. split.
      * intros k wk Hk. apply (Hall k); [|exact Hk].
        pose proof (lookup_lt_Some _ _ _ Hk) as Hlt. simpl in Hlt. lia.
      * exact Hfirst.
    + intros Hfar. specialize (Hfar m wm Hwm). lra.
  - destruct Hs as [_ Hall]. split; [|reflexivity].
    intros j wj Hj Hnear. exfalso.
    pose proof (lookup_lt_Some _ _ _ Hj) as Hlt. simpl in Hlt.
    assert (Hjl : (j < S (length l))%nat) by lia.
    specialize (Hall j wj Hjl Hj). lra.
Qed.

Lemma exhaustive_scan_first_nearest_witness :
  exists i wi,
    next_wpUpdate
      (set_current_pose (Some (pose_on_axis 3))
         (set_base_waypoints [wp_on_axis 0 5; wp_on_axis 4 5; wp_on_axis 2 5] init)) =
    (Ok true,
     set_next_waypoint (Some i)
       (set_current_pose (Some (pose_on_axis 3))
          (set_base_waypoints [wp_on_axis 0 5; wp_on_axis 4 5; wp_on_axis 2 5] init))) /\
    [wp_on_axis 0 5; wp_on_axis 4 5; wp_on_axis 2 5] !! i = Some wi /\
    (forall k wk, [wp_on_axis 0 5; wp_on_axis 4 5; wp_on_axis 2 5] !! k = Some wk ->
       car_distance 3 0 wi <= car_distance 3 0 wk) /\
    (forall k wk, (k < i)%nat ->
       [wp_on_axis 0 5; wp_on_axis 4 5; wp_on_axis 2 5] !! k = Some wk ->
       car_distance 3 0 wi < car_distance 3 0 wk).
Proof.
  apply (proj1 (exhaustive_scan_first_nearest
                  (set_current_pose (Some (pose_on_axis 3))
                     (set_base_waypoints
                        [wp_on_axis 0 5; wp_on_axis 4 5; wp_on_axis 2 5] init))
                  (pose_on_axis 3) eq_refl eq_refl)
           1%nat (wp_on_axis 4 5)).
  - reflexivity.
  - change (car_distance 3 0 (wp_on_axis 4 5) < 1000000).
    rewrite car_distance_on_axis. rewrite Rabs_left by lra. lra.
Defined.

(** C7 as stated fails: a path whose only waypoint is 2000000 away from
    the car is not empty and the position is known, yet the scan keeps
    no index and [next_wpUpdate] reports that none was found. *)
Lemma exhaustive_scan_misses_far_waypoint :
  next_wpUpdate
    (set_current_pose (Some (pose_on_axis 0))
       (set_base_waypoints [wp_on_axis 2000000 5] init)) =
  (Ok false,
   set_current_pose (Some (pose_on_axis 0))
     (set_base_waypoints [wp_on_axis 2000000 5] init)).
Proof.
  rewrite (next_wpUpdate_unfold _ (wp_on_axis 2000000 5) [] (pose_on_axis 0))
    by reflexivity.
  cbn [base_waypoints set_current_pose set_base_waypoints next_waypoint init
       search_start fst snd length seq].
  rewrite (nearest_loop_step _ _ _ _ _ _ _ _ _ _ (wp_on_axis 2000000 5))
    by reflexivity.
  change (pos_x (position (pose_on_axis 0))) with 0.
  change (pos_y (position (pose_on_axis 0))) with 0.
  rewrite car_distance_on_axis. rewrite Rabs_left by lra.
  destruct (Rlt_dec (- (0 - 2000000)) 1000000) as [Hlt|_]; [lra|].
  reflexivity.
Qed.

(** ** The published window *)

Lemma length_deaccel self window i D h :
  length (snd (deaccel self window i D h)) = length h.
Proof. symmetry. eapply Forall2_length. apply deaccel_lowers. Qed.

Lemma length_trigger self window target D h :
  length (trigger self window target D h) = length h.
Proof.
  unfold trigger. destruct target as [v|]; [|reflexivity].
  destruct (list_index v window); [apply length_deaccel|reflexivity].
Qed.

Lemma length_tick_heap self st start :
  length (tick_heap self st start) = length (base_waypoints st).
Proof.
  unfold tick_heap.
  destruct (stop_at_end self (original_wpvel st)), (stop_on_red self);
    rewrite ?length_trigger, ?length_restored; reflexivity.
Qed.

Lemma snapshot_lookup h refs k r w :
  refs !! k = Some r -> h !! r = Some w -> snapshot h refs !! k = Some w.
Proof.
  intros Hr Hw. unfold snapshot. rewrite list_lookup_fmap, Hr. simpl.
  rewrite Hw. reflexivity.
Qed.

(** C8: a tick on a localised car publishes one message; its window
    has exactly [LOOKAHEAD_WPS] = 100 entries and entry [k] is the path
    waypoint at index [(start + k) mod L]. *)
Theorem published_window_shape self st start :
  length (original_wpvel st) = length (base_waypoints st) ->
  next_wpUpdate st = (Ok true, set_next_waypoint (Some start) st) ->
  exists msg st',
    updatePublish self st = (Ok tt, st') /\
    published st' = msg :: published st /\
    seq_no msg = msg_seq st /\
    length (waypoints msg) = 100%nat /\
    length (base_waypoints st') = length (base_waypoints st) /\
    forall k, (k < 100)%nat ->
      exists w,
        waypoints msg !! k = Some w /\
        base_waypoints st' !! ((start + k) mod length (base_waypoints st))%nat = Some w.
Proof.
  intros Hlen Hnext.
  destruct (next_wpUpdate_found _ _ Hnext) as (start' & _ & Hstart).
  assert (HL : (0 < length (base_waypoints st))%nat) by lia. clear start' Hstart.
  rewrite (updatePublish_spec self st start Hlen Hnext).
  eexists. eexists. split; [reflexivity|].
  split; [reflexivity|]. split; [reflexivity|].
  cbn [published send seq_no waypoints base_waypoints set_base_waypoints
       set_next_waypoint].
  split.
  { unfold snapshot. rewrite length_map. apply window_indices_length. }
  split; [apply length_tick_heap|].
  intros k Hk.
  destruct (lookup_lt_is_Some_2 (tick_heap self st start)
              ((start + k) mod length (base_waypoints st))%nat) as [w Hw].
  { rewrite length_tick_heap. apply Nat.mod_upper_bound. lia. }
  exists w. split; [|exact Hw].
  eapply snapshot_lookup; [|exact Hw].
  apply window_indices_lookup. exact Hk.
Qed.

(** A car at the first waypoint of a one-waypoint path is localised at 0. *)
Lemma localised_at_origin :
  next_wpUpdate (set_current_pose (Some (pose_on_axis 0)) (tracking [wp_on_axis 0 5] 0)) =
  (Ok true,
   set_next_waypoint (Some 0%nat)
     (set_current_pose (Some (pose_on_axis 0)) (tracking [wp_on_axis 0 5] 0))).
Proof.
  rewrite (next_wpUpdate_unfold _ (wp_on_axis 0 5) [] (pose_on_axis 0))
    by reflexivity.
  cbn [base_waypoints set_current_pose set_base_waypoints next_waypoint init
       tracking set_next_waypoint set_original_wpvel
       search_start fst snd length seq].
  rewrite (nearest_loop_step _ _ _ _ _ _ _ _ _ _ (wp_on_axis 0 5))
    by reflexivity.
  change (pos_x (position (pose_on_axis 0))) with 0.
  change (pos_y (position (pose_on_axis 0))) with 0.
  rewrite car_distance_on_axis. rewrite Rabs_right by lra.
  destruct (Rlt_dec (0 - 0) 1000000) as [_|Hge]; [|lra].
  reflexivity.
Qed.

Lemma published_window_shape_witness :
  exists msg st',
    updatePublish default_params
      (set_current_pose (Some (pose_on_axis 0)) (tracking [wp_on_axis 0 5] 0)) =
    (Ok tt, st') /\
    published st' = msg :: [] /\
    seq_no msg = 0%nat /\
    length (waypoints msg) = 100%nat /\
    length (base_waypoints st') = 1%nat /\
    forall k, (k < 100)%nat ->
      exists w,
        waypoints msg !! k = Some w /\
        base_waypoints st' !! ((0 + k) mod 1)%nat = Some w.
Proof.
  apply (published_window_shape default_params
           (set_current_pose (Some (pose_on_axis 0)) (tracking [wp_on_axis 0 5] 0))
           0%nat).
  - reflexivity.
  - exact localised_at_origin.
Defined.

(** ** The four-waypoint scenario: stop line at index 2 *)

Lemma allowed_before self stop_index D step k :
  (k < stop_index)%nat ->
  allowed self stop_index D step k =
  if Rlt_dec (stop_distance self) (INR (stop_index - k) * step)
  then sqrt (2 * Rabs (accel self) * (INR (stop_index - k) * step - D))
  else 0.
Proof.
  intros H. unfold allowed.
  destruct (k <? stop_index)%nat eqn:E; [reflexivity|].
  apply Nat.ltb_ge in E. lia.
Qed.

Lemma in_rev_seq i n : (i < n)%nat -> In i (rev (seq 0 n)).
Proof. intros H. apply in_rev. rewrite rev_involutive. apply in_seq. lia. Qed.

Lemma scenario_step : step_of scenario_path [0; 1; 2; 3]%nat 2 = 1.
Proof.
  change (step_of scenario_path [0; 1; 2; 3]%nat 2) with
    ((dl (position (pose (wp_on_axis 0 5))) (position (pose (wp_on_axis 0 5)))
      + (dl (position (pose (wp_on_axis 0 5))) (position (pose (wp_on_axis 1 5)))
         + (dl (position (pose (wp_on_axis 1 5))) (position (pose (wp_on_axis 2 5)))
            + 0))) / INR 2).
  rewrite !dl_on_axis. simpl INR.
  rewrite (Rabs_right (0 - 0)), (Rabs_left (0 - 1)), (Rabs_left (1 - 2)) by lra.
  lra.
Qed.

Lemma sqrt_4 : sqrt 4 = 2.
Proof. replace 4 with (2 * 2) by lra. apply sqrt_square. lra. Qed.

(** The scenario, run: waypoint 0 gets 2, the others 0. *)
Lemma scenario_profile :
  deaccel scenario_params [0; 1; 2; 3]%nat 2 1 scenario_path =
  (Ok tt, [wp_on_axis 0 2; wp_on_axis 1 0; wp_on_axis 2 0; wp_on_axis 3 0]).
Proof.
  rewrite deaccel_spec; [|lia|simpl; lia|apply Rmax_l].
  rewrite scenario_step. f_equal.
  change (profiled scenario_params [0; 1; 2; 3]%nat 2 1 1
            (rev (seq 0 (length [0; 1; 2; 3]%nat))) scenario_path)
    with [with_linear_x (wp_on_axis 0 5)
            (lowest scenario_params [0; 1; 2; 3]%nat 2 1 1 (rev (seq 0 4)) 0 5);
          with_linear_x (wp_on_axis 1 5)
            (lowest scenario_params [0; 1; 2; 3]%nat 2 1 1 (rev (seq 0 4)) 1 5);
          with_linear_x (wp_on_axis 2 5)
            (lowest scenario_params [0; 1; 2; 3]%nat 2 1 1 (rev (seq 0 4)) 2 5);
          with_linear_x (wp_on_axis 3 5)
            (lowest scenario_params [0; 1; 2; 3]%nat 2 1 1 (rev (seq 0 4)) 3 5)].
  assert (Hnd : NoDup [0; 1; 2; 3]%nat).
  { apply NoDup_ListNoDup. repeat constructor; simpl; lia. }
  rewrite (lowest_NoDup _ _ _ _ _ _ 0%nat 5 0%nat Hnd (in_rev_seq 0 4 ltac:(lia)) eq_refl).
  rewrite (lowest_NoDup _ _ _ _ _ _ 1%nat 5 1%nat Hnd (in_rev_seq 1 4 ltac:(lia)) eq_refl).
  rewrite (lowest_beyond _ [0; 1; 2; 3]%nat _ _ _ _ 2%nat 5 2%nat
             (in_rev_seq 2 4 ltac:(lia)) eq_refl)
    by lia.
  rewrite (lowest_beyond _ [0; 1; 2; 3]%nat _ _ _ _ 3%nat 5 3%nat
             (in_rev_seq 3 4 ltac:(lia)) eq_refl)
    by lia.
  rewrite !allowed_before by lia.
  change (stop_distance scenario_params) with 1.
  change (accel scenario_params) with (-2).
  simpl INR.
  destruct (Rlt_dec 1 ((1 + 1) * 1)) as [_|Hn]; [|lra].
  destruct (Rlt_dec 1 (1 * 1)) as [Hlt|_]; [lra|].
  rewrite (Rabs_left (-2)) by lra.
  replace (2 * - -2 * ((1 + 1) * 1 - 1)) with 4 by lra.
  rewrite sqrt_4.
  rewrite (Rmin_right 5 2), (Rmin_right 5 0) by lra.
  reflexivity.
Qed.

(** C1, amended: for a stop line at window offset [0 < S] inside the
    window, [deaccel] returns and a waypoint referred to at a window
    index [>= S] ends at the least of its velocity and 0: it is set to 0
    when it was positive and is left as it was otherwise (the walk
    reaches these indices with [vel = 0] and the write is not guarded by
    [idx < stop_index]). *)
Theorem deaccel_beyond_stop_line self waypoints stop_index D h i r w :
  (0 < stop_index)%nat ->
  (stop_index < length waypoints)%nat ->
  D <= Rmax (stop_distance self) 0 ->
  (stop_index <= i)%nat ->
  waypoints !! i = Some r ->
  h !! r = Some w ->
  exists h',
    deaccel self waypoints stop_index D h = (Ok tt, h') /\
    h' !! r = Some (with_linear_x w (Rmin (linear_x w) 0)).
Proof.
  intros H0 HS HD Hi Hr Hw.
  rewrite deaccel_spec by assumption.
  eexists. split; [reflexivity|].
  rewrite profiled_lookup, Hw. simpl. do 2 f_equal.
  apply (lowest_beyond _ _ _ _ _ _ _ _ i); [|exact Hr|exact Hi].
  apply in_rev_seq. eapply lookup_lt_Some. exact Hr.
Qed.

Lemma deaccel_beyond_stop_line_witness :
  exists h',
    deaccel scenario_params [0; 1; 2; 3]%nat 2 1 scenario_path = (Ok tt, h') /\
    h' !! 3%nat = Some (with_linear_x (wp_on_axis 3 5) (Rmin (linear_x (wp_on_axis 3 5)) 0)).
Proof.
  apply (deaccel_beyond_stop_line scenario_params [0; 1; 2; 3]%nat 2 1
           scenario_path 3 3 (wp_on_axis 3 5)).
  - lia.
  - simpl. lia.
  - apply Rmax_l.
  - lia.
  - reflexivity.
  - reflexivity.
Defined.

(** C1 as stated fails: in the scenario (stop index 2, standoff 1,
    |a| = 2, baselines 5) waypoint 3, beyond the stop line, goes from 5
    to 0. *)
Lemma scenario_waypoint_3_is_zeroed :
  exists h',
    deaccel scenario_params [0; 1; 2; 3]%nat 2 1 scenario_path = (Ok tt, h') /\
    linear_x <$> scenario_path !! 3%nat = Some 5 /\
    linear_x <$> h' !! 3%nat = Some 0 /\
    map linear_x h' = [2; 0; 0; 0].
Proof.
  rewrite scenario_profile. eexists. split; [reflexivity|].
  repeat split; reflexivity.
Qed.

(** ** The end-of-path trigger *)

Lemma short_path_step : step_of short_path [0; 1; 2]%nat 2 = 2.
Proof.
  change (step_of short_path [0; 1; 2]%nat 2) with
    ((dl (position (pose (wp_on_axis 0 10))) (position (pose (wp_on_axis 0 10)))
      + (dl (position (pose (wp_on_axis 0 10))) (position (pose (wp_on_axis 2 10)))
         + (dl (position (pose (wp_on_axis 2 10))) (position (pose (wp_on_axis 4 10)))
            + 0))) / INR 2).
  rewrite !dl_on_axis. simpl INR.
  rewrite (Rabs_right (0 - 0)), (Rabs_left (0 - 2)), (Rabs_left (2 - 4)) by lra.
  lra.
Qed.

(** The end-of-path call on its own, [self.deaccel(final_waypoints,
    last_wp_idx, 0)] with the default [self.stop_distance = 5] and
    [self.accel = -1]: waypoints 2 apart, stop line at index 2.  The
    waypoint at distance 2 from the stop line is beyond the standoff 0
    that was passed, so the formula gives [sqrt (2 * 1 * (2 - 0)) = 2];
    the code compares the distance with [self.stop_distance] and writes
    0 there, and 0 at distance 4 as well. *)
Lemma end_of_path_ignores_passed_standoff :
  deaccel default_params [0; 1; 2]%nat 2 0 short_path =
    (Ok tt, [wp_on_axis 0 0; wp_on_axis 2 0; wp_on_axis 4 0])
  /\ allowed default_params 2 0 (step_of short_path [0; 1; 2]%nat 2) 1 = 0
  /\ sqrt (2 * Rabs (accel default_params) * (2 - 0)) = 2.
Proof.
  assert (Ha1 : allowed default_params 2 0 2 1 = 0).
  { rewrite allowed_before by lia.
    change (stop_distance default_params) with 5. simpl INR.
    destruct (Rlt_dec 5 (1 * 2)) as [Hlt|_]; [lra|reflexivity]. }
  assert (Ha0 : allowed default_params 2 0 2 0 = 0).
  { rewrite allowed_before by lia.
    change (stop_distance default_params) with 5. simpl INR.
    destruct (Rlt_dec 5 ((1 + 1) * 2)) as [Hlt|_]; [lra|reflexivity]. }
  split; [|split].
  - rewrite deaccel_spec; [|lia|simpl; lia|apply Rmax_r].
    rewrite short_path_step. f_equal.
    change (profiled default_params [0; 1; 2]%nat 2 0 2
              (rev (seq 0 (length [0; 1; 2]%nat))) short_path)
      with [with_linear_x (wp_on_axis 0 10)
              (lowest default_params [0; 1; 2]%nat 2 0 2 (rev (seq 0 3)) 0 10);
            with_linear_x (wp_on_axis 2 10)
              (lowest default_params [0; 1; 2]%nat 2 0 2 (rev (seq 0 3)) 1 10);
            with_linear_x (wp_on_axis 4 10)
              (lowest default_params [0; 1; 2]%nat 2 0 2 (rev (seq 0 3)) 2 10)].
    assert (Hnd : NoDup [0; 1; 2]%nat).
    { apply NoDup_ListNoDup. repeat constructor; simpl; lia. }
    rewrite (lowest_NoDup _ _ _ _ _ _ 0%nat 10 0%nat Hnd (in_rev_seq 0 3 ltac:(lia)) eq_refl).
    rewrite (lowest_NoDup _ _ _ _ _ _ 1%nat 10 1%nat Hnd (in_rev_seq 1 3 ltac:(lia)) eq_refl).
    rewrite (lowest_beyond _ [0; 1; 2]%nat _ _ _ _ 2%nat 10 2%nat
               (in_rev_seq 2 3 ltac:(lia)) eq_refl) by lia.
    rewrite Ha0, Ha1, (Rmin_right 10 0) by lra. reflexivity.
  - rewrite short_path_step. exact Ha1.
  - change (accel default_params) with (-1).
    rewrite (Rabs_left (-1)) by lra.
    replace (2 * - -1 * (2 - 0)) with 4 by lra. apply sqrt_4.
Qed.

(** *** The end of a path of 100 waypoints *)

Lemma long_path_lookup i :
  (i < 100)%nat -> long_path !! i = Some (wp_on_axis (2 * INR i) 10).
Proof.
  intros Hi. unfold long_path. rewrite list_lookup_fmap, lookup_seq_lt by exact Hi.
  reflexivity.
Qed.

Lemma long_window : window_indices 0 100 = seq 0 100.
Proof. reflexivity. Qed.

Lemma long_position_at i :
  (i < 100)%nat ->
  position_at long_path (seq 0 100) i = position (pose (wp_on_axis (2 * INR i) 10)).
Proof.
  intros Hi. unfold position_at. rewrite lookup_seq_lt by exact Hi.
  cbn [default Nat.add]. rewrite long_path_lookup by exact Hi. reflexivity.
Qed.

Lemma long_path_length k n :
  (k + n < 100)%nat ->
  path_length long_path (seq 0 100) k (seq (S k) n) = 2 * INR n.
Proof.
  revert k. induction n as [|n IH]; intros k Hk.
  - simpl. lra.
  - cbn [seq path_length]. rewrite IH by lia.
    rewrite !long_position_at by lia. rewrite dl_on_axis.
    rewrite (S_INR k), (S_INR n). rewrite Rabs_left by lra. lra.
Qed.

Lemma long_path_step : step_of long_path (seq 0 100) 99 = 2.
Proof.
  unfold step_of.
  change (seq 0 (99 + 1)) with (0%nat :: seq 1 99). cbn [path_length].
  rewrite (long_path_length 0 99) by lia.
  rewrite !long_position_at by lia. rewrite dl_on_axis.
  simpl (INR 0). rewrite Rabs_right by lra.
  assert (H99 : INR 99 <> 0) by (apply not_0_INR; lia).
  field. exact H99.
Qed.

Lemma long_path_profile :
  deaccel default_params (seq 0 100) 99 0 long_path =
  (Ok tt, profiled default_params (seq 0 100) 99 0 2 (rev (seq 0 100)) long_path).
Proof.
  rewrite deaccel_spec; [|lia|rewrite length_seq; lia|apply Rmax_r].
  rewrite long_path_step, length_seq. reflexivity.
Qed.

(** Before the end of the path, the waypoint [r] ends at the least of 10
    and the speed allowed at distance [2 * (99 - r)]. *)
Lemma long_path_profile_lookup r :
  (r < 99)%nat ->
  profiled default_params (seq 0 100) 99 0 2 (rev (seq 0 100)) long_path !! r =
  Some (wp_on_axis (2 * INR r)
          (Rmin 10 (if Rlt_dec 5 (INR (99 - r) * 2)
                    then sqrt (2 * Rabs (-1) * (INR (99 - r) * 2 - 0))
                    else 0))).
Proof.
  intros Hr. rewrite profiled_lookup, long_path_lookup by lia.
  cbn [fmap option_fmap option_map]. f_equal. unfold with_linear_x.
  cbn [pose linear_x wp_on_axis]. unfold wp_on_axis. f_equal.
  rewrite (lowest_NoDup _ _ _ _ _ _ _ _ r (NoDup_seq 0 100)).
  - rewrite allowed_before by exact Hr. reflexivity.
  - apply in_rev_seq. lia.
  - apply lookup_seq_lt. lia.
Qed.

Lemma at_long_start_fields :
  base_waypoints at_long_start = long_path /\
  original_wpvel at_long_start = map linear_x long_path /\
  next_waypoint at_long_start = None /\
  current_pose at_long_start = Some (pose_on_axis 0) /\
  redlight_wp at_long_start = None /\
  published at_long_start = [] /\
  msg_seq at_long_start = 0%nat.
Proof. repeat split; reflexivity. Qed.

Lemma at_long_start_localised :
  next_wpUpdate at_long_start = (Ok true, set_next_waypoint (Some 0%nat) at_long_start).
Proof.
  destruct at_long_start_fields as (Hb & _ & Hn & Hp & _).
  rewrite (next_wpUpdate_unfold at_long_start (wp_on_axis (2 * INR 0) 10)
             (map (fun i => wp_on_axis (2 * INR i) 10) (seq 1 99))
             (pose_on_axis 0) Hb Hp).
  rewrite Hn, Hb. cbn [search_start fst snd].
  change (pos_x (position (pose_on_axis 0))) with 0.
  change (pos_y (position (pose_on_axis 0))) with 0.
  destruct (nearest_loop_full long_path 0 0 (length long_path) 0 None 1000000)
    as (wp' & dist' & Hloop & Hs).
  { lia. }
  { split; [reflexivity|]. intros k wk Hk. lia. }
  rewrite Hloop.
  assert (H0 : long_path !! 0%nat = Some (wp_on_axis (2 * INR 0) 10))
    by (apply long_path_lookup; lia).
  assert (Hd0 : car_distance 0 0 (wp_on_axis (2 * INR 0) 10) = 0).
  { rewrite car_distance_on_axis. simpl INR. rewrite Rabs_right by lra. lra. }
  assert (HL : length long_path = 100%nat) by reflexivity.
  destruct wp' as [m|]; unfold scanned in Hs; rewrite HL in Hs.
  - destruct Hs as (Hm & _ & (wm & Hwm & ->) & Hall & _).
    specialize (Hall 0%nat _ ltac:(lia) H0). rewrite Hd0 in Hall.
    rewrite long_path_lookup in Hwm by exact Hm. injection Hwm as <-.
    rewrite car_distance_on_axis in Hall.
    destruct m as [|m]; [reflexivity|]. exfalso.
    pose proof (lt_0_INR (S m) ltac:(lia)) as Hpos.
    rewrite Rabs_left in Hall by lra. lra.
  - destruct Hs as [_ Hall]. exfalso.
    specialize (Hall 0%nat _ ltac:(lia) H0). rewrite Hd0 in Hall. lra.
Qed.

Lemma restored_baseline idxs h : restored (map linear_x h) idxs h = h.
Proof.
  unfold restored. apply list_eq. intros i. rewrite list_lookup_imap.
  destruct (h !! i) as [[p v]|] eqn:Hi; [|reflexivity]. simpl.
  destruct (decide (i ∈ idxs)); [|reflexivity].
  rewrite list_lookup_fmap, Hi. reflexivity.
Qed.

Lemma long_tick_heap :
  tick_heap default_params at_long_start 0 =
  profiled default_params (seq 0 100) 99 0 2 (rev (seq 0 100)) long_path.
Proof.
  destruct at_long_start_fields as (Hb & Ho & _ & _ & Hr & _).
  unfold tick_heap. rewrite Hb, Ho, Hr, restored_baseline.
  change (stop_on_red default_params) with true.
  change (stop_at_end default_params (map linear_x long_path)) with true.
  cbv iota.
  change (trigger default_params (window_indices 0 (length long_path))
            (Some (length long_path - 1)%nat) 0
            (trigger default_params (window_indices 0 (length long_path)) None
               (stop_distance default_params) long_path))
    with (snd (deaccel default_params (seq 0 100) 99 0 long_path)).
  rewrite long_path_profile. reflexivity.
Qed.

Lemma long_tick_window k :
  (k < 99)%nat ->
  snapshot (profiled default_params (seq 0 100) 99 0 2 (rev (seq 0 100)) long_path)
    (seq 0 100) !! k =
  Some (wp_on_axis (2 * INR k)
          (Rmin 10 (if Rlt_dec 5 (INR (99 - k) * 2)
                    then sqrt (2 * Rabs (-1) * (INR (99 - k) * 2 - 0))
                    else 0))).
Proof.
  intros Hk. apply (snapshot_lookup _ _ k k).
  - apply lookup_seq_lt. lia.
  - apply long_path_profile_lookup. exact Hk.
Qed.

Lemma sqrt_12_below_10 : sqrt 12 <= 10.
Proof.
  replace 10 with (sqrt (10 * 10)) by (apply sqrt_square; lra).
  apply sqrt_le_1; lra.
Qed.

(** C3 on a whole tick.  The node has loaded a path of 100 waypoints, 2
    apart on the x axis, each with velocity 10, and has heard the car at
    waypoint 0; the parameters are the defaults ([self.stop_distance =
    5], [self.accel = -1], stop at the last waypoint).  The tick returns
    and publishes one window, on which the end-of-path trigger
    [self.deaccel(final_waypoints, 99, 0)] has run.  With standoff 0
    passed, the waypoint at distance 2 before the last one is allowed
    [sqrt (2 * 1 * (2 - 0)) = 2]; it is published with velocity 0, and
    so is the one at distance 4, since the walk compares the distance
    with [self.stop_distance]; at distance 6 the velocity jumps to
    [sqrt 12]. *)
Theorem end_of_path_tick_ignores_passed_standoff :
  exists st' msg,
    updatePublish default_params at_long_start = (Ok tt, st') /\
    published st' = [msg] /\
    (forall k, (k < 99)%nat ->
       waypoints msg !! k =
       Some (wp_on_axis (2 * INR k)
               (Rmin 10 (if Rlt_dec 5 (INR (99 - k) * 2)
                         then sqrt (2 * Rabs (-1) * (INR (99 - k) * 2 - 0))
                         else 0)))) /\
    waypoints msg !! 98%nat = Some (wp_on_axis 196 0) /\
    waypoints msg !! 97%nat = Some (wp_on_axis 194 0) /\
    waypoints msg !! 96%nat = Some (wp_on_axis 192 (sqrt 12)) /\
    sqrt (2 * Rabs (accel default_params) * (2 - 0)) = 2.
Proof.
  destruct at_long_start_fields as (Hb & Ho & _ & _ & _ & Hpub & _).
  assert (Hlen : length (original_wpvel at_long_start) =
                 length (base_waypoints at_long_start)).
  { rewrite Hb, Ho. apply length_map. }
  pose proof (updatePublish_spec default_params _ _ Hlen at_long_start_localised)
    as Hup.
  rewrite long_tick_heap, Hb in Hup.
  change (length long_path) with 100%nat in Hup. rewrite long_window in Hup.
  eexists. eexists. split; [exact Hup|].
  cbn [published send set_base_waypoints set_next_waypoint waypoints].
  split; [rewrite Hpub; reflexivity|].
  split; [exact long_tick_window|].
  split; [|split; [|split]].
  - rewrite long_tick_window by lia. f_equal.
    rewrite INR_IZR_INZ. cbn [Nat.sub INR].
    destruct (Rlt_dec 5 (1 * 2)) as [Hlt|_]; [lra|].
    rewrite Rmin_right by lra. f_equal; simpl Z.of_nat; lra.
  - rewrite long_tick_window by lia. f_equal.
    rewrite INR_IZR_INZ. cbn [Nat.sub INR].
    destruct (Rlt_dec 5 ((1 + 1) * 2)) as [Hlt|_]; [lra|].
    rewrite Rmin_right by lra. f_equal; simpl Z.of_nat; lra.
  - rewrite long_tick_window by lia. f_equal.
    rewrite INR_IZR_INZ. cbn [Nat.sub INR].
    destruct (Rlt_dec 5 ((1 + 1 + 1) * 2)) as [_|Hge]; [|lra].
    rewrite (Rabs_left (-1)) by lra.
    replace (2 * - -1 * ((1 + 1 + 1) * 2 - 0)) with 12 by lra.
    rewrite Rmin_right by apply sqrt_12_below_10.
    f_equal; simpl Z.of_nat; lra.
  - change (accel default_params) with (-1).
    rewrite (Rabs_left (-1)) by lra.
    replace (2 * - -1 * (2 - 0)) with 4 by lra. apply sqrt_4.
Qed.

(** ** Restoring the baseline *)

(** C2, amended: a tick on a localised car returns and publishes the
    waypoints of the heap as the window refers to them (shared objects,
    not copies), after the stop triggers.  When [stop_on_red] is set the
    triggers start from a heap in which every waypoint the window refers
    to is back at its baseline; when it is not set nothing is restored
    and the end-of-path trigger starts from the heap as the last tick
    left it. *)
Theorem restore_before_profiling self st start :
  length (original_wpvel st) = length (base_waypoints st) ->
  next_wpUpdate st = (Ok true, set_next_waypoint (Some start) st) ->
  exists h1 st' msg,
    (if stop_on_red self
     then
       restore_velocities (window_indices start (length (base_waypoints st)))
         (set_next_waypoint (Some start) st) =
       (Ok tt, set_base_waypoints h1 (set_next_waypoint (Some start) st)) /\
       forall k, (k < LOOKAHEAD_WPS)%nat ->
         exists w,
           h1 !! ((start + k) mod length (base_waypoints st))%nat = Some w /\
           original_wpvel st !! ((start + k) mod length (base_waypoints st))%nat
           = Some (linear_x w)
     else h1 = base_waypoints st) /\
    updatePublish self st = (Ok tt, st') /\
    base_waypoints st' =
      (let window := window_indices start (length (base_waypoints st)) in
       let h2 :=
         if stop_on_red self
         then trigger self window (redlight_wp st) (stop_distance self) h1
         else h1 in
       if stop_at_end self (original_wpvel st)
       then trigger self window (Some (length (base_waypoints st) - 1)%nat) 0 h2
       else h2) /\
    published st' = msg :: published st /\
    waypoints msg =
      snapshot (base_waypoints st')
        (window_indices start (length (base_waypoints st))).
Proof.
  intros Hlen Hnext.
  destruct (next_wpUpdate_found _ _ Hnext) as (start' & _ & Hstart).
  assert (HL : (0 < length (base_waypoints st))%nat) by lia. clear start' Hstart.
  exists (if stop_on_red self
          then restored (original_wpvel st)
                 (window_indices start (length (base_waypoints st)))
                 (base_waypoints st)
          else base_waypoints st).
  eexists. eexists. split.
  { destruct (stop_on_red self); [|reflexivity]. split.
    - rewrite restore_velocities_spec; [reflexivity|exact Hlen|].
      apply window_indices_bound. exact HL.
    - intros k Hk.
      set (r := ((start + k) mod length (base_waypoints st))%nat).
      assert (Hr : (r < length (base_waypoints st))%nat)
        by (apply Nat.mod_upper_bound; lia).
      destruct (lookup_lt_is_Some_2 (base_waypoints st) r Hr) as [w Hw].
      destruct (lookup_lt_is_Some_2 (original_wpvel st) r) as [b Hb]; [lia|].
      exists (with_linear_x w b). split; [|exact Hb].
      apply restored_lookup; [|exact Hw|exact Hb].
      apply list_elem_of_lookup. exists k. apply window_indices_lookup. exact Hk. }
  rewrite (updatePublish_spec self st start Hlen Hnext).
  split; [reflexivity|].
  cbn [base_waypoints set_base_waypoints published send waypoints].
  split; [|split; reflexivity].
  unfold tick_heap. destruct (stop_on_red self); reflexivity.
Qed.

Lemma restore_before_profiling_witness :
  exists h1 st' msg,
    (if stop_on_red default_params
     then
       restore_velocities (window_indices 0 1)
         (set_next_waypoint (Some 0%nat)
            (set_current_pose (Some (pose_on_axis 0)) (tracking [wp_on_axis 0 5] 0))) =
       (Ok tt, set_base_waypoints h1
                 (set_next_waypoint (Some 0%nat)
                    (set_current_pose (Some (pose_on_axis 0))
                       (tracking [wp_on_axis 0 5] 0)))) /\
       forall k, (k < LOOKAHEAD_WPS)%nat ->
         exists w,
           h1 !! ((0 + k) mod 1)%nat = Some w /\
           [5] !! ((0 + k) mod 1)%nat = Some (linear_x w)
     else h1 = [wp_on_axis 0 5]) /\
    updatePublish default_params
      (set_current_pose (Some (pose_on_axis 0)) (tracking [wp_on_axis 0 5] 0)) =
    (Ok tt, st') /\
    base_waypoints st' =
      (let window := window_indices 0 1 in
       let h2 :=
         if stop_on_red default_params
         then trigger default_params window None 5 h1
         else h1 in
       if stop_at_end default_params [5]
       then trigger default_params window (Some 0%nat) 0 h2
       else h2) /\
    published st' = msg :: [] /\
    waypoints msg = snapshot (base_waypoints st') (window_indices 0 1).
Proof.
  apply (restore_before_profiling default_params
           (set_current_pose (Some (pose_on_axis 0)) (tracking [wp_on_axis 0 5] 0))
           0%nat).
  - reflexivity.
  - exact localised_at_origin.
Defined.

(** *** Two ticks with [stop_on_red] off *)

Lemma at_first_localised :
  next_wpUpdate at_first = (Ok true, set_next_waypoint (Some 0%nat) at_first).
Proof.
  rewrite (next_wpUpdate_unfold _ (wp_on_axis 0 5) [wp_on_axis 10 5] (pose_on_axis 0))
    by reflexivity.
  change (next_waypoint at_first) with (@None nat).
  change (base_waypoints at_first) with two_path.
  cbn [search_start fst snd].
  change (length two_path) with 2%nat. cbn [seq].
  change (pos_x (position (pose_on_axis 0))) with 0.
  change (pos_y (position (pose_on_axis 0))) with 0.
  rewrite (nearest_loop_step _ _ _ _ _ _ _ _ _ _ (wp_on_axis 0 5)) by reflexivity.
  rewrite car_distance_on_axis, (Rabs_right (0 - 0)) by lra.
  destruct (Rlt_dec (0 - 0) 1000000) as [_|Hge]; [|lra].
  rewrite (nearest_loop_step _ _ _ _ _ _ _ _ _ _ (wp_on_axis 10 5)) by reflexivity.
  rewrite car_distance_on_axis, (Rabs_left (0 - 10)) by lra.
  destruct (Rlt_dec (- (0 - 10)) (0 - 0)) as [Hlt|_]; [lra|].
  reflexivity.
Qed.

(** The first tick: the end of the path is in the window at index 1, and
    every waypoint is referred to at or beyond it. *)
Lemma first_tick_heap : tick_heap no_red_params at_first 0 = two_path_stopped.
Proof.
  change (tick_heap no_red_params at_first 0)
    with (snd (deaccel no_red_params (window_indices 0 2) 1 0 two_path)).
  assert (Hlen : length (window_indices 0 2) = 100%nat) by apply window_indices_length.
  rewrite deaccel_spec; [|lia|lia|apply Rmax_r]. cbn [snd].
  set (step := step_of two_path (window_indices 0 2) 1).
  change (profiled no_red_params (window_indices 0 2) 1 0 step
            (rev (seq 0 (length (window_indices 0 2)))) two_path)
    with [with_linear_x (wp_on_axis 0 5)
            (lowest no_red_params (window_indices 0 2) 1 0 step
               (rev (seq 0 (length (window_indices 0 2)))) 0 5);
          with_linear_x (wp_on_axis 10 5)
            (lowest no_red_params (window_indices 0 2) 1 0 step
               (rev (seq 0 (length (window_indices 0 2)))) 1 5)].
  assert (H2 : (2 < length (window_indices 0 2))%nat) by lia.
  assert (H1 : (1 < length (window_indices 0 2))%nat) by lia.
  rewrite (lowest_beyond _ (window_indices 0 2) _ _ _ _ 0%nat 5 2%nat
             (in_rev_seq 2 _ H2) eq_refl) by lia.
  rewrite (lowest_beyond _ (window_indices 0 2) _ _ _ _ 1%nat 5 1%nat
             (in_rev_seq 1 _ H1) eq_refl) by lia.
  rewrite (Rmin_right 5 0) by lra. reflexivity.
Qed.

Lemma at_second_heap :
  base_waypoints at_second = two_path_stopped /\
  original_wpvel at_second = [5; 5] /\
  next_waypoint at_second = Some 0%nat /\
  current_pose at_second = Some (pose_on_axis 10) /\
  redlight_wp at_second = None.
Proof.
  unfold at_second. cbn [handle].
  rewrite (updatePublish_spec no_red_params at_first 0 eq_refl at_first_localised).
  rewrite first_tick_heap. repeat split; reflexivity.
Qed.

Lemma at_second_localised :
  next_wpUpdate at_second = (Ok true, set_next_waypoint (Some 1%nat) at_second).
Proof.
  destruct at_second_heap as (Hb & Ho & Hn & Hp & _).
  rewrite (next_wpUpdate_unfold _ (wp_on_axis 0 0) [wp_on_axis 10 0] (pose_on_axis 10))
    by assumption.
  rewrite Hn, Hb. cbn [search_start fst snd].
  change (length two_path_stopped) with 2%nat. cbn [seq].
  change (pos_x (position (pose_on_axis 10))) with 10.
  change (pos_y (position (pose_on_axis 10))) with 0.
  rewrite (nearest_loop_step _ _ _ _ _ _ _ _ _ _ (wp_on_axis 0 0)) by reflexivity.
  rewrite car_distance_on_axis, (Rabs_right (10 - 0)) by lra.
  destruct (Rlt_dec (10 - 0) 1000000) as [_|Hge]; [|lra].
  rewrite (nearest_loop_step _ _ _ _ _ _ _ _ _ _ (wp_on_axis 10 0)) by reflexivity.
  rewrite car_distance_on_axis, (Rabs_right (10 - 10)) by lra.
  destruct (Rlt_dec (10 - 10) (10 - 0)) as [_|Hge]; [|lra].
  reflexivity.
Qed.

(** The second tick profiles nothing: the end of the path is at window
    index 0 and no stop is requested. *)
Lemma second_tick_heap : tick_heap no_red_params at_second 1 = two_path_stopped.
Proof.
  destruct at_second_heap as (Hb & Ho & _).
  unfold tick_heap. rewrite Hb, Ho. reflexivity.
Qed.

(** C2 as stated fails: with [stop_on_red] off the window is not
    restored.  The first tick stops the two waypoints for the end of the
    path; the second tick, with the car at the second waypoint, applies
    no profile (stop index 0, no stop request), finds the velocities 0
    of the first tick in the heap, baseline 5, and publishes them. *)
Lemma stale_velocities_without_stop_on_red :
  exists before st msg rest,
    before = run no_red_params
               [BaseWaypointsMsg two_path; PoseMsg (pose_on_axis 0); Tick;
                PoseMsg (pose_on_axis 10)] init /\
    st = run no_red_params
           [BaseWaypointsMsg two_path; PoseMsg (pose_on_axis 0); Tick;
            PoseMsg (pose_on_axis 10); Tick] init /\
    updatePublish no_red_params before = (Ok tt, st) /\
    original_wpvel before = [5; 5] /\
    map linear_x (base_waypoints before) = [0; 0] /\
    published st = msg :: rest /\
    map linear_x (waypoints msg) = repeat 0 100.
Proof.
  destruct at_second_heap as (Hb & Ho & _).
  pose proof (updatePublish_spec no_red_params at_second 1
                (eq_trans (f_equal length Ho) (eq_sym (f_equal length Hb)))
                at_second_localised) as Htick.
  rewrite second_tick_heap, Hb in Htick.
  exists at_second. eexists. eexists. eexists.
  split; [reflexivity|]. split.
  { change (run no_red_params
              [BaseWaypointsMsg two_path; PoseMsg (pose_on_axis 0); Tick;
               PoseMsg (pose_on_axis 10); Tick] init)
      with (snd (updatePublish no_red_params at_second)).
    rewrite Htick. reflexivity. }
  split; [exact Htick|]. split; [exact Ho|]. split; [rewrite Hb; reflexivity|].
  split; reflexivity.
Qed.

(** ** Further properties *)

(** The upstream trigger, [deaccel(final_waypoints, red_idx,
    self.stop_distance)], on a window that refers to no waypoint twice:
    the waypoint at window index [i] before the stop line, at walked
    distance [d = (S - i) * step], ends at the least of its velocity and
    [sqrt (2 |a| (d - D))] when [d > D], 0 otherwise. *)
Theorem deaccel_upstream_profile self waypoints stop_index h i r w :
  NoDup waypoints ->
  (stop_index < length waypoints)%nat ->
  (i < stop_index)%nat ->
  waypoints !! i = Some r ->
  h !! r = Some w ->
  exists h',
    deaccel self waypoints stop_index (stop_distance self) h = (Ok tt, h') /\
    h' !! r =
    Some (with_linear_x w
            (Rmin (linear_x w)
               (if Rlt_dec (stop_distance self)
                     (INR (stop_index - i) * step_of h waypoints stop_index)
                then sqrt (2 * Rabs (accel self)
                           * (INR (stop_index - i) * step_of h waypoints stop_index
                              - stop_distance self))
                else 0))).
Proof.
  intros Hnd HS Hi Hr Hw.
  rewrite deaccel_spec; [|lia|exact HS|apply Rmax_l].
  eexists. split; [reflexivity|].
  rewrite profiled_lookup, Hw. simpl. do 2 f_equal.
  rewrite (lowest_NoDup _ _ _ _ _ _ _ _ i Hnd); [| |exact Hr].
  - rewrite allowed_before by exact Hi. reflexivity.
  - apply in_rev_seq. eapply lookup_lt_Some. exact Hr.
Qed.

Lemma deaccel_upstream_profile_witness :
  exists h',
    deaccel scenario_params [0; 1; 2; 3]%nat 2 (stop_distance scenario_params)
      scenario_path = (Ok tt, h') /\
    h' !! 0%nat =
    Some (with_linear_x (wp_on_axis 0 5)
            (Rmin (linear_x (wp_on_axis 0 5))
               (if Rlt_dec (stop_distance scenario_params)
                     (INR (2 - 0) * step_of scenario_path [0; 1; 2; 3]%nat 2)
                then sqrt (2 * Rabs (accel scenario_params)
                           * (INR (2 - 0) * step_of scenario_path [0; 1; 2; 3]%nat 2
                              - stop_distance scenario_params))
                else 0))).
Proof.
  apply (deaccel_upstream_profile scenario_params [0; 1; 2; 3]%nat 2
           scenario_path 0 0 (wp_on_axis 0 5)).
  - apply NoDup_ListNoDup. repeat constructor; simpl; lia.
  - simpl. lia.
  - lia.
  - reflexivity.
  - reflexivity.
Defined.

Lemma nearest_loop_ok base x y off todo wp dist fs :
  (0 < length base)%nat ->
  exists r, nearest_loop base x y off (length base) todo wp dist fs = Ok r.
Proof.
  intros HL. revert wp dist fs.
  induction todo as [|i todo IH]; intros wp dist fs; [simpl; eauto|].
  destruct (lookup_lt_is_Some_2 base ((i + off) mod length base)%nat) as [w Hw].
  { apply Nat.mod_upper_bound. lia. }
  rewrite (nearest_loop_step _ _ _ _ _ _ _ _ _ _ w Hw).
  destruct (Rlt_dec _ dist); [apply IH|].
  destruct fs; simpl; [apply IH|].
  destruct (Rlt_dec dist max_local_dist); [eauto|apply IH].
Qed.

Lemma next_wpUpdate_total st :
  next_wpUpdate st = (Ok false, st) \/
  exists start, next_wpUpdate st = (Ok true, set_next_waypoint (Some start) st).
Proof.
  destruct (base_waypoints st) as [|w l] eqn:Hb.
  { left. unfold next_wpUpdate, bind, get_state. rewrite Hb. reflexivity. }
  destruct (current_pose st) as [p|] eqn:Hp.
  2:{ left. unfold next_wpUpdate, bind, get_state. rewrite Hb, Hp. reflexivity. }
  rewrite (next_wpUpdate_unfold st w l p Hb Hp).
  destruct (nearest_loop_ok (base_waypoints st) (pos_x (position p))
              (pos_y (position p)) (fst (search_start (next_waypoint st)))
              (seq 0 (length (base_waypoints st))) None 1000000
              (snd (search_start (next_waypoint st)))) as [r Hr].
  { rewrite Hb. simpl. lia. }
  rewrite Hr. destruct r as [i|]; [right; eauto|left; reflexivity].
Qed.

(** In every state the node reaches, a planning tick returns: it is
    skipped when the car is not localised and publishes otherwise; no
    exception leaves [updatePublish]. *)
Theorem planning_tick_never_raises (self : Params) (evs : list Event) :
  fst (updatePublish self (run self evs init)) = Ok tt.
Proof.
  assert (HInv : Inv (run self evs init)).
  { apply run_Inv. apply Forall2_nil_2. }
  set (st := run self evs init) in *.
  assert (Hlen : length (original_wpvel st) = length (base_waypoints st)).
  { symmetry. eapply Forall2_length. exact HInv. }
  destruct (next_wpUpdate_total st) as [Hno|[start Hyes]].
  - unfold updatePublish, bind. rewrite Hno. reflexivity.
  - rewrite (updatePublish_spec self st start Hlen Hyes). reflexivity.
Qed.

(** * The waypoint updater: reachable states, localisation and ticks *)

(** ** The handlers, case by case *)

Lemma updatePublish_cases self st :
  length (original_wpvel st) = length (base_waypoints st) ->
  (next_wpUpdate st = (Ok false, st) /\ updatePublish self st = (Ok tt, st)) \/
  exists start,
    (start < length (base_waypoints st))%nat /\
    next_wpUpdate st = (Ok true, set_next_waypoint (Some start) st) /\
    updatePublish self st = (Ok tt, after_tick self st start).
Proof.
  intros Hlen. destruct (next_wpUpdate_total st) as [Hno|[start Hyes]].
  - left. split; [exact Hno|]. unfold updatePublish, bind. rewrite Hno. reflexivity.
  - right. exists start.
    destruct (next_wpUpdate_found _ _ Hyes) as (s' & Heq & Hlt).
    apply (f_equal next_waypoint) in Heq. simpl in Heq. injection Heq as <-.
    split; [exact Hlt|]. split; [exact Hyes|].
    apply updatePublish_spec; assumption.
Qed.

Lemma waypoints_cb_cases self msg_waypoints st :
  (forall n, next_waypoint st = Some n -> (n < length (base_waypoints st))%nat) ->
  waypoints_cb self msg_waypoints st = (Raise IndexError, st) \/
  exists st1,
    ((st1 = st /\
      forall n, next_waypoint st = Some n -> (n < length msg_waypoints)%nat)
     \/ st1 = logwarn "Base waypoint list changed" (set_next_waypoint None st)) /\
    waypoints_cb self msg_waypoints st = (Ok tt, loaded self msg_waypoints st1).
Proof.
  intros Hn. unfold waypoints_cb, loaded, bind, get_state.
  destruct (base_waypoints st) as [|w l] eqn:Hb.
  { right. exists st. split.
    - left. split; [reflexivity|]. intros n H. specialize (Hn n H). simpl in Hn. lia.
    - unfold ret, put_state. destruct (unsubscribe_base_wp self); reflexivity. }
  destruct (next_waypoint st) as [n|] eqn:Hnext.
  2:{ right. exists st. split.
      - left. split; [reflexivity|]. intros n H. discriminate.
      - unfold ret, put_state. destruct (unsubscribe_base_wp self); reflexivity. }
  unfold py_getitem.
  destruct ((w :: l) !! n) as [old|] eqn:Hold.
  2:{ apply lookup_ge_None_1 in Hold. specialize (Hn n eq_refl). lia. }
  destruct (msg_waypoints !! n) as [new|] eqn:Hnew; [|left; reflexivity].
  right. unfold ret, put_state. cbv beta iota.
  destruct (sameWP old new (1 / 2) (1 / 2)); cbn [negb].
  - exists st. split.
    + left. split; [reflexivity|]. intros n' H. injection H as <-.
      eapply lookup_lt_Some. exact Hnew.
    + destruct (unsubscribe_base_wp self); reflexivity.
  - eexists. split; [right; reflexivity|].
    destruct (unsubscribe_base_wp self); reflexivity.
Qed.

Lemma traffic_cb_unfold self msg_data st :
  traffic_cb self msg_data st =
  if bool_decide (redlight_wp st = light_of msg_data)
  then (Ok tt, set_redlight_wp (light_of msg_data) st)
  else updatePublish self (set_redlight_wp (light_of msg_data) st).
Proof.
  unfold traffic_cb, bind, get_state, put_state, light_of.
  destruct (bool_decide _); reflexivity.
Qed.

Lemma length_after_tick self st start :
  length (base_waypoints (after_tick self st start)) = length (base_waypoints st).
Proof. simpl. apply length_tick_heap. Qed.

(** An induction principle over the states the node reaches: a property
    kept by every state change the handlers make is kept by every run. *)
Section Reachable.
Variable self : Params.
Variable P : State -> Prop.

Hypothesis P_pose : forall st p, P st -> P (set_current_pose (Some p) st).
Hypothesis P_light : forall st r, P st -> P (set_redlight_wp r st).
Hypothesis P_tick : forall st start,
  consistent st -> P st ->
  next_wpUpdate st = (Ok true, set_next_waypoint (Some start) st) ->
  (start < length (base_waypoints st))%nat ->
  P (after_tick self st start).
Hypothesis P_load : forall st msg_waypoints st1,
  consistent st -> P st ->
  (st1 = st /\ (forall n, next_waypoint st = Some n -> (n < length msg_waypoints)%nat)
   \/ st1 = logwarn "Base waypoint list changed" (set_next_waypoint None st)) ->
  P (loaded self msg_waypoints st1).

Lemma updatePublish_keeps st :
  consistent st -> P st -> P (snd (updatePublish self st)).
Proof.
  intros HC HP. destruct (updatePublish_cases self st (proj1 HC))
    as [[_ ->]|(start & Hlt & Hnext & ->)]; [exact HP|].
  apply P_tick; assumption.
Qed.

Lemma handle_keeps ev st : consistent st -> P st -> P (snd (handle self ev st)).
Proof.
  intros HC HP. destruct ev as [p|w|d|]; cbn [handle].
  - apply P_pose. exact HP.
  - destruct (waypoints_cb_cases self w st (proj2 HC)) as [->|(st1 & H1 & ->)];
      [exact HP|].
    apply P_load with (st := st); assumption.
  - rewrite traffic_cb_unfold. destruct (bool_decide _); [apply P_light; exact HP|].
    apply updatePublish_keeps; [exact HC|apply P_light; exact HP].
  - apply updatePublish_keeps; assumption.
Qed.

End Reachable.

Lemma consistent_init : consistent init.
Proof. split; [reflexivity|]. intros n H. discriminate. Qed.

Lemma handle_consistent self ev st : consistent st -> consistent (snd (handle self ev st)).
Proof.
  intros HC. apply (handle_keeps self consistent); try assumption.
  - intros s p H. exact H.
  - intros s r H. exact H.
  - intros s start [Hlen _] _ _ Hlt. split.
    + cbn [after_tick send set_base_waypoints set_next_waypoint original_wpvel base_waypoints].
      rewrite length_tick_heap. exact Hlen.
    + intros n Hn. rewrite length_after_tick. simpl in Hn. injection Hn as <-. exact Hlt.
  - intros s msg s1 _ _ H1.
    assert (Hgoal : consistent (set_base_waypoints msg
                       (set_original_wpvel (map linear_x msg) s1))).
    { split; [simpl; apply length_map|]. simpl. intros n Hn.
      destruct H1 as [[-> H1]| ->]; [auto|discriminate]. }
    unfold loaded. destruct (unsubscribe_base_wp self); exact Hgoal.
Qed.

Lemma run_app self evs1 evs2 st :
  run self (evs1 ++ evs2) st = run self evs2 (run self evs1 st).
Proof. unfold run. apply fold_left_app. Qed.

Lemma run_consistent self evs st : consistent st -> consistent (run self evs st).
Proof.
  revert st. induction evs as [|ev evs IH]; intros st H; [exact H|].
  simpl. apply IH. apply handle_consistent. exact H.
Qed.

Lemma run_keeps self (P : State -> Prop) evs st :
  (forall ev s, consistent s -> P s -> P (snd (handle self ev s))) ->
  consistent st -> P st -> P (run self evs st).
Proof.
  intros Hstep. revert st. induction evs as [|ev evs IH]; intros st HC HP; [exact HP|].
  simpl. apply IH; [apply handle_consistent; exact HC|apply Hstep; assumption].
Qed.

(** ** What every reachable state satisfies *)

(** In every state the node reaches, the baseline has one entry per
    waypoint of the path and the tracked index, when there is one, is an
    index of the path: [self.base_waypoints[self.next_waypoint]] cannot
    fail. *)
Theorem tracked_index_in_range (self : Params) (evs : list Event) :
  length (original_wpvel (run self evs init)) =
  length (base_waypoints (run self evs init)) /\
  forall n, next_waypoint (run self evs init) = Some n ->
    exists w, base_waypoints (run self evs init) !! n = Some w.
Proof.
  destruct (run_consistent self evs init consistent_init) as [Hlen Hn].
  split; [exact Hlen|]. intros n H. apply lookup_lt_is_Some_2. auto.
Qed.

Lemma published_after_tick self st start :
  published (after_tick self st start) = tick_message self st start :: published st.
Proof. reflexivity. Qed.

Lemma length_tick_window self st start :
  length (waypoints (tick_message self st start)) = LOOKAHEAD_WPS.
Proof.
  cbn [tick_message waypoints]. unfold snapshot.
  rewrite length_map. apply window_indices_length.
Qed.

Lemma published_loaded self msg st1 : published (loaded self msg st1) = published st1.
Proof. unfold loaded. destruct (unsubscribe_base_wp self); reflexivity. Qed.

Lemma msg_seq_loaded self msg st1 : msg_seq (loaded self msg st1) = msg_seq st1.
Proof. unfold loaded. destruct (unsubscribe_base_wp self); reflexivity. Qed.

(** The messages the node has published, oldest first, are numbered 0,
    1, 2, ... in their headers, [self.msg_seq] is their count, and each
    carries the frame [/world] and exactly [LOOKAHEAD_WPS] = 100
    waypoints. *)
Theorem published_stream_is_numbered (self : Params) (evs : list Event) :
  msg_seq (run self evs init) = length (published (run self evs init)) /\
  map seq_no (rev (published (run self evs init))) =
    seq 0 (length (published (run self evs init))) /\
  Forall (fun msg => frame_id msg = "/world"%string /\
                     length (waypoints msg) = 100%nat)
    (published (run self evs init)).
Proof.
  apply (run_keeps self (fun st =>
    msg_seq st = length (published st) /\
    map seq_no (rev (published st)) = seq 0 (length (published st)) /\
    Forall (fun msg => frame_id msg = "/world"%string /\
                       length (waypoints msg) = 100%nat) (published st)));
    [|exact consistent_init|repeat split; constructor].
  intros ev st HC HP. apply (handle_keeps self); try assumption.
  - intros s p H. exact H.
  - intros s r H. exact H.
  - intros s start _ (Hseq & Hnum & Hall) _ _.
    rewrite published_after_tick. split; [|split].
    + simpl. rewrite Hseq. lia.
    + cbn [rev length]. rewrite map_app, Hnum, seq_S. simpl. rewrite Hseq. reflexivity.
    + constructor; [|exact Hall]. split; [reflexivity|apply length_tick_window].
  - intros s msg s1 _ H H1. rewrite published_loaded, msg_seq_loaded.
    destruct H1 as [[-> _]| ->]; exact H.
Qed.

(** *** Nothing is published before a pose and a path have arrived *)

Lemma next_wpUpdate_without_pose st :
  current_pose st = None -> next_wpUpdate st = (Ok false, st).
Proof.
  intros H. unfold next_wpUpdate, bind, get_state. rewrite H.
  destruct (base_waypoints st); reflexivity.
Qed.

Lemma next_wpUpdate_without_path st :
  base_waypoints st = [] -> next_wpUpdate st = (Ok false, st).
Proof. intros H. unfold next_wpUpdate, bind, get_state. rewrite H. reflexivity. Qed.

Lemma updatePublish_not_localised self st :
  next_wpUpdate st = (Ok false, st) -> updatePublish self st = (Ok tt, st).
Proof. intros H. unfold updatePublish, bind. rewrite H. reflexivity. Qed.

Lemma current_pose_loaded self msg st1 : current_pose (loaded self msg st1) = current_pose st1.
Proof. unfold loaded. destruct (unsubscribe_base_wp self); reflexivity. Qed.

Lemma base_waypoints_loaded self msg st1 : base_waypoints (loaded self msg st1) = msg.
Proof. unfold loaded. destruct (unsubscribe_base_wp self); reflexivity. Qed.

Lemma original_wpvel_loaded self msg st1 :
  original_wpvel (loaded self msg st1) = map linear_x msg.
Proof. unfold loaded. destruct (unsubscribe_base_wp self); reflexivity. Qed.

Lemma handle_without_pose self ev st :
  consistent st ->
  (forall p, ev <> PoseMsg p) ->
  current_pose st = None /\ published st = [] ->
  current_pose (snd (handle self ev st)) = None /\
  published (snd (handle self ev st)) = [].
Proof.
  intros HC Hev [Hp Hpub]. destruct ev as [p|w|d|]; cbn [handle].
  - destruct (Hev p eq_refl).
  - destruct (waypoints_cb_cases self w st (proj2 HC)) as [->|(st1 & H1 & ->)];
      [auto|].
    cbn [snd]. rewrite current_pose_loaded, published_loaded.
    destruct H1 as [[-> _]| ->]; auto.
  - rewrite traffic_cb_unfold. destruct (bool_decide _); [auto|].
    rewrite updatePublish_not_localised
      by (apply next_wpUpdate_without_pose; exact Hp). auto.
  - rewrite updatePublish_not_localised
      by (apply next_wpUpdate_without_pose; exact Hp). auto.
Qed.

Lemma handle_without_path self ev st :
  consistent st ->
  (forall w, ev = BaseWaypointsMsg w -> w = []) ->
  base_waypoints st = [] /\ published st = [] ->
  base_waypoints (snd (handle self ev st)) = [] /\
  published (snd (handle self ev st)) = [].
Proof.
  intros HC Hev [Hb Hpub]. destruct ev as [p|w|d|]; cbn [handle].
  - auto.
  - destruct (waypoints_cb_cases self w st (proj2 HC)) as [->|(st1 & H1 & ->)];
      [auto|].
    cbn [snd]. rewrite base_waypoints_loaded, published_loaded. split; [auto|].
    destruct H1 as [[-> _]| ->]; auto.
  - rewrite traffic_cb_unfold. destruct (bool_decide _); [auto|].
    rewrite updatePublish_not_localised
      by (apply next_wpUpdate_without_path; exact Hb). auto.
  - rewrite updatePublish_not_localised
      by (apply next_wpUpdate_without_path; exact Hb). auto.
Qed.

(** As long as no pose has arrived, or no path with a waypoint in it,
    the node publishes nothing, whatever else arrives and however often
    it ticks. *)
Theorem nothing_published_before_pose_and_path (self : Params) (evs : list Event) :
  Forall (fun ev => forall p, ev <> PoseMsg p) evs \/
  Forall (fun ev => forall w, ev = BaseWaypointsMsg w -> w = []) evs ->
  published (run self evs init) = [].
Proof.
  intros [H|H].
  - enough (Hgen : forall st, consistent st ->
              current_pose st = None /\ published st = [] ->
              current_pose (run self evs st) = None /\ published (run self evs st) = [])
      by (apply (Hgen init consistent_init); split; reflexivity).
    induction H as [|ev evs Hev _ IH]; intros st HC HP; [exact HP|].
    simpl. apply IH; [apply handle_consistent; exact HC|].
    apply handle_without_pose; assumption.
  - enough (Hgen : forall st, consistent st ->
              base_waypoints st = [] /\ published st = [] ->
              base_waypoints (run self evs st) = [] /\ published (run self evs st) = [])
      by (apply (Hgen init consistent_init); split; reflexivity).
    induction H as [|ev evs Hev _ IH]; intros st HC HP; [exact HP|].
    simpl. apply IH; [apply handle_consistent; exact HC|].
    apply handle_without_path; assumption.
Qed.

Lemma nothing_published_before_pose_and_path_witness :
  published (run default_params
               [BaseWaypointsMsg [wp_on_axis 0 5]; TrafficMsg 0; Tick] init) = [].
Proof.
  apply nothing_published_before_pose_and_path. left.
  repeat constructor; discriminate.
Defined.

(** *** Velocities are never driven below standstill *)

Lemma floored_refl h : floored h h.
Proof.
  apply Forall2_same_length_lookup. split; [reflexivity|].
  intros i x y Hx Hy. simplify_eq. apply Rmin_l.
Qed.

Lemma floored_assign h0 h r w v :
  floored h0 h -> 0 <= v -> floored h0 (<[r := with_linear_x w v]> h).
Proof.
  unfold floored. intros Hb Hv.
  apply Forall2_same_length_lookup in Hb as [Hlen Hb].
  apply Forall2_same_length_lookup. split.
  - rewrite length_insert. exact Hlen.
  - intros i x y Hx Hy. destruct (decide (r = i)) as [->|Hne].
    + rewrite list_lookup_insert_eq in Hy by (rewrite <- Hlen; eapply lookup_lt_Some; eauto).
      injection Hy as <-. simpl. pose proof (Rmin_r (linear_x x) 0). lra.
    + rewrite list_lookup_insert_ne in Hy by exact Hne. eauto.
Qed.

Lemma deaccel_body_floored self waypoints stop_index sd step idx vel d h0 h :
  floored h0 h -> 0 <= vel ->
  wp (deaccel_body self waypoints stop_index sd step idx (vel, d))
     (fun r h' => floored h0 h' /\
                  match r with Ok (vel', _) => 0 <= vel' | Raise _ => True end) h.
Proof.
  intros Hb Hv. unfold deaccel_body. run_step.
  pose proof (sqrt_pos (2 * Rabs (accel self) * (d + step - sd))) as Hs.
  repeat case_match; simplify_eq/=; auto using floored_assign.
Qed.

Lemma deaccel_floored self waypoints stop_index sd h :
  floored h (snd (deaccel self waypoints stop_index sd h)).
Proof.
  change (wp (deaccel self waypoints stop_index sd) (fun _ h' => floored h h') h).
  pose proof (floored_refl h) as Hb. revert Hb. generalize h at 1 3 as h0.
  intros h0 Hb.
  unfold deaccel. destruct (stop_index <=? 0)%nat; [exact Hb|].
  apply wp_bind. apply read_only_wp; [apply distance_read_only|].
  intros [dist|e]; [|exact Hb].
  apply wp_bind.
  eapply wp_mono;
    [|apply (wp_for_fold (fun _ acc h' => floored h0 h' /\ 0 <= fst acc)
                         (fun _ h' => floored h0 h'))].
  - intros [a|e] h'; [intros [H _]; exact H|auto].
  - split; [exact Hb|simpl; lra].
  - intros x rest [vel d] h1 [H1 Hv]. simpl in Hv.
    eapply wp_mono; [|apply deaccel_body_floored; eassumption].
    intros [[vel' d']|e] h'; simpl; tauto.
Qed.

(** Whatever the window, the stop index and the standoff, and also when
    it raises, [deaccel] leaves every waypoint of the path at a velocity
    between the least of its former velocity and 0, and its former
    velocity: it never speeds a waypoint up and never writes a negative
    velocity. *)
Theorem deaccel_keeps_velocity_in_range
    (self : Params) (waypoints : list nat) (stop_index : nat) (D : R) (h : Heap) :
  Forall2 (fun w w' => pose w' = pose w /\
                       Rmin (linear_x w) 0 <= linear_x w' <= linear_x w)
    h (snd (deaccel self waypoints stop_index D h)).
Proof.
  pose proof (deaccel_lowers self waypoints stop_index D h) as Hl.
  pose proof (deaccel_floored self waypoints stop_index D h) as Hf.
  apply Forall2_same_length_lookup in Hl as [Hlen Hl].
  apply Forall2_same_length_lookup in Hf as [_ Hf].
  apply Forall2_same_length_lookup. split; [exact Hlen|].
  intros i x y Hx Hy. destruct (Hl _ _ _ Hx Hy) as [Hp Hle].
  specialize (Hf _ _ _ Hx Hy). simpl in Hf. repeat split; assumption.
Qed.

Lemma vel_floor_floored h h' orig : vel_floor h orig -> floored h h' -> vel_floor h' orig.
Proof.
  unfold vel_floor, floored. intros Hb Hf.
  apply Forall2_same_length_lookup in Hb as [Hlen Hb].
  apply Forall2_same_length_lookup in Hf as [Hlen' Hf].
  apply Forall2_same_length_lookup. split; [congruence|].
  intros i x y Hx Hy.
  destruct (lookup_lt_is_Some_2 h i) as [w Hw].
  { rewrite Hlen'. eapply lookup_lt_Some; eauto. }
  specialize (Hf _ _ _ Hw Hx). specialize (Hb _ _ _ Hw Hy). simpl in *.
  pose proof (Rmin_r y 0).
  apply Rle_trans with (Rmin (linear_x w) 0); [|exact Hf].
  apply Rmin_glb; lra.
Qed.

Lemma vel_floor_trigger self window target D h orig :
  vel_floor h orig -> vel_floor (trigger self window target D h) orig.
Proof.
  intros H. unfold trigger. destruct target as [v|]; [|exact H].
  destruct (list_index v window); [|exact H].
  eapply vel_floor_floored; [exact H|apply deaccel_floored].
Qed.

Lemma vel_floor_restored orig indexes h :
  vel_floor h orig -> vel_floor (restored orig indexes h) orig.
Proof.
  unfold vel_floor. intros Hb.
  apply Forall2_same_length_lookup in Hb as [Hlen Hb].
  apply Forall2_same_length_lookup. split; [rewrite length_restored; exact Hlen|].
  intros i x y Hx Hy. unfold restored in Hx. rewrite list_lookup_imap in Hx.
  destruct (h !! i) as [w|] eqn:Hw; [|discriminate]. simpl in Hx.
  destruct (decide (i ∈ indexes)); simplify_eq/=.
  - rewrite Hy. simpl. apply Rmin_l.
  - eauto.
Qed.

Lemma vel_floor_tick_heap self st start :
  vel_floor (base_waypoints st) (original_wpvel st) ->
  vel_floor (tick_heap self st start) (original_wpvel st).
Proof.
  intros H. unfold tick_heap.
  assert (H1 : vel_floor
                 (if stop_on_red self
                  then trigger self (window_indices start (length (base_waypoints st)))
                         (redlight_wp st) (stop_distance self)
                         (restored (original_wpvel st)
                            (window_indices start (length (base_waypoints st)))
                            (base_waypoints st))
                  else base_waypoints st) (original_wpvel st)).
  { destruct (stop_on_red self); [|exact H].
    apply vel_floor_trigger, vel_floor_restored. exact H. }
  destruct (stop_at_end self (original_wpvel st)); [|exact H1].
  apply vel_floor_trigger. exact H1.
Qed.

(** In every state the node reaches, every waypoint's velocity is at
    least the least of its baseline and 0: a waypoint whose baseline is
    not negative is never given a negative velocity. *)
Theorem velocity_never_below_standstill (self : Params) (evs : list Event) :
  Forall2 (fun w b => Rmin b 0 <= linear_x w)
    (base_waypoints (run self evs init)) (original_wpvel (run self evs init)).
Proof.
  apply (run_keeps self (fun st => vel_floor (base_waypoints st) (original_wpvel st)));
    [|exact consistent_init|constructor].
  intros ev st HC HP.
  apply (handle_keeps self
           (fun st => vel_floor (base_waypoints st) (original_wpvel st)));
    try assumption.
  - intros s p H. exact H.
  - intros s r H. exact H.
  - intros s start _ H _ _.
    change (vel_floor (tick_heap self s start) (original_wpvel s)).
    apply vel_floor_tick_heap. exact H.
  - intros s msg s1 _ _ _.
    rewrite base_waypoints_loaded, original_wpvel_loaded.
    apply Forall2_same_length_lookup. split; [by rewrite length_map|].
    intros i x y Hx Hy. rewrite list_lookup_fmap, Hx in Hy. simplify_eq/=. apply Rmin_l.
Qed.

(** ** The scan from a previous index *)

Lemma cyclic_cover off L t :
  (t < L)%nat -> exists i, (i < L)%nat /\ ((i + off) mod L = t)%nat.
Proof.
  intros Ht. exists ((t + (L - off mod L)) mod L)%nat.
  split; [apply Nat.mod_upper_bound; lia|].
  rewrite Nat.Div0.add_mod_idemp_l.
  pose proof (Nat.div_mod_eq off L) as Hq.
  pose proof (Nat.mod_upper_bound off L ltac:(lia)) as Hr.
  replace (t + (L - off mod L) + off)%nat with (t + (1 + off / L) * L)%nat by nia.
  rewrite Nat.Div0.mod_add. apply Nat.mod_small. exact Ht.
Qed.

Lemma seq_cons j L : (j < L)%nat -> seq j (L - j) = j :: seq (S j) (L - S j).
Proof. intros H. replace (L - j)%nat with (S (L - S j)) by lia. reflexivity. Qed.

Lemma ahead_lookup base x y off i w :
  base !! ((i + off) mod length base)%nat = Some w ->
  car_distance x y w = ahead base x y off i.
Proof. intros H. unfold ahead. rewrite H. reflexivity. Qed.

Lemma nearest_loop_sound base x y off n k wp dist fs r :
  (k + n = length base)%nat ->
  scan_state base x y off k wp dist fs ->
  nearest_loop base x y off (length base) (seq k n) wp dist fs = Ok (Some r) ->
  acceptable base x y r.
Proof.
  revert k wp dist fs. induction n as [|n IH]; intros k wp dist fs Hk Hs Hr.
  - simpl in Hr. injection Hr as ->. simpl in Hs.
    destruct Hs as (Hlt & j & Hj & -> & Hd & Hall & _).
    destruct (lookup_lt_is_Some_2 base ((j + off) mod length base)%nat) as [wr Hwr].
    { apply Nat.mod_upper_bound. lia. }
    exists wr. split; [exact Hwr|].
    rewrite (ahead_lookup _ x y _ _ _ Hwr). rewrite <- Hd.
    split; [exact Hlt|]. left. intros t wt Ht.
    destruct (cyclic_cover off (length base) t) as (i & Hi & Hit).
    { eapply lookup_lt_Some. exact Ht. }
    rewrite <- Hit in Ht. rewrite (ahead_lookup _ x y _ _ _ Ht).
    apply Hall. lia.
  - cbn [seq] in Hr.
    destruct (lookup_lt_is_Some_2 base ((k + off) mod length base)%nat) as [w Hw].
    { apply Nat.mod_upper_bound. lia. }
    rewrite (nearest_loop_step _ _ _ _ _ _ _ _ _ _ w Hw) in Hr.
    rewrite (ahead_lookup _ x y _ _ _ Hw) in Hr.
    assert (Hle : dist <= 1000000).
    { destruct wp; simpl in Hs; [|lra]. lra. }
    destruct (Rlt_dec (ahead base x y off k) dist) as [Hlt|Hge].
    + apply (IH (S k) _ _ _ ltac:(lia)) in Hr; [exact Hr|].
      simpl. split; [lra|]. exists k. split; [lia|]. split; [reflexivity|].
      split; [reflexivity|]. split; [|reflexivity].
      intros j' Hj'. destruct (decide (j' = k)) as [->|Hne]; [lra|].
      assert (Hjk : (j' < k)%nat) by lia.
      destruct wp as [m|]; simpl in Hs.
      * destruct Hs as (_ & j & _ & _ & _ & Hall & _). specialize (Hall _ Hjk). lra.
      * destruct Hs as [_ Hall]. specialize (Hall _ Hjk). lra.
    + assert (Hnext : scan_state base x y off (S k) wp dist true).
      { destruct wp as [m|]; simpl in *.
        - destruct Hs as (Hd & j & Hj & Hm & Hdj & Hall & _).
          split; [exact Hd|]. exists j. split; [lia|]. split; [exact Hm|].
          split; [exact Hdj|]. split; [|discriminate].
          intros j' Hj'. destruct (decide (j' = k)) as [->|Hne]; [lra|].
          apply Hall. lia.
        - destruct Hs as [-> Hall]. split; [reflexivity|].
          intros j' Hj'. destruct (decide (j' = k)) as [->|Hne]; [lra|].
          apply Hall. lia. }
      destruct fs; cbn [negb] in Hr.
      * apply (IH (S k) _ _ _ ltac:(lia) Hnext) in Hr. exact Hr.
      * destruct (Rlt_dec dist max_local_dist) as [Hnear|Hfar].
        2:{ apply (IH (S k) _ _ _ ltac:(lia) Hnext) in Hr. exact Hr. }
        injection Hr as ->. simpl in Hs.
        destruct Hs as (Hd & j & Hj & -> & Hdj & Hall & Hlast).
        specialize (Hlast eq_refl). subst k.
        destruct (lookup_lt_is_Some_2 base ((j + off) mod length base)%nat) as [wr Hwr].
        { apply Nat.mod_upper_bound. lia. }
        exists wr. split; [exact Hwr|].
        rewrite (ahead_lookup _ x y _ _ _ Hwr). rewrite <- Hdj.
        split; [exact Hd|]. right. split; [exact Hnear|].
        exists w. split.
        -- rewrite Nat.Div0.add_mod_idemp_l.
           replace (j + off + 1)%nat with (S j + off)%nat by lia. exact Hw.
        -- rewrite (ahead_lookup _ x y _ _ _ Hw). lra.
Qed.

(** Whenever the Localizer succeeds it has taken a waypoint nearer than
    1000000 that is either a nearest waypoint of the whole path, or
    within [max_local_dist] = 20 of the car with the next waypoint of
    the path, cyclically, not nearer. *)
Theorem localizer_takes_near_or_nearest (st st' : State) :
  next_wpUpdate st = (Ok true, st') ->
  exists p i wi,
    current_pose st = Some p /\
    st' = set_next_waypoint (Some i) st /\
    base_waypoints st !! i = Some wi /\
    car_distance (pos_x (position p)) (pos_y (position p)) wi < 1000000 /\
    ((forall j wj, base_waypoints st !! j = Some wj ->
        car_distance (pos_x (position p)) (pos_y (position p)) wi
        <= car_distance (pos_x (position p)) (pos_y (position p)) wj) \/
     (car_distance (pos_x (position p)) (pos_y (position p)) wi < 20 /\
      exists wn,
        base_waypoints st !! ((i + 1) mod length (base_waypoints st))%nat = Some wn /\
        car_distance (pos_x (position p)) (pos_y (position p)) wi
        <= car_distance (pos_x (position p)) (pos_y (position p)) wn)).
Proof.
  intros H.
  destruct (base_waypoints st) as [|w l] eqn:Hb.
  { rewrite next_wpUpdate_without_path in H by exact Hb. discriminate. }
  destruct (current_pose st) as [p|] eqn:Hp.
  2:{ rewrite next_wpUpdate_without_pose in H by exact Hp. discriminate. }
  rewrite (next_wpUpdate_unfold st w l p Hb Hp) in H. rewrite <- Hb in *.
  destruct (nearest_loop _ _ _ _ _ _ _ _ _) as [[i|]|e] eqn:Hloop; [|discriminate..].
  injection H as <-.
  apply nearest_loop_sound with (k := 0%nat) in Hloop; [|lia|].
  2:{ simpl. split; [reflexivity|]. intros j Hj. lia. }
  destruct Hloop as (wi & Hwi & Hlt & Hcase).
  exists p, i, wi. repeat split; assumption.
Qed.

Lemma nearest_loop_descent base x y off (d : nat -> R) k :
  (forall j w, base !! ((j + off) mod length base)%nat = Some w ->
               car_distance x y w = d j) ->
  (S k < length base)%nat ->
  (forall j, (j < k)%nat -> d (S j) < d j) ->
  d k <= d (S k) ->
  d k < max_local_dist ->
  forall m j, (j + m = k)%nat ->
    nearest_loop base x y off (length base) (seq (S j) (length base - S j))
      (Some ((j + off) mod length base)%nat) (d j) false =
    Ok (Some ((k + off) mod length base)%nat).
Proof.
  intros Hd Hk Hdesc Hmin Hnear. induction m as [|m IH]; intros j Hj.
  - replace j with k by lia. rewrite seq_cons by lia.
    destruct (lookup_lt_is_Some_2 base ((S k + off) mod length base)%nat) as [w Hw].
    { apply Nat.mod_upper_bound. lia. }
    rewrite (nearest_loop_step _ _ _ _ _ _ _ _ _ _ w Hw), (Hd _ _ Hw).
    destruct (Rlt_dec (d (S k)) (d k)) as [Hlt|_]; [lra|].
    cbn [negb]. destruct (Rlt_dec (d k) max_local_dist) as [_|Hge]; [reflexivity|lra].
  - rewrite seq_cons by lia.
    destruct (lookup_lt_is_Some_2 base ((S j + off) mod length base)%nat) as [w Hw].
    { apply Nat.mod_upper_bound. lia. }
    rewrite (nearest_loop_step _ _ _ _ _ _ _ _ _ _ w Hw), (Hd _ _ Hw).
    destruct (Rlt_dec (d (S j)) (d j)) as [_|Hge].
    + apply IH. lia.
    + specialize (Hdesc j ltac:(lia)). lra.
Qed.

(** The scan from a previous index [S n]: when the distances to the car
    fall strictly over the first [k] waypoints from [S n] on, cyclically,
    the next waypoint is not nearer than the [k]-th and the [k]-th is
    within [max_local_dist] = 20, the Localizer takes the [k]-th and
    looks no further, whatever lies on the rest of the path. *)
Theorem incremental_search_takes_first_local_minimum
    (st : State) (p : Pose) (n k : nat) (d : nat -> R) :
  next_waypoint st = Some (S n) ->
  current_pose st = Some p ->
  (forall j w,
     base_waypoints st !! ((j + S n) mod length (base_waypoints st))%nat = Some w ->
     car_distance (pos_x (position p)) (pos_y (position p)) w = d j) ->
  (S k < length (base_waypoints st))%nat ->
  d 0%nat < 1000000 ->
  (forall j, (j < k)%nat -> d (S j) < d j) ->
  d k <= d (S k) ->
  d k < 20 ->
  next_wpUpdate st =
  (Ok true,
   set_next_waypoint (Some ((k + S n) mod length (base_waypoints st))%nat) st).
Proof.
  intros Hn Hp Hd Hk H0 Hdesc Hmin Hnear.
  destruct (base_waypoints st) as [|w l] eqn:Hb; [simpl in Hk; lia|].
  rewrite (next_wpUpdate_unfold st w l p Hb Hp). rewrite <- Hb in *.
  rewrite Hn. cbn [search_start fst snd].
  replace (seq 0 (length (base_waypoints st)))
    with (seq 0 (length (base_waypoints st) - 0)) by (f_equal; lia).
  rewrite seq_cons by lia.
  destruct (lookup_lt_is_Some_2 (base_waypoints st)
              ((0 + S n) mod length (base_waypoints st))%nat) as [w0 Hw0].
  { apply Nat.mod_upper_bound. lia. }
  rewrite (nearest_loop_step _ _ _ _ _ _ _ _ _ _ w0 Hw0), (Hd _ _ Hw0).
  destruct (Rlt_dec (d 0%nat) 1000000) as [_|Hge]; [|lra].
  rewrite (nearest_loop_descent _ _ _ _ d k Hd Hk Hdesc Hmin Hnear k 0%nat eq_refl).
  reflexivity.
Qed.

Lemma nearest_loop_settled base x y off todo m wm fs :
  (0 < length base)%nat ->
  base !! m = Some wm ->
  (forall j wj, base !! j = Some wj -> car_distance x y wm <= car_distance x y wj) ->
  nearest_loop base x y off (length base) todo (Some m) (car_distance x y wm) fs =
  Ok (Some m).
Proof.
  intros HL Hm Hmin. revert fs. induction todo as [|i todo IH]; intros fs; [reflexivity|].
  destruct (lookup_lt_is_Some_2 base ((i + off) mod length base)%nat) as [w Hw].
  { apply Nat.mod_upper_bound. lia. }
  rewrite (nearest_loop_step _ _ _ _ _ _ _ _ _ _ w Hw).
  destruct (Rlt_dec _ _) as [Hlt|_]; [specialize (Hmin _ _ Hw); lra|].
  destruct fs; cbn [negb]; [apply IH|].
  destruct (Rlt_dec _ max_local_dist); [reflexivity|apply IH].
Qed.

Lemma set_next_waypoint_twice n st :
  set_next_waypoint (Some n) (set_next_waypoint (Some n) st) =
  set_next_waypoint (Some n) st.
Proof. reflexivity. Qed.

(** Once the Localizer has taken an index other than 0, running it again
    on the same path and pose takes the same index and changes nothing.
    (At index 0, [if self.next_waypoint:] is false and the next run
    scans the whole path.) *)
Theorem localizer_is_stable (st st' : State) :
  next_wpUpdate st = (Ok true, st') ->
  next_waypoint st' <> Some 0%nat ->
  next_wpUpdate st' = (Ok true, st').
Proof.
  intros H Hnz.
  destruct (base_waypoints st) as [|w l] eqn:Hb.
  { rewrite next_wpUpdate_without_path in H by exact Hb. discriminate. }
  destruct (current_pose st) as [p|] eqn:Hp.
  2:{ rewrite next_wpUpdate_without_pose in H by exact Hp. discriminate. }
  rewrite (next_wpUpdate_unfold st w l p Hb Hp) in H.
  destruct (nearest_loop _ _ _ _ _ _ _ _ _) as [[i|]|e] eqn:Hloop; [|discriminate..].
  injection H as <-.
  apply nearest_loop_sound with (k := 0%nat) in Hloop; [|lia|].
  2:{ simpl. split; [reflexivity|]. intros j Hj. lia. }
  destruct Hloop as (wi & Hwi & Hlt & Hcase).
  destruct i as [|i]; [destruct Hnz; reflexivity|].
  set (st1 := set_next_waypoint (Some (S i)) st).
  assert (Hb1 : base_waypoints st1 = w :: l) by (rewrite <- Hb; reflexivity).
  rewrite (next_wpUpdate_unfold st1 w l p Hb1 Hp).
  change (base_waypoints st1) with (base_waypoints st).
  change (next_waypoint st1) with (Some (S i)). cbn [search_start fst snd].
  pose proof (lookup_lt_Some _ _ _ Hwi) as Hi.
  replace (seq 0 (length (base_waypoints st)))
    with (seq 0 (length (base_waypoints st) - 0)) by (f_equal; lia).
  rewrite seq_cons by lia.
  assert (Hw0 : base_waypoints st
                !! ((0 + S i) mod length (base_waypoints st))%nat = Some wi).
  { rewrite Nat.mod_small by (simpl; lia). exact Hwi. }
  rewrite (nearest_loop_step _ _ _ _ _ _ _ _ _ _ wi Hw0).
  destruct (Rlt_dec _ 1000000) as [_|Hge]; [|lra].
  rewrite (Nat.mod_small (0 + S i)) by (simpl; lia). cbn [Nat.add].
  rewrite seq_cons by lia.
  destruct (lookup_lt_is_Some_2 (base_waypoints st)
              ((1 + S i) mod length (base_waypoints st))%nat) as [wn Hwn].
  { apply Nat.mod_upper_bound. lia. }
  rewrite (nearest_loop_step _ _ _ _ _ _ _ _ _ _ wn Hwn).
  destruct Hcase as [Hmin|(Hnear & wn' & Hwn' & Hle)].
  - destruct (Rlt_dec _ _) as [Hlt'|_]; [specialize (Hmin _ _ Hwn); lra|].
    cbn [negb]. destruct (Rlt_dec _ max_local_dist); [reflexivity|].
    rewrite nearest_loop_settled; [reflexivity|lia|exact Hwi|exact Hmin].
  - replace ((S i + 1) mod length (base_waypoints st))%nat
      with ((1 + S i) mod length (base_waypoints st))%nat in Hwn'
      by (f_equal; lia).
    rewrite Hwn in Hwn'. injection Hwn' as <-.
    destruct (Rlt_dec _ _) as [Hlt'|_]; [lra|].
    cbn [negb]. destruct (Rlt_dec _ max_local_dist) as [_|Hfar]; [reflexivity|].
    contradiction.
Qed.

(** ** The distance along a list of waypoints *)

Lemma dl_same a : dl a a = 0.
Proof.
  unfold dl.
  replace ((pos_x a - pos_x a) ^ 2 + (pos_y a - pos_y a) ^ 2 + (pos_z a - pos_z a) ^ 2)
    with 0 by ring.
  apply sqrt_0.
Qed.

Lemma dl_sym a b : dl a b = dl b a.
Proof. unfold dl. f_equal. ring. Qed.

Lemma distance_in_range h waypoints wp1 wp2 :
  (wp1 < length waypoints)%nat -> (wp2 < length waypoints)%nat ->
  distance waypoints wp1 wp2 h =
  (Ok (path_length h waypoints wp1 (seq wp1 (wp2 + 1 - wp1))), h).
Proof.
  intros H1 H2. unfold distance, bind.
  destruct (distance_loop_spec h waypoints (seq wp1 (wp2 + 1 - wp1)) 0 wp1)
    as [last Hl]; [exact H1| |].
  { apply Forall_forall. intros i Hi. apply elem_of_seq in Hi. lia. }
  rewrite Hl. unfold ret. cbn [fst]. f_equal. f_equal. lra.
Qed.

Lemma path_length_seq_split h waypoints a m n :
  path_length h waypoints a (seq (S a) (m + n)) =
  path_length h waypoints a (seq (S a) m)
  + path_length h waypoints (a + m) (seq (S (a + m)) n).
Proof.
  revert a. induction m as [|m IH]; intros a.
  - rewrite Nat.add_0_r. simpl. lra.
  - cbn [Nat.add seq path_length]. rewrite IH.
    replace (S a + m)%nat with (a + S m)%nat by lia. lra.
Qed.

Lemma path_length_from_self h waypoints a n :
  path_length h waypoints a (seq a (S n)) = path_length h waypoints a (seq (S a) n).
Proof. cbn [seq path_length]. rewrite dl_same. lra. Qed.

(** [distance] adds up along the list: from [a] to [c] it is the
    distance from [a] to [b] plus that from [b] to [c], for indices
    [a <= b <= c] of the list; the waypoints are left as they are. *)
Theorem distance_adds_up (waypoints : list nat) (a b c : nat) (h : Heap) :
  (a <= b)%nat -> (b <= c)%nat -> (c < length waypoints)%nat ->
  exists d1 d2,
    distance waypoints a b h = (Ok d1, h) /\
    distance waypoints b c h = (Ok d2, h) /\
    distance waypoints a c h = (Ok (d1 + d2), h) /\
    0 <= d1 /\ 0 <= d2.
Proof.
  intros Hab Hbc Hc. eexists. eexists.
  split; [apply distance_in_range; lia|].
  split; [apply distance_in_range; lia|].
  split; [|split; apply path_length_nonneg].
  rewrite distance_in_range by lia. f_equal. f_equal.
  replace (c + 1 - a)%nat with (S (c - a)) by lia.
  replace (b + 1 - a)%nat with (S (b - a)) by lia.
  replace (c + 1 - b)%nat with (S (c - b)) by lia.
  rewrite !path_length_from_self.
  replace (c - a)%nat with ((b - a) + (c - b))%nat by lia.
  rewrite path_length_seq_split.
  replace (a + (b - a))%nat with b by lia. reflexivity.
Qed.

Lemma distance_adds_up_witness :
  exists d1 d2,
    distance [0; 1; 2]%nat 0 1 short_path = (Ok d1, short_path) /\
    distance [0; 1; 2]%nat 1 2 short_path = (Ok d2, short_path) /\
    distance [0; 1; 2]%nat 0 2 short_path = (Ok (d1 + d2), short_path) /\
    0 <= d1 /\ 0 <= d2.
Proof. apply distance_adds_up; simpl; lia. Defined.

Lemma get_position_out_of_range waypoints i (h : Heap) :
  (length waypoints <= i)%nat -> get_position waypoints i h = (Raise IndexError, h).
Proof.
  intros H. unfold get_position, bind, py_getitem.
  rewrite (lookup_ge_None_2 waypoints i) by exact H. reflexivity.
Qed.

Lemma get_position_in_range waypoints i (h : Heap) :
  (i < length waypoints)%nat ->
  get_position waypoints i h = (Ok (position_at h waypoints i), h).
Proof.
  intros H. unfold get_position, bind, py_getitem, position_at.
  destruct (lookup_lt_is_Some_2 waypoints i H) as [r Hr]. rewrite Hr. reflexivity.
Qed.

Lemma distance_loop_out_of_range h waypoints n a dist prev :
  (prev <= a)%nat -> (length waypoints <= a + n)%nat ->
  for_fold (seq a (S n)) (dist, prev) (distance_body waypoints) h = (Raise IndexError, h).
Proof.
  revert a dist prev. induction n as [|n IH]; intros a dist prev Hp Hn;
    cbn [seq for_fold]; unfold bind at 1; unfold distance_body at 1;
    unfold bind at 1.
  - destruct (decide (prev < length waypoints)%nat) as [Hprev|Hprev].
    2:{ rewrite get_position_out_of_range by lia. reflexivity. }
    rewrite get_position_in_range by exact Hprev.
    unfold bind at 1. rewrite get_position_out_of_range by lia. reflexivity.
  - destruct (decide (prev < length waypoints)%nat) as [Hprev|Hprev].
    2:{ rewrite get_position_out_of_range by lia. reflexivity. }
    rewrite get_position_in_range by exact Hprev.
    unfold bind at 1.
    destruct (decide (a < length waypoints)%nat) as [Ha|Ha].
    2:{ rewrite get_position_out_of_range by lia. reflexivity. }
    rewrite get_position_in_range by exact Ha. unfold ret at 1.
    apply (IH (S a)); lia.
Qed.

(** [distance] has no bounds check of its own: from [wp1] up to a
    [wp2] that is not an index of the list it raises [IndexError] and
    leaves the waypoints as they are. *)
Theorem distance_past_the_end_raises (waypoints : list nat) (wp1 wp2 : nat) (h : Heap) :
  (wp1 <= wp2)%nat -> (length waypoints <= wp2)%nat ->
  distance waypoints wp1 wp2 h = (Raise IndexError, h).
Proof.
  intros H1 H2. unfold distance. unfold bind.
  replace (wp2 + 1 - wp1)%nat with (S (wp2 - wp1)) by lia.
  rewrite distance_loop_out_of_range by lia. reflexivity.
Qed.

Lemma distance_past_the_end_raises_witness :
  distance [0; 1; 2]%nat 1 3 short_path = (Raise IndexError, short_path).
Proof. apply distance_past_the_end_raises; simpl; lia. Defined.

(** A stop index that is not an index of the window makes [deaccel]
    raise [IndexError] before it has written anything; stop index 0
    makes it return at once, whatever the window. *)
Theorem deaccel_stop_index_out_of_range
    (self : Params) (waypoints : list nat) (stop_index : nat) (D : R) (h : Heap) :
  (0 < stop_index)%nat -> (length waypoints <= stop_index)%nat ->
  deaccel self waypoints stop_index D h = (Raise IndexError, h) /\
  deaccel self waypoints 0 D h = (Ok tt, h).
Proof.
  intros H0 Hlen. split; [|reflexivity]. unfold deaccel.
  destruct (stop_index <=? 0)%nat eqn:E; [apply Nat.leb_le in E; lia|].
  unfold bind at 1. unfold distance, bind.
  replace (stop_index + 1 - 0)%nat with (S stop_index) by lia.
  rewrite distance_loop_out_of_range by lia. reflexivity.
Qed.

Lemma deaccel_stop_index_out_of_range_witness :
  deaccel default_params [0; 1; 2]%nat 3 0 short_path = (Raise IndexError, short_path) /\
  deaccel default_params [0; 1; 2]%nat 0 0 short_path = (Ok tt, short_path).
Proof. apply deaccel_stop_index_out_of_range; simpl; lia. Defined.

(** ** What a tick leaves alone *)

Section Frame.
Variable P : State -> Prop.
Hypothesis P_next : forall st n, P st -> P (set_next_waypoint n st).
Hypothesis P_heap : forall st h',
  P st -> map pose h' = map pose (base_waypoints st) -> P (set_base_waypoints h' st).
Hypothesis P_send : forall st msg, P st -> P (send msg st).

Lemma map_pose_insert (h : Heap) r w v :
  h !! r = Some w -> map pose (<[r := with_linear_x w v]> h) = map pose h.
Proof.
  intros Hr. apply list_eq. intros i. rewrite !list_lookup_fmap.
  destruct (decide (r = i)) as [->|Hne].
  - rewrite list_lookup_insert_eq by (eapply lookup_lt_Some; eauto).
    rewrite Hr. reflexivity.
  - rewrite list_lookup_insert_ne by exact Hne. reflexivity.
Qed.

Lemma map_pose_lowered h h' : lowered h h' -> map pose h' = map pose h.
Proof.
  intros Hl. apply Forall2_same_length_lookup in Hl as [Hlen Hl].
  apply list_eq. intros i. rewrite !list_lookup_fmap.
  destruct (h !! i) as [w|] eqn:Hw.
  - destruct (lookup_lt_is_Some_2 h' i) as [w' Hw'].
    { rewrite <- Hlen. eapply lookup_lt_Some; eauto. }
    rewrite Hw'. simpl. f_equal. apply (Hl _ _ _ Hw Hw').
  - rewrite (lookup_ge_None_2 h' i); [reflexivity|].
    rewrite <- Hlen. apply lookup_ge_None_1. exact Hw.
Qed.

Lemma restore_velocities_frame indexes st :
  P st -> wp (restore_velocities indexes) (fun _ st' => P st') st.
Proof.
  intros H. unfold restore_velocities, for_each.
  eapply wp_mono;
    [|apply (wp_for_fold (fun _ _ st' => P st') (fun _ st' => P st'))].
  - intros [a|e] st'; auto.
  - exact H.
  - clear st H. intros idx rest _ st H. unfold on_heap. run_step.
    repeat case_match; simplify_eq/=; auto;
      try (rewrite <- (set_base_waypoints_same st); apply P_heap; [exact H|reflexivity]).
    apply P_heap; [exact H|]. apply map_pose_insert. assumption.
Qed.

Lemma stop_trigger_frame self waypoint_idx final_waypoints target sd st :
  P st ->
  wp (try_except
        (i <- py_index waypoint_idx target ;;
         on_heap (deaccel self final_waypoints i sd))
        ValueError (ret tt))
     (fun _ st' => P st') st.
Proof.
  intros H. apply wp_try_except. apply wp_bind.
  apply read_only_wp; [apply py_index_read_only|].
  intros [i|e].
  - apply wp_on_heap. unfold wp.
    assert (H' : P (set_base_waypoints
                      (snd (deaccel self final_waypoints i sd (base_waypoints st))) st)).
    { apply P_heap; [exact H|]. apply map_pose_lowered, deaccel_lowers. }
    destruct (deaccel self final_waypoints i sd (base_waypoints st)) as [[a|e] h'];
      cbn [fst snd] in *; [exact H'|].
    destruct (decide (e = ValueError)); exact H'.
  - destruct (decide (e = ValueError)); exact H.
Qed.

Lemma msgPublish_frame final_waypoints st :
  P st -> wp (msgPublish final_waypoints) (fun _ st' => P st') st.
Proof.
  intros H. unfold msgPublish. apply wp_bind. apply wp_on_heap.
  assert (Hro : read_only (list_comp final_waypoints deref)).
  { apply list_comp_read_only. intros r h. reflexivity. }
  unfold wp at 1. rewrite Hro.
  destruct (fst _) as [snapshot|e]; rewrite set_base_waypoints_same; [|exact H].
  unfold wp, bind, get_state, put_state. simpl. apply P_send. exact H.
Qed.

Lemma updatePublish_frame self st :
  P st -> wp (updatePublish self) (fun _ st' => P st') st.
Proof.
  intros H. unfold updatePublish. apply wp_bind.
  assert (H1 : P (snd (next_wpUpdate st))).
  { destruct (next_wpUpdate_state st) as [->|[i ->]]; [exact H|apply P_next; exact H]. }
  unfold wp at 1.
  destruct (next_wpUpdate st) as [[found|e] st1]; cbn [fst snd] in *; [|exact H1].
  destruct found; [|exact H1]. clear st H.
  apply wp_bind. unfold get_state, wp at 1. cbn [fst snd].
  apply wp_bind.
  destruct (next_waypoint st1) as [start|]; [|exact H1]. unfold ret, wp at 1. cbn [fst snd].
  apply wp_bind. destruct (length (base_waypoints st1) =? 0)%nat; [exact H1|].
  unfold ret, wp at 1. cbn [fst snd].
  apply wp_bind. apply read_only_wp.
  { apply list_comp_read_only. intros x. apply read_only_getitem. }
  intros [final_waypoints|e]; [|exact H1].
  apply wp_bind.
  eapply wp_mono with (Q := fun _ st' => P st').
  2:{ destruct (stop_on_red self); [|exact H1].
      apply wp_bind. eapply wp_mono; [|apply restore_velocities_frame; exact H1].
      intros [[]|e] st2 H2; [|exact H2]. apply stop_trigger_frame. exact H2. }
  intros [[]|e] st2 H2; [|exact H2].
  apply wp_bind.
  eapply wp_mono with (Q := fun _ st' => P st').
  2:{ destruct (force_stop_on_last_waypoint self); [exact H2|].
      unfold py_last. run_step. repeat case_match; simplify_eq/=; exact H2. }
  intros [stop_at_end|e] st3 H3; [|exact H3].
  apply wp_bind.
  eapply wp_mono with (Q := fun _ st' => P st').
  2:{ destruct stop_at_end; [|exact H3]. apply stop_trigger_frame. exact H3. }
  intros [[]|e] st4 H4; [|exact H4].
  apply msgPublish_frame. exact H4.
Qed.

End Frame.

(** From any state and whether it returns or raises, a tick changes
    nothing but velocities, the tracked index and the publication
    record: every waypoint stays where it is, and the baseline, the
    pose, the red light, the log and the subscription are as before. *)
Theorem tick_changes_only_velocities (self : Params) (st : State) :
  map pose (base_waypoints (snd (updatePublish self st))) = map pose (base_waypoints st) /\
  original_wpvel (snd (updatePublish self st)) = original_wpvel st /\
  current_pose (snd (updatePublish self st)) = current_pose st /\
  redlight_wp (snd (updatePublish self st)) = redlight_wp st /\
  warnings (snd (updatePublish self st)) = warnings st /\
  base_wp_subscribed (snd (updatePublish self st)) = base_wp_subscribed st.
Proof.
  apply (updatePublish_frame (fun st' =>
    map pose (base_waypoints st') = map pose (base_waypoints st) /\
    original_wpvel st' = original_wpvel st /\
    current_pose st' = current_pose st /\
    redlight_wp st' = redlight_wp st /\
    warnings st' = warnings st /\
    base_wp_subscribed st' = base_wp_subscribed st)).
  - intros s n H. exact H.
  - intros s h' (H1 & H2) Hh. split; [|exact H2]. simpl. congruence.
  - intros s msg H. exact H.
  - repeat split.
Qed.

(** ** Traffic messages *)

Lemma redlight_wp_after_traffic_cb self msg_data st :
  redlight_wp (snd (traffic_cb self msg_data st)) = light_of msg_data.
Proof.
  rewrite traffic_cb_unfold. destruct (bool_decide _); [reflexivity|].
  apply (updatePublish_frame (fun st' => redlight_wp st' = light_of msg_data)); auto.
Qed.

(** A traffic message that repeats the one before it, or any that leaves
    the red light as it is, changes nothing and publishes nothing:
    [traffic_cb] run twice on the same message equals [traffic_cb] run
    once, from any state. *)
Theorem repeated_traffic_message_is_ignored (self : Params) (msg_data : Z) (st : State) :
  traffic_cb self msg_data (snd (traffic_cb self msg_data st)) =
  (Ok tt, snd (traffic_cb self msg_data st)).
Proof.
  pose proof (redlight_wp_after_traffic_cb self msg_data st) as H.
  rewrite (traffic_cb_unfold self msg_data (snd _)).
  rewrite bool_decide_eq_true_2 by exact H.
  f_equal. rewrite <- H. destruct (snd (traffic_cb self msg_data st)). reflexivity.
Qed.

(** ** A new path that continues the old one *)

(** When a new path arrives, a previous index is known and the new
    waypoint at that index is less than 0.5 from the old one, the
    callback returns, keeps the index, logs nothing, takes the new path
    and takes its velocities as the baseline; the subscription is
    dropped exactly when [/unregister_base_waypoints] is set. *)
Theorem waypoints_cb_continuity self msg_waypoints st n old new :
  next_waypoint st = Some n ->
  base_waypoints st !! n = Some old ->
  msg_waypoints !! n = Some new ->
  dl (position (pose old)) (position (pose new)) < 1 / 2 ->
  exists st',
    waypoints_cb self msg_waypoints st = (Ok tt, st') /\
    next_waypoint st' = Some n /\
    warnings st' = warnings st /\
    base_waypoints st' = msg_waypoints /\
    original_wpvel st' = map linear_x msg_waypoints /\
    base_wp_subscribed st' =
      (if unsubscribe_base_wp self then false else base_wp_subscribed st) /\
    published st' = published st.
Proof.
  intros Hn Hold Hnew Hnear. unfold waypoints_cb, bind, get_state.
  destruct (base_waypoints st) as [|w l] eqn:Hbase; [discriminate|].
  rewrite Hn. unfold py_getitem. rewrite Hold, Hnew. unfold ret at 1 2.
  unfold sameWP. destruct (Rlt_dec _ (1 / 2)) as [_|Hge]; [|lra].
  cbn [negb]. unfold put_state, ret.
  destruct (unsubscribe_base_wp self); eexists; repeat split; assumption.
Qed.

Lemma waypoints_cb_continuity_witness :
  exists st',
    waypoints_cb default_params [wp_on_axis 0 5; wp_on_axis 1 7]
      (tracking [wp_on_axis 0 5; wp_on_axis (5 / 4) 5] 1) = (Ok tt, st') /\
    next_waypoint st' = Some 1%nat /\
    warnings st' = warnings (tracking [wp_on_axis 0 5; wp_on_axis (5 / 4) 5] 1) /\
    base_waypoints st' = [wp_on_axis 0 5; wp_on_axis 1 7] /\
    original_wpvel st' = map linear_x [wp_on_axis 0 5; wp_on_axis 1 7] /\
    base_wp_subscribed st' =
      (if unsubscribe_base_wp default_params then false
       else base_wp_subscribed (tracking [wp_on_axis 0 5; wp_on_axis (5 / 4) 5] 1)) /\
    published st' = published (tracking [wp_on_axis 0 5; wp_on_axis (5 / 4) 5] 1).
Proof.
  apply (waypoints_cb_continuity default_params [wp_on_axis 0 5; wp_on_axis 1 7]
           (tracking [wp_on_axis 0 5; wp_on_axis (5 / 4) 5] 1) 1%nat
           (wp_on_axis (5 / 4) 5) (wp_on_axis 1 7)).
  - reflexivity.
  - reflexivity.
  - reflexivity.
  - rewrite dl_on_axis. rewrite Rabs_right by lra. lra.
Defined.

(** ** Ticks with and without a stop line in the window *)

Lemma list_index_absent x l :
  (forall i, l !! i <> Some x) -> list_index x l = None.
Proof.
  induction l as [|y l IH]; intros H; [reflexivity|]. simpl.
  destruct (x =? y)%nat eqn:E.
  - apply Nat.eqb_eq in E. subst. destruct (H 0%nat). reflexivity.
  - rewrite IH; [reflexivity|]. intros i. apply (H (S i)).
Qed.

Lemma list_index_first x l i :
  l !! i = Some x -> (forall j, (j < i)%nat -> l !! j <> Some x) ->
  list_index x l = Some i.
Proof.
  revert i. induction l as [|y l IH]; intros i Hi Hfirst; [discriminate|]. simpl.
  destruct (x =? y)%nat eqn:E.
  - apply Nat.eqb_eq in E. subst. destruct i as [|i]; [reflexivity|].
    destruct (Hfirst 0%nat ltac:(lia)). reflexivity.
  - destruct i as [|i].
    + simpl in Hi. injection Hi as ->. rewrite Nat.eqb_refl in E. discriminate.
    + rewrite (IH i); [reflexivity|exact Hi|].
      intros j Hj. apply (Hfirst (S j)). lia.
Qed.

Lemma window_indices_lookup_Some start L k r :
  window_indices start L !! k = Some r ->
  (k < LOOKAHEAD_WPS)%nat /\ r = ((start + k) mod L)%nat.
Proof.
  intros H. assert (Hk : (k < LOOKAHEAD_WPS)%nat).
  { rewrite <- (window_indices_length start L). eapply lookup_lt_Some. exact H. }
  split; [exact Hk|]. rewrite window_indices_lookup in H by exact Hk. congruence.
Qed.

Lemma trigger_absent self window target D h :
  (forall r, target = Some r -> forall i, window !! i <> Some r) ->
  trigger self window target D h = h.
Proof.
  intros H. unfold trigger. destruct target as [r|]; [|reflexivity].
  rewrite list_index_absent; [reflexivity|]. apply H. reflexivity.
Qed.

Lemma trigger_at_start self window r D h :
  window !! 0%nat = Some r -> trigger self window (Some r) D h = h.
Proof.
  intros H. unfold trigger.
  rewrite (list_index_first r window 0 H) by (intros j Hj; lia). reflexivity.
Qed.

(** A tick with nothing to stop for.  The car is localised at [start],
    the window does not reach the last waypoint of the path, and the red
    light, if there is one, is at the car's own waypoint, behind it or
    beyond the window.  Then the tick publishes the 100 waypoints from
    [start] on, each at its baseline velocity: what an earlier tick had
    lowered is restored, and a red light at the car's own waypoint
    lowers nothing. *)
Theorem tick_without_stop_line_publishes_baseline
    (self : Params) (st : State) (start : nat) :
  length (original_wpvel st) = length (base_waypoints st) ->
  next_wpUpdate st = (Ok true, set_next_waypoint (Some start) st) ->
  stop_on_red self = true ->
  (start + 100 < length (base_waypoints st))%nat ->
  (forall r, redlight_wp st = Some r -> (r <= start)%nat \/ (start + 100 <= r)%nat) ->
  exists st' msg,
    updatePublish self st = (Ok tt, st') /\
    published st' = msg :: published st /\
    forall k, (k < 100)%nat ->
      exists w b,
        base_waypoints st !! (start + k)%nat = Some w /\
        original_wpvel st !! (start + k)%nat = Some b /\
        waypoints msg !! k = Some (with_linear_x w b) /\
        base_waypoints st' !! (start + k)%nat = Some (with_linear_x w b).
Proof.
  intros Hlen Hnext Hred HL Hlight.
  rewrite (updatePublish_spec self st start Hlen Hnext).
  eexists. eexists. split; [reflexivity|]. split; [reflexivity|].
  cbn [waypoints base_waypoints send set_base_waypoints].
  set (L := length (base_waypoints st)) in *.
  assert (Hwin : forall i r, window_indices start L !! i = Some r ->
                   (i < 100)%nat /\ r = (start + i)%nat).
  { intros i r Hi. apply window_indices_lookup_Some in Hi as [Hi ->].
    split; [exact Hi|]. apply Nat.mod_small. unfold LOOKAHEAD_WPS in Hi. lia. }
  assert (Hheap : tick_heap self st start =
                  restored (original_wpvel st) (window_indices start L) (base_waypoints st)).
  { unfold tick_heap. fold L. rewrite Hred.
    assert (H1 : trigger self (window_indices start L) (redlight_wp st)
                   (stop_distance self)
                   (restored (original_wpvel st) (window_indices start L)
                      (base_waypoints st)) =
                 restored (original_wpvel st) (window_indices start L) (base_waypoints st)).
    { destruct (redlight_wp st) as [r|] eqn:Hr; [|reflexivity].
      destruct (decide (r = start)) as [->|Hne].
      - apply trigger_at_start. rewrite window_indices_lookup by (unfold LOOKAHEAD_WPS; lia).
        rewrite Nat.add_0_r, Nat.mod_small by lia. reflexivity.
      - apply trigger_absent. intros r' Hr' i Hi. injection Hr' as <-.
        apply Hwin in Hi as [Hi ->]. destruct (Hlight _ eq_refl); lia. }
    rewrite H1. destruct (stop_at_end self (original_wpvel st)); [|reflexivity].
    apply trigger_absent. intros r' Hr' i Hi. injection Hr' as <-.
    apply Hwin in Hi as [Hi Heq]. lia. }
  rewrite Hheap. intros k Hk.
  destruct (lookup_lt_is_Some_2 (base_waypoints st) (start + k)%nat) as [w Hw];
    [fold L; lia|].
  destruct (lookup_lt_is_Some_2 (original_wpvel st) (start + k)%nat) as [b Hb];
    [rewrite Hlen; fold L; lia|].
  assert (Hk' : window_indices start L !! k = Some (start + k)%nat).
  { rewrite window_indices_lookup by (unfold LOOKAHEAD_WPS; lia).
    rewrite Nat.mod_small by lia. reflexivity. }
  assert (Hr : restored (original_wpvel st) (window_indices start L) (base_waypoints st)
               !! (start + k)%nat = Some (with_linear_x w b)).
  { apply restored_lookup; [|exact Hw|exact Hb].
    apply list_elem_of_lookup. exists k. exact Hk'. }
  exists w, b. split; [exact Hw|]. split; [exact Hb|]. split; [|exact Hr].
  apply (snapshot_lookup _ _ k (start + k)%nat); assumption.
Qed.

Lemma length_first_heap self st start :
  length (if stop_on_red self
          then trigger self (window_indices start (length (base_waypoints st)))
                 (redlight_wp st) (stop_distance self)
                 (restored (original_wpvel st)
                    (window_indices start (length (base_waypoints st)))
                    (base_waypoints st))
          else base_waypoints st) = length (base_waypoints st).
Proof.
  destruct (stop_on_red self); [|reflexivity].
  rewrite length_trigger, length_restored. reflexivity.
Qed.

(** A path too short for its window.  With the stop at the last waypoint
    in force, the car not yet at the last waypoint and the path so short
    that the window, after the last waypoint, runs through the whole
    path again ([2 * L <= 101 + start]; from [start = 0], a path of at
    most 50 waypoints), the tick leaves no waypoint of the path and of
    the published window with a velocity above 0. *)
Theorem short_path_is_stopped_everywhere (self : Params) (st : State) (start : nat) :
  length (original_wpvel st) = length (base_waypoints st) ->
  next_wpUpdate st = (Ok true, set_next_waypoint (Some start) st) ->
  force_stop_on_last_waypoint self = true ->
  (S start < length (base_waypoints st))%nat ->
  (2 * length (base_waypoints st) <= 101 + start)%nat ->
  exists st' msg,
    updatePublish self st = (Ok tt, st') /\
    published st' = msg :: published st /\
    Forall (fun w => linear_x w <= 0) (base_waypoints st') /\
    Forall (fun w => linear_x w <= 0) (waypoints msg).
Proof.
  intros Hlen Hnext Hforce Hstart Hshort.
  rewrite (updatePublish_spec self st start Hlen Hnext).
  eexists. eexists. split; [reflexivity|]. split; [reflexivity|].
  cbn [waypoints base_waypoints send set_base_waypoints].
  set (L := length (base_waypoints st)) in *.
  set (window := window_indices start L).
  assert (Hall : forall r, (r < L)%nat ->
            exists w', tick_heap self st start !! r = Some w' /\ linear_x w' <= 0).
  { intros r Hr. unfold tick_heap. fold L. fold window.
    unfold stop_at_end. rewrite Hforce. cbn [orb].
    pose proof (length_first_heap self st start) as Hl1. fold L in Hl1. fold window in Hl1.
    set (h1 := if stop_on_red self then _ else _) in *.
    assert (Hidx : list_index (L - 1)%nat window = Some (L - 1 - start)%nat).
    { apply list_index_first.
      - unfold window. rewrite window_indices_lookup by (unfold LOOKAHEAD_WPS; lia).
        f_equal. replace (start + (L - 1 - start))%nat with (L - 1)%nat by lia.
        apply Nat.mod_small. lia.
      - intros j Hj Hc. unfold window in Hc.
        apply window_indices_lookup_Some in Hc as [_ Hc].
        rewrite Nat.mod_small in Hc by lia. lia. }
    unfold trigger. rewrite Hidx.
    rewrite deaccel_spec;
      [|lia|unfold window; rewrite window_indices_length; unfold LOOKAHEAD_WPS; lia
       |apply Rmax_r].
    cbn [snd]. rewrite profiled_lookup.
    destruct (lookup_lt_is_Some_2 h1 r) as [w Hw]; [rewrite Hl1; exact Hr|].
    rewrite Hw. cbn [fmap option_fmap option_map]. eexists. split; [reflexivity|].
    cbn [linear_x with_linear_x].
    set (i := if decide (r = L - 1)%nat then (L - 1 - start)%nat
              else (L - start + r)%nat).
    assert (Hi : (i < 100)%nat /\ (L - 1 - start <= i)%nat /\ window !! i = Some r).
    { unfold i. destruct (decide (r = L - 1)%nat) as [->|Hne].
      - split; [lia|]. split; [lia|].
        unfold window. rewrite window_indices_lookup by (unfold LOOKAHEAD_WPS; lia).
        f_equal. replace (start + (L - 1 - start))%nat with (L - 1)%nat by lia.
        apply Nat.mod_small. lia.
      - split; [lia|]. split; [lia|].
        unfold window. rewrite window_indices_lookup by (unfold LOOKAHEAD_WPS; lia).
        f_equal. replace (start + (L - start + r))%nat with (r + 1 * L)%nat by lia.
        rewrite Nat.Div0.mod_add. apply Nat.mod_small. exact Hr. }
    destruct Hi as (Hi1 & Hi2 & Hi3).
    rewrite (lowest_beyond _ _ _ _ _ _ _ _ i); [apply Rmin_r| |exact Hi3|exact Hi2].
    apply in_rev_seq. unfold window. rewrite window_indices_length.
    unfold LOOKAHEAD_WPS. exact Hi1. }
  split.
  - apply Forall_lookup. intros r w Hw.
    destruct (Hall r) as (w' & Hw' & Hle).
    { unfold L. rewrite <- (length_tick_heap self st start).
      eapply lookup_lt_Some. exact Hw. }
    congruence.
  - unfold snapshot. apply Forall_fmap, Forall_forall. intros r Hr. simpl.
    pose proof (window_indices_bound start L ltac:(lia)) as Hb.
    rewrite Forall_forall in Hb. specialize (Hb r Hr). simpl in Hb.
    destruct (Hall r Hb) as (w' & -> & Hle). exact Hle.
Qed.

(** ** The shape of the profile *)

Lemma allowed_monotone self stop_index D step i j :
  0 <= step -> (i <= j)%nat ->
  allowed self stop_index D step j <= allowed self stop_index D step i.
Proof.
  intros Hstep Hij. unfold allowed.
  destruct (j <? stop_index)%nat eqn:Ej.
  2:{ destruct (i <? stop_index)%nat; [|lra].
      destruct (Rlt_dec _ _); [apply sqrt_pos|lra]. }
  apply Nat.ltb_lt in Ej.
  assert (Ei : (i <? stop_index)%nat = true) by (apply Nat.ltb_lt; lia).
  rewrite Ei. cbv zeta.
  assert (Hd : INR (stop_index - j) * step <= INR (stop_index - i) * step).
  { apply Rmult_le_compat_r; [exact Hstep|]. apply le_INR. lia. }
  destruct (Rlt_dec (stop_distance self) (INR (stop_index - j) * step)) as [Hj|Hj].
  - destruct (Rlt_dec (stop_distance self) (INR (stop_index - i) * step)) as [_|Hi];
      [|lra].
    apply sqrt_le_1_alt. pose proof (Rabs_pos (accel self)). nra.
  - destruct (Rlt_dec _ _); [apply sqrt_pos|lra].
Qed.

(** Along a window that names no waypoint twice, with the stop line
    inside it and a standoff as at the two call sites, [deaccel] keeps a
    velocity profile that does not rise towards the stop line: of two
    window entries, if the later one was not faster before the call it
    is not faster after it. *)
Theorem deaccel_keeps_profile_falling
    (self : Params) (waypoints : list nat) (stop_index : nat) (D : R) (h : Heap)
    (i j ri rj : nat) (wi wj : Waypoint) :
  NoDup waypoints ->
  (0 < stop_index)%nat ->
  (stop_index < length waypoints)%nat ->
  D <= Rmax (stop_distance self) 0 ->
  (i <= j)%nat ->
  waypoints !! i = Some ri ->
  waypoints !! j = Some rj ->
  h !! ri = Some wi ->
  h !! rj = Some wj ->
  linear_x wj <= linear_x wi ->
  exists h' wi' wj',
    deaccel self waypoints stop_index D h = (Ok tt, h') /\
    h' !! ri = Some wi' /\
    h' !! rj = Some wj' /\
    linear_x wj' <= linear_x wi'.
Proof.
  intros Hnd H0 Hlen HD Hij Hi Hj Hwi Hwj Hv.
  rewrite deaccel_spec by assumption.
  eexists. eexists. eexists. split; [reflexivity|].
  rewrite !profiled_lookup, Hwi, Hwj. cbn [fmap option_fmap option_map].
  split; [reflexivity|]. split; [reflexivity|].
  cbn [linear_x with_linear_x].
  rewrite (lowest_NoDup _ _ _ _ _ _ ri _ i Hnd);
    [|apply in_rev_seq; eapply lookup_lt_Some; exact Hi|exact Hi].
  rewrite (lowest_NoDup _ _ _ _ _ _ rj _ j Hnd);
    [|apply in_rev_seq; eapply lookup_lt_Some; exact Hj|exact Hj].
  pose proof (allowed_monotone self stop_index D (step_of h waypoints stop_index) i j
                (step_of_nonneg h waypoints stop_index H0) Hij) as Hm.
  apply Rmin_glb.
  - eapply Rle_trans; [apply Rmin_l|exact Hv].
  - eapply Rle_trans; [apply Rmin_r|exact Hm].
Qed.

Lemma deaccel_keeps_profile_falling_witness :
  exists h' wi' wj',
    deaccel scenario_params [0; 1; 2; 3]%nat 2 1 scenario_path = (Ok tt, h') /\
    h' !! 0%nat = Some wi' /\
    h' !! 1%nat = Some wj' /\
    linear_x wj' <= linear_x wi'.
Proof.
  apply (deaccel_keeps_profile_falling scenario_params [0; 1; 2; 3]%nat 2 1
           scenario_path 0 1 0 1 (wp_on_axis 0 5) (wp_on_axis 1 5)).
  - apply NoDup_ListNoDup. repeat constructor; simpl; lia.
  - lia.
  - simpl. lia.
  - apply Rmax_l.
  - lia.
  - reflexivity.
  - reflexivity.
  - reflexivity.
  - reflexivity.
  - simpl. lra.
Defined.

(** ** Worked instances *)

Lemma car_distance_nonneg x y w : 0 <= car_distance x y w.
Proof. apply sqrt_pos. Qed.

(** A car that stands on the first waypoint is localised there by the
    exhaustive scan. *)
Lemma localised_at_first st p w0 :
  search_start (next_waypoint st) = (0%nat, true) ->
  current_pose st = Some p ->
  base_waypoints st !! 0%nat = Some w0 ->
  car_distance (pos_x (position p)) (pos_y (position p)) w0 = 0 ->
  next_wpUpdate st = (Ok true, set_next_waypoint (Some 0%nat) st).
Proof.
  intros Hs Hp H0 Hd0.
  destruct (base_waypoints st) as [|w l] eqn:Hb; [discriminate|].
  rewrite (next_wpUpdate_unfold st w l p Hb Hp). rewrite <- Hb in *.
  rewrite Hs. cbn [fst snd].
  destruct (nearest_loop_full (base_waypoints st) (pos_x (position p))
              (pos_y (position p)) (length (base_waypoints st)) 0 None 1000000)
    as (wp' & dist' & Hloop & Hsc).
  { lia. }
  { split; [reflexivity|]. intros k wk Hk. lia. }
  rewrite Hloop.
  assert (HL : (0 < length (base_waypoints st))%nat)
    by (eapply lookup_lt_Some; exact H0).
  destruct wp' as [m|]; unfold scanned in Hsc.
  - destruct Hsc as (Hm & _ & (wm & Hwm & ->) & Hall & Hfirst).
    destruct m as [|m]; [reflexivity|]. exfalso.
    specialize (Hfirst 0%nat _ ltac:(lia) H0). rewrite Hd0 in Hfirst.
    pose proof (car_distance_nonneg (pos_x (position p)) (pos_y (position p)) wm). lra.
  - destruct Hsc as [_ Hall]. exfalso.
    specialize (Hall 0%nat _ HL H0). rewrite Hd0 in Hall. lra.
Qed.

Lemma localizer_takes_near_or_nearest_witness :
  exists p i wi,
    current_pose (set_current_pose (Some (pose_on_axis 0)) (tracking [wp_on_axis 0 5] 0))
    = Some p /\
    set_next_waypoint (Some 0%nat)
      (set_current_pose (Some (pose_on_axis 0)) (tracking [wp_on_axis 0 5] 0)) =
    set_next_waypoint (Some i)
      (set_current_pose (Some (pose_on_axis 0)) (tracking [wp_on_axis 0 5] 0)) /\
    [wp_on_axis 0 5] !! i = Some wi /\
    car_distance (pos_x (position p)) (pos_y (position p)) wi < 1000000 /\
    ((forall j wj, [wp_on_axis 0 5] !! j = Some wj ->
        car_distance (pos_x (position p)) (pos_y (position p)) wi
        <= car_distance (pos_x (position p)) (pos_y (position p)) wj) \/
     (car_distance (pos_x (position p)) (pos_y (position p)) wi < 20 /\
      exists wn,
        [wp_on_axis 0 5] !! ((i + 1) mod 1)%nat = Some wn /\
        car_distance (pos_x (position p)) (pos_y (position p)) wi
        <= car_distance (pos_x (position p)) (pos_y (position p)) wn)).
Proof.
  exact (localizer_takes_near_or_nearest
           (set_current_pose (Some (pose_on_axis 0)) (tracking [wp_on_axis 0 5] 0))
           _ localised_at_origin).
Defined.

Lemma ahead_at_middle_0 : ahead three_path 9 0 1 0 = 1.
Proof.
  change (ahead three_path 9 0 1 0) with (car_distance 9 0 (wp_on_axis 10 5)).
  rewrite car_distance_on_axis. rewrite Rabs_left by lra. lra.
Qed.

Lemma ahead_at_middle_1 : ahead three_path 9 0 1 1 = 11.
Proof.
  change (ahead three_path 9 0 1 1) with (car_distance 9 0 (wp_on_axis 20 5)).
  rewrite car_distance_on_axis. rewrite Rabs_left by lra. lra.
Qed.

Lemma incremental_search_takes_first_local_minimum_witness :
  next_wpUpdate at_middle =
  (Ok true,
   set_next_waypoint (Some ((0 + 1) mod length (base_waypoints at_middle))%nat) at_middle).
Proof.
  apply (incremental_search_takes_first_local_minimum at_middle (pose_on_axis 9)
           0 0 (ahead three_path 9 0 1)).
  - reflexivity.
  - reflexivity.
  - intros j w H. exact (ahead_lookup three_path 9 0 1 j w H).
  - simpl. lia.
  - rewrite ahead_at_middle_0. lra.
  - intros j Hj. lia.
  - rewrite ahead_at_middle_0, ahead_at_middle_1. lra.
  - rewrite ahead_at_middle_0. lra.
Defined.

Lemma at_middle_localised :
  next_wpUpdate at_middle = (Ok true, set_next_waypoint (Some 1%nat) at_middle).
Proof.
  rewrite (next_wpUpdate_unfold at_middle (wp_on_axis 0 5)
             [wp_on_axis 10 5; wp_on_axis 20 5] (pose_on_axis 9) eq_refl eq_refl).
  change (next_waypoint at_middle) with (Some 1%nat).
  change (base_waypoints at_middle) with three_path.
  cbn [search_start fst snd length three_path seq].
  change (pos_x (position (pose_on_axis 9))) with 9.
  change (pos_y (position (pose_on_axis 9))) with 0.
  rewrite (nearest_loop_step three_path 9 0 1 3 0 _ _ _ _ (wp_on_axis 10 5) eq_refl).
  rewrite car_distance_on_axis, (Rabs_left (9 - 10)) by lra.
  destruct (Rlt_dec (- (9 - 10)) 1000000) as [_|H]; [|lra].
  rewrite (nearest_loop_step three_path 9 0 1 3 1 _ _ _ _ (wp_on_axis 20 5) eq_refl).
  rewrite car_distance_on_axis, (Rabs_left (9 - 20)) by lra.
  destruct (Rlt_dec (- (9 - 20)) (- (9 - 10))) as [H|_]; [lra|].
  cbn [negb]. unfold max_local_dist.
  destruct (Rlt_dec (- (9 - 10)) 20) as [_|H]; [reflexivity|lra].
Qed.

Lemma localizer_is_stable_witness :
  next_wpUpdate (set_next_waypoint (Some 1%nat) at_middle) =
  (Ok true, set_next_waypoint (Some 1%nat) at_middle).
Proof.
  apply (localizer_is_stable at_middle (set_next_waypoint (Some 1%nat) at_middle)).
  - exact at_middle_localised.
  - discriminate.
Defined.

Lemma at_wide_start_localised :
  next_wpUpdate at_wide_start = (Ok true, set_next_waypoint (Some 0%nat) at_wide_start).
Proof.
  apply (localised_at_first at_wide_start (pose_on_axis 0) (wp_on_axis (2 * INR 0) 10)).
  - reflexivity.
  - reflexivity.
  - reflexivity.
  - change (pos_x (position (pose_on_axis 0))) with 0.
    change (pos_y (position (pose_on_axis 0))) with 0.
    rewrite car_distance_on_axis. simpl INR. rewrite Rabs_right by lra. lra.
Qed.

Lemma tick_without_stop_line_publishes_baseline_witness :
  exists st' msg,
    updatePublish default_params at_wide_start = (Ok tt, st') /\
    published st' = msg :: published at_wide_start /\
    forall k, (k < 100)%nat ->
      exists w b,
        base_waypoints at_wide_start !! (0 + k)%nat = Some w /\
        original_wpvel at_wide_start !! (0 + k)%nat = Some b /\
        waypoints msg !! k = Some (with_linear_x w b) /\
        base_waypoints st' !! (0 + k)%nat = Some (with_linear_x w b).
Proof.
  apply (tick_without_stop_line_publishes_baseline default_params at_wide_start 0).
  - reflexivity.
  - exact at_wide_start_localised.
  - reflexivity.
  - change (length (base_waypoints at_wide_start)) with 150%nat. lia.
  - intros r H. discriminate.
Defined.

Lemma short_path_is_stopped_everywhere_witness :
  exists st' msg,
    updatePublish no_red_params at_first = (Ok tt, st') /\
    published st' = msg :: published at_first /\
    Forall (fun w => linear_x w <= 0) (base_waypoints st') /\
    Forall (fun w => linear_x w <= 0) (waypoints msg).
Proof.
  apply (short_path_is_stopped_everywhere no_red_params at_first 0).
  - reflexivity.
  - exact at_first_localised.
  - reflexivity.
  - simpl. lia.
  - simpl. lia.
Defined.

(** ** Which handler can raise *)

Lemma waypoints_cb_raise self msg_waypoints st e st' :
  (forall n, next_waypoint st = Some n -> (n < length (base_waypoints st))%nat) ->
  waypoints_cb self msg_waypoints st = (Raise e, st') ->
  e = IndexError /\ st' = st /\
  exists n, next_waypoint st = Some n /\ (length msg_waypoints <= n)%nat.
Proof.
  intros Hn. unfold waypoints_cb, bind, get_state.
  destruct (base_waypoints st) as [|w l] eqn:Hb.
  { unfold ret, put_state. destruct (unsubscribe_base_wp self); discriminate. }
  destruct (next_waypoint st) as [n|] eqn:Hnext.
  2:{ unfold ret, put_state. destruct (unsubscribe_base_wp self); discriminate. }
  unfold py_getitem.
  destruct ((w :: l) !! n) as [old|] eqn:Hold.
  2:{ apply lookup_ge_None_1 in Hold. specialize (Hn n eq_refl). lia. }
  destruct (msg_waypoints !! n) as [new|] eqn:Hnew.
  - unfold ret, put_state. cbv beta iota.
    destruct (sameWP old new (1 / 2) (1 / 2)); cbn [negb];
      destruct (unsubscribe_base_wp self); discriminate.
  - unfold ret, raise. cbv beta iota. intros H. injection H as <- <-.
    split; [reflexivity|]. split; [reflexivity|]. exists n.
    split; [reflexivity|]. apply lookup_ge_None_1. exact Hnew.
Qed.

(** In every state the node reaches, every callback and every tick
    returns normally, with one exception: a new path that has no
    waypoint at the tracked index makes [waypoints_cb] raise
    [IndexError], and then the state is left as it was. *)
Theorem only_a_short_path_makes_a_handler_raise
    (self : Params) (evs : list Event) (ev : Event) :
  fst (handle self ev (run self evs init)) = Ok tt \/
  exists msg_waypoints n,
    ev = BaseWaypointsMsg msg_waypoints /\
    next_waypoint (run self evs init) = Some n /\
    (length msg_waypoints <= n)%nat /\
    handle self ev (run self evs init) = (Raise IndexError, run self evs init).
Proof.
  pose proof (run_consistent self evs init consistent_init) as HC.
  set (st := run self evs init) in *.
  assert (Htick : forall s, consistent s -> fst (updatePublish self s) = Ok tt).
  { intros s Hs. destruct (updatePublish_cases self s (proj1 Hs))
      as [[_ ->]|(start & _ & _ & ->)]; reflexivity. }
  destruct ev as [p|w|d|]; cbn [handle].
  - left. reflexivity.
  - destruct (waypoints_cb self w st) as [[[]|e] st'] eqn:Hcb; [left; reflexivity|].
    right. apply waypoints_cb_raise in Hcb as (-> & -> & n & Hn & Hlen);
      [|exact (proj2 HC)].
    exists w, n. repeat split; assumption.
  - left. rewrite traffic_cb_unfold. destruct (bool_decide _); [reflexivity|].
    apply Htick. exact HC.
  - left. apply Htick. exact HC.
Qed.

(** ** A tick before a red light *)

Lemma window_indices_no_wrap start L :
  (start + LOOKAHEAD_WPS <= L)%nat -> window_indices start L = seq start LOOKAHEAD_WPS.
Proof.
  intros H. unfold window_indices. apply list_eq. intros k.
  rewrite list_lookup_fmap.
  destruct (decide (k < LOOKAHEAD_WPS)%nat) as [Hk|Hk].
  - rewrite lookup_seq_lt by exact Hk. simpl. f_equal. apply Nat.mod_small. lia.
  - rewrite lookup_seq_ge by lia. reflexivity.
Qed.

Lemma position_at_restored orig indexes h waypoints i :
  position_at (restored orig indexes h) waypoints i = position_at h waypoints i.
Proof.
  unfold position_at, restored. rewrite list_lookup_imap.
  destruct (h !! default 0%nat (waypoints !! i)) as [w|]; [|reflexivity].
  simpl. destruct (decide _); reflexivity.
Qed.

Lemma path_length_restored orig indexes h waypoints prev idxs :
  path_length (restored orig indexes h) waypoints prev idxs =
  path_length h waypoints prev idxs.
Proof.
  revert prev. induction idxs as [|i idxs IH]; intros prev; [reflexivity|].
  cbn [path_length]. rewrite IH, !position_at_restored. reflexivity.
Qed.

Lemma step_of_restored orig indexes h waypoints stop_index :
  step_of (restored orig indexes h) waypoints stop_index = step_of h waypoints stop_index.
Proof. unfold step_of. rewrite path_length_restored. reflexivity. Qed.

(** A tick before a red light.  The car is localised at [start], the
    window does not reach the last waypoint of the path and the red
    light is at the waypoint [r] ahead of the car in the window.  With
    [S = r - start] and [step] the distance along the path from the car's
    waypoint to the light over [S], the tick publishes the 100 waypoints
    from [start] on, the one at offset [k] with the least of its
    baseline and of the speed allowed at [k]: 0 from the light on and,
    before it, 0 up to [stop_distance] from the light and
    [sqrt (2 * |accel| * (d - stop_distance))] at distance
    [d = (S - k) * step] beyond that. *)
Theorem tick_before_red_light (self : Params) (st : State) (start r : nat) :
  length (original_wpvel st) = length (base_waypoints st) ->
  next_wpUpdate st = (Ok true, set_next_waypoint (Some start) st) ->
  stop_on_red self = true ->
  (start + 100 < length (base_waypoints st))%nat ->
  redlight_wp st = Some r ->
  (start < r < start + 100)%nat ->
  exists st' msg,
    updatePublish self st = (Ok tt, st') /\
    published st' = msg :: published st /\
    forall k, (k < 100)%nat ->
      exists w b,
        base_waypoints st !! (start + k)%nat = Some w /\
        original_wpvel st !! (start + k)%nat = Some b /\
        waypoints msg !! k =
        Some (with_linear_x w
                (Rmin b
                   (if (k <? r - start)%nat then
                      if Rlt_dec (stop_distance self)
                           (INR (r - start - k)
                            * step_of (base_waypoints st) (seq start 100) (r - start))
                      then sqrt (2 * Rabs (accel self)
                                 * (INR (r - start - k)
                                    * step_of (base_waypoints st) (seq start 100)
                                        (r - start)
                                    - stop_distance self))
                      else 0
                    else 0))).
Proof.
  intros Hlen Hnext Hred HL Hlight Hr.
  rewrite (updatePublish_spec self st start Hlen Hnext).
  eexists. eexists. split; [reflexivity|]. split; [reflexivity|].
  cbn [waypoints].
  set (L := length (base_waypoints st)) in *.
  assert (Hwin : window_indices start L = seq start 100).
  { apply window_indices_no_wrap. unfold LOOKAHEAD_WPS. lia. }
  rewrite Hwin.
  assert (Hidx : list_index r (seq start 100) = Some (r - start)%nat).
  { apply list_index_first.
    - rewrite lookup_seq_lt by lia. f_equal. lia.
    - intros j Hj Hc. apply lookup_seq in Hc. lia. }
  assert (Hheap : tick_heap self st start =
            profiled self (seq start 100) (r - start) (stop_distance self)
              (step_of (base_waypoints st) (seq start 100) (r - start))
              (rev (seq 0 100))
              (restored (original_wpvel st) (seq start 100) (base_waypoints st))).
  { unfold tick_heap. fold L. rewrite Hwin, Hred, Hlight.
    assert (H1 : trigger self (seq start 100) (Some r) (stop_distance self)
                   (restored (original_wpvel st) (seq start 100) (base_waypoints st)) =
                 profiled self (seq start 100) (r - start) (stop_distance self)
                   (step_of (base_waypoints st) (seq start 100) (r - start))
                   (rev (seq 0 100))
                   (restored (original_wpvel st) (seq start 100) (base_waypoints st))).
    { unfold trigger. rewrite Hidx.
      rewrite deaccel_spec; [|lia|rewrite length_seq; lia|apply Rmax_l].
      cbn [snd]. rewrite step_of_restored, length_seq. reflexivity. }
    rewrite H1. destruct (stop_at_end self (original_wpvel st)); [|reflexivity].
    apply trigger_absent. intros r' Hr' i Hi. injection Hr' as <-.
    apply lookup_seq in Hi. lia. }
  rewrite Hheap. intros k Hk.
  destruct (lookup_lt_is_Some_2 (base_waypoints st) (start + k)%nat) as [w Hw];
    [fold L; lia|].
  destruct (lookup_lt_is_Some_2 (original_wpvel st) (start + k)%nat) as [b Hb];
    [rewrite Hlen; fold L; lia|].
  exists w, b. split; [exact Hw|]. split; [exact Hb|].
  apply (snapshot_lookup _ _ k (start + k)%nat); [apply lookup_seq_lt; lia|].
  rewrite profiled_lookup.
  rewrite (restored_lookup _ _ _ _ w b); [|apply elem_of_seq; lia|exact Hw|exact Hb].
  cbn [fmap option_fmap option_map]. f_equal. unfold with_linear_x at 1.
  cbn [pose linear_x with_linear_x]. unfold with_linear_x. f_equal.
  rewrite (lowest_NoDup _ _ _ _ _ _ (start + k)%nat _ k (NoDup_seq start 100));
    [|apply in_rev_seq; lia|apply lookup_seq_lt; lia].
  reflexivity.
Qed.

Lemma at_wide_red_localised :
  next_wpUpdate at_wide_red = (Ok true, set_next_waypoint (Some 0%nat) at_wide_red).
Proof.
  apply (localised_at_first at_wide_red (pose_on_axis 0) (wp_on_axis (2 * INR 0) 10)).
  - reflexivity.
  - reflexivity.
  - reflexivity.
  - change (pos_x (position (pose_on_axis 0))) with 0.
    change (pos_y (position (pose_on_axis 0))) with 0.
    rewrite car_distance_on_axis. simpl INR. rewrite Rabs_right by lra. lra.
Qed.

Lemma tick_before_red_light_witness :
  exists st' msg,
    updatePublish default_params at_wide_red = (Ok tt, st') /\
    published st' = msg :: published at_wide_red /\
    forall k, (k < 100)%nat ->
      exists w b,
        base_waypoints at_wide_red !! (0 + k)%nat = Some w /\
        original_wpvel at_wide_red !! (0 + k)%nat = Some b /\
        waypoints msg !! k =
        Some (with_linear_x w
                (Rmin b
                   (if (k <? 50 - 0)%nat then
                      if Rlt_dec (stop_distance default_params)
                           (INR (50 - 0 - k)
                            * step_of (base_waypoints at_wide_red) (seq 0 100) (50 - 0))
                      then sqrt (2 * Rabs (accel default_params)
                                 * (INR (50 - 0 - k)
                                    * step_of (base_waypoints at_wide_red) (seq 0 100)
                                        (50 - 0)
                                    - stop_distance default_params))
                      else 0
                    else 0))).
Proof.
  apply (tick_before_red_light default_params at_wide_red 0 50).
  - reflexivity.
  - exact at_wide_red_localised.
  - reflexivity.
  - change (length (base_waypoints at_wide_red)) with 150%nat. lia.
  - reflexivity.
  - lia.
Defined.

(** ** Ticks one after the other *)

Lemma nearest_loop_same_poses (h h' : Heap) x y off L todo wp dist fs :
  map pose h' = map pose h ->
  nearest_loop h' x y off L todo wp dist fs = nearest_loop h x y off L todo wp dist fs.
Proof.
  intros Hp. revert wp dist fs. induction todo as [|i todo IH]; intros wp dist fs;
    [reflexivity|].
  rewrite !nearest_loop_cons.
  assert (Hi : pose <$> h' !! ((i + off) mod L)%nat = pose <$> h !! ((i + off) mod L)%nat).
  { rewrite <- !list_lookup_fmap. change (fmap pose h') with (map pose h').
    rewrite Hp. reflexivity. }
  destruct (h' !! ((i + off) mod L)%nat) as [w'|], (h !! ((i + off) mod L)%nat) as [w|];
    try discriminate; [|reflexivity].
  injection Hi as Hi. unfold car_distance. rewrite Hi, !IH. reflexivity.
Qed.

(** The Localizer reads the positions of the path, the pose and the
    previous index, and nothing else. *)
Lemma next_wpUpdate_same_poses st st' start :
  map pose (base_waypoints st') = map pose (base_waypoints st) ->
  current_pose st' = current_pose st ->
  next_waypoint st' = next_waypoint st ->
  next_wpUpdate st = (Ok true, set_next_waypoint (Some start) st) ->
  next_wpUpdate st' = (Ok true, set_next_waypoint (Some start) st').
Proof.
  intros Hb Hp Hn H.
  assert (Hlen : length (base_waypoints st') = length (base_waypoints st)).
  { rewrite <- (length_map pose), Hb. apply length_map. }
  destruct (base_waypoints st) as [|w l] eqn:Hbase.
  { rewrite next_wpUpdate_without_path in H by exact Hbase. discriminate. }
  destruct (current_pose st) as [p|] eqn:Hpose.
  2:{ rewrite next_wpUpdate_without_pose in H by exact Hpose. discriminate. }
  destruct (base_waypoints st') as [|w' l'] eqn:Hbase'; [discriminate|].
  rewrite <- Hbase, <- Hbase' in Hb, Hlen.
  rewrite (next_wpUpdate_unfold st w l p Hbase Hpose) in H.
  rewrite (next_wpUpdate_unfold st' w' l' p Hbase' Hp).
  rewrite Hn, Hlen, (nearest_loop_same_poses (base_waypoints st) (base_waypoints st'))
    by exact Hb.
  destruct (nearest_loop _ _ _ _ _ _ _ _ _) as [[i|]|e]; [|discriminate..].
  injection H as ->. reflexivity.
Qed.

Lemma deaccel_body_only_window self waypoints stop_index sd step idx acc (h0 h : Heap) :
  (forall r, r ∉ waypoints -> h !! r = h0 !! r) ->
  wp (deaccel_body self waypoints stop_index sd step idx acc)
     (fun _ h' => forall r, r ∉ waypoints -> h' !! r = h0 !! r) h.
Proof.
  intros Hb. destruct acc as [vel d]. unfold deaccel_body. run_step.
  repeat case_match; simplify_eq/=; auto;
    intros r Hr; rewrite list_lookup_insert_ne; auto;
    intros ->; apply Hr; eapply list_elem_of_lookup_2; eassumption.
Qed.

Lemma deaccel_only_window self waypoints stop_index sd (h : Heap) r :
  r ∉ waypoints -> snd (deaccel self waypoints stop_index sd h) !! r = h !! r.
Proof.
  revert r.
  change (wp (deaccel self waypoints stop_index sd)
            (fun _ h' => forall r, r ∉ waypoints -> h' !! r = h !! r) h).
  assert (Hb : forall r, r ∉ waypoints -> h !! r = h !! r) by reflexivity.
  revert Hb. generalize h at 2 3 as h0. intros h0 Hb.
  unfold deaccel. destruct (stop_index <=? 0)%nat; [exact Hb|].
  apply wp_bind. apply read_only_wp; [apply distance_read_only|].
  intros [dist|e]; [|exact Hb].
  apply wp_bind.
  eapply wp_mono;
    [|apply (wp_for_fold (fun _ _ h' => forall r, r ∉ waypoints -> h' !! r = h0 !! r)
                         (fun _ h' => forall r, r ∉ waypoints -> h' !! r = h0 !! r))].
  - intros [a|e] h'; auto.
  - exact Hb.
  - intros x rest a h1 H1.
    eapply wp_mono; [|apply deaccel_body_only_window; exact H1].
    intros [a'|e] h'; auto.
Qed.

Lemma trigger_only_window self window target D h r :
  r ∉ window -> trigger self window target D h !! r = h !! r.
Proof.
  intros Hr. unfold trigger. destruct target as [v|]; [|reflexivity].
  destruct (list_index v window); [|reflexivity].
  apply deaccel_only_window. exact Hr.
Qed.

Lemma map_pose_trigger self window target D h :
  map pose (trigger self window target D h) = map pose h.
Proof.
  unfold trigger. destruct target as [v|]; [|reflexivity].
  destruct (list_index v window); [|reflexivity].
  apply map_pose_lowered, deaccel_lowers.
Qed.

Lemma map_pose_restored orig indexes h : map pose (restored orig indexes h) = map pose h.
Proof.
  apply list_eq. intros i. unfold restored.
  rewrite !list_lookup_fmap, list_lookup_imap.
  destruct (h !! i) as [w|]; [|reflexivity]. simpl.
  destruct (decide _); reflexivity.
Qed.

Lemma restored_off orig indexes h r :
  r ∉ indexes -> restored orig indexes h !! r = h !! r.
Proof.
  intros Hr. unfold restored. rewrite list_lookup_imap.
  destruct (h !! r) as [w|]; [|reflexivity]. simpl.
  destruct (decide _); [contradiction|reflexivity].
Qed.

(** Restoring forgets the velocities of the waypoints it names. *)
Lemma restored_again orig indexes (h h' : Heap) :
  map pose h' = map pose h ->
  (forall r, r ∉ indexes -> h' !! r = h !! r) ->
  restored orig indexes h' = restored orig indexes h.
Proof.
  intros Hp Hoff. apply list_eq. intros r. unfold restored.
  rewrite !list_lookup_imap.
  assert (Hr : pose <$> h' !! r = pose <$> h !! r).
  { rewrite <- !list_lookup_fmap. change (fmap pose h') with (map pose h').
    rewrite Hp. reflexivity. }
  destruct (decide (r ∈ indexes)) as [Hin|Hout].
  - destruct (h' !! r) as [w'|], (h !! r) as [w|]; try discriminate; [|reflexivity].
    injection Hr as Hr. simpl. unfold with_linear_x. rewrite Hr. reflexivity.
  - rewrite (Hoff r Hout). reflexivity.
Qed.

Lemma map_pose_tick_heap self st start :
  map pose (tick_heap self st start) = map pose (base_waypoints st).
Proof.
  unfold tick_heap.
  destruct (stop_at_end self (original_wpvel st)), (stop_on_red self);
    rewrite ?map_pose_trigger, ?map_pose_restored; reflexivity.
Qed.

Lemma tick_heap_only_window self st start r :
  r ∉ window_indices start (length (base_waypoints st)) ->
  tick_heap self st start !! r = base_waypoints st !! r.
Proof.
  intros Hr. unfold tick_heap.
  destruct (stop_at_end self (original_wpvel st)), (stop_on_red self);
    rewrite ?trigger_only_window, ?restored_off by exact Hr; reflexivity.
Qed.

Lemma tick_heap_again self st start :
  stop_on_red self = true ->
  tick_heap self (after_tick self st start) start = tick_heap self st start.
Proof.
  intros Hred. unfold tick_heap at 1.
  cbn [after_tick send set_base_waypoints set_next_waypoint base_waypoints
       original_wpvel redlight_wp].
  rewrite length_tick_heap, Hred.
  rewrite (restored_again _ _ (base_waypoints st) (tick_heap self st start))
    by (auto using map_pose_tick_heap, tick_heap_only_window).
  unfold tick_heap. rewrite Hred. reflexivity.
Qed.

(** Two ticks in a row with [stop_on_red] set, nothing arriving in
    between and the Localizer staying at [start] (as it does whenever
    [start] is not 0): the second tick returns, publishes the same
    waypoints with the same velocities under the next sequence number,
    and leaves the path as the first did. *)
Theorem second_tick_publishes_the_same (self : Params) (st : State) (start : nat) :
  length (original_wpvel st) = length (base_waypoints st) ->
  next_wpUpdate st = (Ok true, set_next_waypoint (Some start) st) ->
  next_wpUpdate (set_next_waypoint (Some start) st) =
    (Ok true, set_next_waypoint (Some start) st) ->
  stop_on_red self = true ->
  exists st1 st2 m1 m2,
    updatePublish self st = (Ok tt, st1) /\
    updatePublish self st1 = (Ok tt, st2) /\
    published st2 = m2 :: m1 :: published st /\
    waypoints m2 = waypoints m1 /\
    seq_no m2 = S (seq_no m1) /\
    base_waypoints st2 = base_waypoints st1.
Proof.
  intros Hlen Hnext Hstay Hred.
  assert (Hnext1 : next_wpUpdate (after_tick self st start) =
                   (Ok true, set_next_waypoint (Some start) (after_tick self st start))).
  { apply (next_wpUpdate_same_poses (set_next_waypoint (Some start) st));
      [exact (map_pose_tick_heap self st start)|reflexivity|reflexivity|].
    rewrite set_next_waypoint_twice. exact Hstay. }
  assert (Hlen1 : length (original_wpvel (after_tick self st start)) =
                  length (base_waypoints (after_tick self st start))).
  { rewrite length_after_tick. exact Hlen. }
  exists (after_tick self st start),
         (after_tick self (after_tick self st start) start),
         (tick_message self st start),
         (tick_message self (after_tick self st start) start).
  split; [apply updatePublish_spec; assumption|].
  split; [apply updatePublish_spec; assumption|].
  split; [reflexivity|].
  split.
  { cbn [tick_message waypoints]. rewrite tick_heap_again by exact Hred.
    rewrite length_after_tick. reflexivity. }
  split; [simpl; lia|].
  cbn [after_tick send set_base_waypoints base_waypoints].
  apply tick_heap_again. exact Hred.
Qed.

Lemma second_tick_publishes_the_same_witness :
  exists st1 st2 m1 m2,
    updatePublish default_params at_wide_red = (Ok tt, st1) /\
    updatePublish default_params st1 = (Ok tt, st2) /\
    published st2 = m2 :: m1 :: published at_wide_red /\
    waypoints m2 = waypoints m1 /\
    seq_no m2 = S (seq_no m1) /\
    base_waypoints st2 = base_waypoints st1.
Proof.
  apply (second_tick_publishes_the_same default_params at_wide_red 0).
  - reflexivity.
  - exact at_wide_red_localised.
  - change (next_wpUpdate (set_next_waypoint (Some 0%nat) at_wide_red) =
            (Ok true, set_next_waypoint (Some 0%nat)
                        (set_next_waypoint (Some 0%nat) at_wide_red))).
    apply (localised_at_first _ (pose_on_axis 0) (wp_on_axis (2 * INR 0) 10)).
    + reflexivity.
    + reflexivity.
    + reflexivity.
    + change (pos_x (position (pose_on_axis 0))) with 0.
      change (pos_y (position (pose_on_axis 0))) with 0.
      rewrite car_distance_on_axis. simpl INR. rewrite Rabs_right by lra. lra.
  - reflexivity.
Defined.

(** ** A red light that clears *)

Lemma tick_heap_without_stop_line self st start :
  stop_on_red self = true ->
  (start + 100 < length (base_waypoints st))%nat ->
  (forall r, redlight_wp st = Some r -> (r <= start)%nat \/ (start + 100 <= r)%nat) ->
  tick_heap self st start =
  restored (original_wpvel st) (seq start 100) (base_waypoints st).
Proof.
  intros Hred HL Hlight. unfold tick_heap.
  rewrite window_indices_no_wrap by (unfold LOOKAHEAD_WPS; lia).
  change LOOKAHEAD_WPS with 100%nat. rewrite Hred.
  assert (H1 : trigger self (seq start 100) (redlight_wp st) (stop_distance self)
                 (restored (original_wpvel st) (seq start 100) (base_waypoints st)) =
               restored (original_wpvel st) (seq start 100) (base_waypoints st)).
  { destruct (redlight_wp st) as [r|] eqn:Hr; [|reflexivity].
    destruct (decide (r = start)) as [->|Hne].
    - apply trigger_at_start. reflexivity.
    - apply trigger_absent. intros r' Hr' i Hi. injection Hr' as <-.
      apply lookup_seq in Hi. destruct (Hlight _ eq_refl); lia. }
  rewrite H1. destruct (stop_at_end self (original_wpvel st)); [|reflexivity].
  apply trigger_absent. intros r' Hr' i Hi. injection Hr' as <-.
  apply lookup_seq in Hi. lia.
Qed.

(** A red light that clears.  The car is localised at [start], the
    window does not reach the last waypoint and a red light is on; a
    traffic message with negative data arrives.  Then [traffic_cb]
    returns, has cleared the red light and has published at once the
    100 waypoints from [start] on, each at its baseline velocity,
    whatever earlier ticks had lowered. *)
Theorem cleared_red_light_restores_baseline
    (self : Params) (st : State) (start r : nat) (msg_data : Z) :
  length (original_wpvel st) = length (base_waypoints st) ->
  next_wpUpdate st = (Ok true, set_next_waypoint (Some start) st) ->
  stop_on_red self = true ->
  (start + 100 < length (base_waypoints st))%nat ->
  redlight_wp st = Some r ->
  (msg_data < 0)%Z ->
  exists st' msg,
    traffic_cb self msg_data st = (Ok tt, st') /\
    redlight_wp st' = None /\
    published st' = msg :: published st /\
    forall k, (k < 100)%nat ->
      exists w b,
        base_waypoints st !! (start + k)%nat = Some w /\
        original_wpvel st !! (start + k)%nat = Some b /\
        waypoints msg !! k = Some (with_linear_x w b).
Proof.
  intros Hlen Hnext Hred HL Hlight Hneg.
  rewrite traffic_cb_unfold.
  assert (Hoff : light_of msg_data = None).
  { unfold light_of. destruct (0 <=? msg_data)%Z eqn:E; [|reflexivity].
    apply Z.leb_le in E. lia. }
  rewrite Hoff, Hlight. rewrite bool_decide_eq_false_2 by discriminate.
  set (st0 := set_redlight_wp None st).
  assert (Hnext0 : next_wpUpdate st0 = (Ok true, set_next_waypoint (Some start) st0)).
  { apply (next_wpUpdate_same_poses st); [reflexivity..|exact Hnext]. }
  rewrite (updatePublish_spec self st0 start Hlen Hnext0).
  eexists. eexists. split; [reflexivity|]. split; [reflexivity|].
  split; [reflexivity|]. cbn [waypoints].
  change (base_waypoints st0) with (base_waypoints st).
  rewrite (tick_heap_without_stop_line self st0 start Hred HL)
    by (intros r' Hr'; discriminate).
  rewrite window_indices_no_wrap by (unfold LOOKAHEAD_WPS; lia).
  change LOOKAHEAD_WPS with 100%nat.
  change (original_wpvel st0) with (original_wpvel st).
  change (base_waypoints st0) with (base_waypoints st).
  intros k Hk.
  destruct (lookup_lt_is_Some_2 (base_waypoints st) (start + k)%nat) as [w Hw]; [lia|].
  destruct (lookup_lt_is_Some_2 (original_wpvel st) (start + k)%nat) as [b Hb];
    [rewrite Hlen; lia|].
  exists w, b. split; [exact Hw|]. split; [exact Hb|].
  apply (snapshot_lookup _ _ k (start + k)%nat); [apply lookup_seq_lt; lia|].
  apply restored_lookup; [apply elem_of_seq; lia|exact Hw|exact Hb].
Qed.

Lemma cleared_red_light_restores_baseline_witness :
  exists st' msg,
    traffic_cb default_params (-1) at_wide_red = (Ok tt, st') /\
    redlight_wp st' = None /\
    published st' = msg :: published at_wide_red /\
    forall k, (k < 100)%nat ->
      exists w b,
        base_waypoints at_wide_red !! (0 + k)%nat = Some w /\
        original_wpvel at_wide_red !! (0 + k)%nat = Some b /\
        waypoints msg !! k = Some (with_linear_x w b).
Proof.
  apply (cleared_red_light_restores_baseline default_params at_wide_red 0 50).
  - reflexivity.
  - exact at_wide_red_localised.
  - reflexivity.
  - change (length (base_waypoints at_wide_red)) with 150%nat. lia.
  - reflexivity.
  - lia.
Defined.

End WaypointUpdaterFacts.

(** * The drive-by-wire node *)

Module DBWNodeFacts.
Import DBWNode.

Section Facts.
Variable polyfit : list R -> list R -> nat -> result (list R).
Variable Controller : Type.
Variable control : Controller -> R -> R -> R -> R -> R -> (R * R * R) * Controller.
Variable reset : Controller -> Controller.

Lemma get_cross_track_error_read_only {S} fw cp :
  read_only (S:=S) (get_cross_track_error polyfit fw cp).
Proof.
  unfold get_cross_track_error.
  apply read_only_bind; [apply read_only_getitem|]. intros w0.
  apply read_only_bind; [apply read_only_getitem|]. intros row.
  apply read_only_bind; [intros s; reflexivity|]. intros coefficients.
  apply read_only_bind; [destruct cp; intros s; reflexivity|]. intros p s.
  reflexivity.
Qed.

Lemma short_window_estimate {S} (fw : list Waypoint) (cp : option Pose) (s : S) :
  (length fw < 16)%nat ->
  get_cross_track_error polyfit fw cp s = (Raise IndexError, s).
Proof.
  intros Hlen. unfold get_cross_track_error, bind, py_getitem.
  destruct (fw !! 0%nat) as [w0|]; [|reflexivity].
  unfold ret at 1.
  rewrite lookup_ge_None_2; [reflexivity|].
  unfold get_xy_from_waypoints. rewrite !length_map. lia.
Qed.

(** C5, amended: on a window of fewer than 16 entries the estimator
    raises [IndexError], at [final_waypoints[0]] or at
    [shifted_matrix[offset, 1]]; it returns no number and has no result
    of its own for an ill-conditioned fit.  Nothing catches the
    exception: the pass of the control loop that asked for the estimate
    ends by it. *)
Theorem short_window_raises_IndexError
    (fw : list Waypoint) (cp : option Pose)
    (c : Controller) (enabled : bool) (cv pv : TwistStamped)
    (t0 : Z) (cmds : list Command) (t : Z) :
  (length fw < 16)%nat ->
  (forall S (s : S), get_cross_track_error polyfit fw cp s = (Raise IndexError, s)) /\
  fst (loop_pass polyfit Controller control reset t
         {| controller := c; is_dbw_enabled := enabled;
            current_velocity := Some cv; proposed_velocity := Some pv;
            final_waypoints := Some fw; current_pose := cp;
            previous_loop_time := t0; sent := cmds |}) = Raise IndexError.
Proof.
  intros Hlen. split.
  - intros S s. apply short_window_estimate. exact Hlen.
  - unfold loop_pass, bind, get_state.
    cbn [current_velocity proposed_velocity final_waypoints current_pose].
    unfold put_state at 1.
    rewrite short_window_estimate by exact Hlen. reflexivity.
Qed.

(** Without a pose the estimator raises: [current_pose.pose] on [None],
    when nothing before it has raised. *)
Lemma no_pose_raises {S} (fw : list Waypoint) (s : S) :
  exists e, get_cross_track_error polyfit fw None s = (Raise e, s).
Proof.
  unfold get_cross_track_error, bind, py_getitem.
  destruct (fw !! 0%nat) as [w0|]; [|eexists; reflexivity].
  unfold ret at 1.
  destruct (_ !! 15%nat) as [row|]; [|eexists; reflexivity].
  unfold ret at 1. unfold lift_result.
  destruct (polyfit _ _ _) as [coefficients|e]; eexists; reflexivity.
Qed.

(** C4 at the input that breaks it: velocity, target twist and window
    present, no pose yet.  The pass is not skipped: it enters the branch
    and the estimator raises; the exception leaves [loop], whatever
    passes were still to come. *)
Theorem control_pass_without_pose_raises
    (c : Controller) (enabled : bool) (cv pv : TwistStamped)
    (fw : list Waypoint) (t0 : Z) (cmds : list Command) (t : Z) (later : list Z) :
  exists e,
    fst (loop_pass polyfit Controller control reset t
           {| controller := c; is_dbw_enabled := enabled;
              current_velocity := Some cv; proposed_velocity := Some pv;
              final_waypoints := Some fw; current_pose := None;
              previous_loop_time := t0; sent := cmds |}) = Raise e /\
    fst (loop polyfit Controller control reset (t :: later)
           {| controller := c; is_dbw_enabled := enabled;
              current_velocity := Some cv; proposed_velocity := Some pv;
              final_waypoints := Some fw; current_pose := None;
              previous_loop_time := t0; sent := cmds |}) = Raise e.
Proof.
  set (st := {| controller := c; is_dbw_enabled := enabled;
                current_velocity := Some cv; proposed_velocity := Some pv;
                final_waypoints := Some fw; current_pose := None;
                previous_loop_time := t0; sent := cmds |}).
  destruct (no_pose_raises fw
              (set_previous_loop_time Controller t st)) as [e He].
  exists e.
  assert (Hpass : fst (loop_pass polyfit Controller control reset t st) = Raise e).
  { unfold loop_pass, bind, get_state. cbn [current_velocity proposed_velocity
      final_waypoints st]. unfold put_state at 1.
    change (current_pose Controller st) with (@None Pose).
    rewrite He. reflexivity. }
  split; [exact Hpass|].
  unfold loop, for_each. cbn [for_fold]. unfold bind at 1. unfold bind at 1.
  destruct (loop_pass polyfit Controller control reset t st) as [[pass|e'] st'].
  - discriminate Hpass.
  - simpl in Hpass. injection Hpass as ->. reflexivity.
Qed.

End Facts.

(** C5 as stated fails: on a window of one waypoint the estimator ends
    by a raised [IndexError], no failure value is returned, and the pass
    of the control loop that called it ends by the same exception. *)
Lemma one_waypoint_window_crashes :
  get_cross_track_error (fun _ _ _ => Ok [0; 0; 0; 0])
    [WaypointUpdaterSpec.wp_on_axis 0 5]
    (Some (WaypointUpdaterSpec.pose_on_axis 0)) tt = (Raise IndexError, tt)
  /\ fst (loop_pass (fun _ _ _ => Ok [0; 0; 0; 0]) unit
            (fun c _ _ _ _ _ => ((0, 0, 0), c)) (fun c => c) 0%Z
            {| controller := tt; is_dbw_enabled := true;
               current_velocity := Some {| linear_x_of := 1; angular_z_of := 0 |};
               proposed_velocity := Some {| linear_x_of := 1; angular_z_of := 0 |};
               final_waypoints := Some [WaypointUpdaterSpec.wp_on_axis 0 5];
               current_pose := Some (WaypointUpdaterSpec.pose_on_axis 0);
               previous_loop_time := 0%Z; sent := [] |}) = Raise IndexError.
Proof. split; reflexivity. Qed.

Lemma short_window_raises_IndexError_witness :
  (forall S (s : S),
     get_cross_track_error (fun _ _ _ => Ok [0; 0; 0; 0])
       [WaypointUpdaterSpec.wp_on_axis 0 5; WaypointUpdaterSpec.wp_on_axis 1 5]
       (Some (WaypointUpdaterSpec.pose_on_axis 0)) s = (Raise IndexError, s)) /\
  fst (loop_pass (fun _ _ _ => Ok [0; 0; 0; 0]) unit
         (fun c _ _ _ _ _ => ((0, 0, 0), c)) (fun c => c) 20000000%Z
         {| controller := tt; is_dbw_enabled := true;
            current_velocity := Some {| linear_x_of := 1; angular_z_of := 0 |};
            proposed_velocity := Some {| linear_x_of := 1; angular_z_of := 0 |};
            final_waypoints :=
              Some [WaypointUpdaterSpec.wp_on_axis 0 5;
                    WaypointUpdaterSpec.wp_on_axis 1 5];
            current_pose := Some (WaypointUpdaterSpec.pose_on_axis 0);
            previous_loop_time := 0%Z; sent := [] |}) = Raise IndexError.
Proof.
  apply (short_window_raises_IndexError (fun _ _ _ => Ok [0; 0; 0; 0]) unit
           (fun c _ _ _ _ _ => ((0, 0, 0), c)) (fun c => c)).
  simpl. lia.
Defined.

(** * The drive-by-wire node: passes of the loop *)

Section Control.
Variable polyfit : list R -> list R -> nat -> result (list R).
Variable Controller : Type.
Variable control : Controller -> R -> R -> R -> R -> R -> (R * R * R) * Controller.
Variable reset : Controller -> Controller.


(** ** Passes that wait *)

Lemma loop_pass_skips t (st : State Controller) :
  current_velocity _ st = None \/ proposed_velocity _ st = None \/ final_waypoints _ st = None ->
  loop_pass polyfit Controller control reset t st = (Ok Skipped, st).
Proof.
  intros H. unfold loop_pass, bind, get_state.
  destruct (current_velocity _ st), (proposed_velocity _ st), (final_waypoints _ st);
    try reflexivity.
  destruct H as [H|[H|H]]; discriminate.
Qed.

(** As long as one of the current velocity, the proposed velocity and
    the final waypoints has not arrived, every pass of [loop] is
    skipped: nothing is computed, nothing is sent, and the time of the
    last pass is not advanced. *)
Theorem loop_waits_for_its_inputs (st : State Controller) (times : list Z) :
  current_velocity _ st = None \/ proposed_velocity _ st = None \/ final_waypoints _ st = None ->
  loop polyfit Controller control reset times st = (Ok tt, st).
Proof.
  intros H. unfold loop, for_each.
  induction times as [|t times IH]; [reflexivity|].
  cbn [for_fold]. unfold bind at 1. unfold bind at 1.
  rewrite (loop_pass_skips t st H). unfold ret at 1. exact IH.
Qed.

Lemma duration_in_seconds (d : Z) :
  IZR (d / 1000000000) + / 1000000000 * IZR (d mod 1000000000) = IZR d / 1000000000.
Proof.
  rewrite (Z.div_mod d 1000000000) at 3 by lia.
  rewrite plus_IZR, mult_IZR. field.
Qed.

Lemma estimate_returns (fw : list Waypoint) (p : Pose) :
  (forall xs ys, exists cs, polyfit xs ys 3 = Ok cs) ->
  (16 <= length fw)%nat ->
  exists cte, forall S (s : S),
    get_cross_track_error polyfit fw (Some p) s = (Ok cte, s).
Proof.
  intros Hfit Hlen. unfold get_cross_track_error.
  destruct (lookup_lt_is_Some_2 fw 0) as [w0 Hw0]; [lia|].
  set (shifted := map (fun q => (fst q - pos_x (position (pose w0)),
                                 snd q - pos_y (position (pose w0))))
                    (get_xy_from_waypoints fw)).
  destruct (lookup_lt_is_Some_2 shifted 15) as [row Hrow].
  { unfold shifted, get_xy_from_waypoints. rewrite !length_map. lia. }
  set (rot := ((cos (arctan2 (snd row) (fst row)), - sin (arctan2 (snd row) (fst row))),
               (sin (arctan2 (snd row) (fst row)), cos (arctan2 (snd row) (fst row))))).
  destruct (Hfit (map fst (map (fun q => dot_row q rot) shifted))
                 (map snd (map (fun q => dot_row q rot) shifted))) as [cs Hcs].
  eexists. intros S s. unfold bind, py_getitem. rewrite Hw0. unfold ret at 1.
  fold shifted. rewrite Hrow. unfold ret at 1. fold rot.
  unfold lift_result. rewrite Hcs. reflexivity.
Qed.

(** ** A pass that controls *)

(** One pass of [loop] with every input known, a window of at least 16
    waypoints and a fit that returns.  The pass ends normally; it has
    called the controller once, with the time since the last pass in
    seconds, and recorded the time of this pass; it has sent the
    controller's throttle, brake and steering exactly when DBW is
    enabled; and it has reset the controller when DBW is disabled or
    both the current and the proposed speed are below 1e-5. *)
Theorem control_pass_sends_one_command
    (c : Controller) (enabled : bool) (cv pv : TwistStamped)
    (fw : list Waypoint) (p : Pose) (t0 : Z) (cmds : list Command) (t : Z) :
  (forall xs ys, exists cs, polyfit xs ys 3 = Ok cs) ->
  (16 <= length fw)%nat ->
  exists cte throttle brake steering c',
    (forall S (s : S), get_cross_track_error polyfit fw (Some p) s = (Ok cte, s)) /\
    control c (linear_x_of pv) (angular_z_of pv) (linear_x_of cv) cte
      (IZR (t - t0) / 1000000000) = ((throttle, brake, steering), c') /\
    loop_pass polyfit Controller control reset t
      {| controller := c; is_dbw_enabled := enabled;
         current_velocity := Some cv; proposed_velocity := Some pv;
         final_waypoints := Some fw; current_pose := Some p;
         previous_loop_time := t0; sent := cmds |} =
    (Ok (Controlled cte),
     {| controller :=
          if negb enabled
             || ((if Rlt_dec (Rabs (linear_x_of cv)) (/ 100000) then true else false)
                 && (if Rlt_dec (Rabs (linear_x_of pv)) (/ 100000) then true else false))
          then reset c' else c';
        is_dbw_enabled := enabled;
        current_velocity := Some cv; proposed_velocity := Some pv;
        final_waypoints := Some fw; current_pose := Some p;
        previous_loop_time := t;
        sent := if enabled
                then {| throttle_cmd := throttle; brake_cmd := brake;
                        steering_cmd := steering |} :: cmds
                else cmds |}).
Proof.
  intros Hfit Hlen. destruct (estimate_returns fw p Hfit Hlen) as [cte Hcte].
  destruct (control c (linear_x_of pv) (angular_z_of pv) (linear_x_of cv) cte
              (IZR (t - t0) / 1000000000)) as [[[throttle brake] steering] c'] eqn:Hc.
  exists cte, throttle, brake, steering, c'.
  split; [exact Hcte|]. split; [exact Hc|].
  unfold loop_pass, bind, get_state, put_state.
  cbn [current_velocity proposed_velocity final_waypoints previous_loop_time
       current_pose set_previous_loop_time controller is_dbw_enabled sent].
  rewrite Hcte. cbn [controller set_previous_loop_time is_dbw_enabled].
  rewrite duration_in_seconds, Hc.
  cbn [set_controller controller is_dbw_enabled current_velocity proposed_velocity
       final_waypoints current_pose previous_loop_time sent].
  destruct enabled;
    destruct (Rlt_dec (Rabs (linear_x_of cv)) (/ 100000));
    destruct (Rlt_dec (Rabs (linear_x_of pv)) (/ 100000)); reflexivity.
Qed.

(** ** What a pass leaves alone *)

Lemma loop_pass_effect t (st : State Controller) :
  is_dbw_enabled _ (snd (loop_pass polyfit Controller control reset t st)) = is_dbw_enabled _ st /\
  current_velocity _ (snd (loop_pass polyfit Controller control reset t st)) = current_velocity _ st /\
  proposed_velocity _ (snd (loop_pass polyfit Controller control reset t st)) = proposed_velocity _ st /\
  final_waypoints _ (snd (loop_pass polyfit Controller control reset t st)) = final_waypoints _ st /\
  current_pose _ (snd (loop_pass polyfit Controller control reset t st)) = current_pose _ st /\
  (sent _ (snd (loop_pass polyfit Controller control reset t st)) = sent _ st \/
   is_dbw_enabled _ st = true /\
   fst (loop_pass polyfit Controller control reset t st) <> Ok Skipped /\
   exists cmd, sent _ (snd (loop_pass polyfit Controller control reset t st)) = cmd :: sent _ st).
Proof.
  unfold loop_pass, bind, get_state, put_state.
  destruct (current_velocity _ st) as [cv|] eqn:Hcv; [|repeat split; auto].
  destruct (proposed_velocity _ st) as [pv|] eqn:Hpv; [|repeat split; auto].
  destruct (final_waypoints _ st) as [fw|] eqn:Hfw; [|repeat split; auto].
  pose proof (get_cross_track_error_read_only polyfit fw (current_pose _ st)
                (set_previous_loop_time Controller t st)) as Hro.
  destruct (get_cross_track_error polyfit fw (current_pose _ st)
              (set_previous_loop_time Controller t st)) as [[cte|e] s1].
  2:{ cbn [snd] in *. subst s1. repeat split; auto. }
  cbn [snd] in Hro. subst s1.
  destruct (control _ _ _ _ _ _) as [[[throttle brake] steering] c'].
  cbn [set_controller set_previous_loop_time controller is_dbw_enabled sent]. cbv beta iota.
  destruct (is_dbw_enabled _ st) eqn:He;
    destruct (Rlt_dec (Rabs (linear_x_of cv)) (/ 100000));
    destruct (Rlt_dec (Rabs (linear_x_of pv)) (/ 100000));
    cbn; repeat split; auto; right; repeat split; try discriminate; eauto.
Qed.

Lemma handle_not_enabling ev (st : State Controller) :
  ev <> DbwEnabledMsg true ->
  is_dbw_enabled _ st = false /\ sent _ st = [] ->
  is_dbw_enabled _ (snd (handle polyfit Controller control reset ev st)) = false /\ sent _ (snd (handle polyfit Controller control reset ev st)) = [].
Proof.
  intros Hev [He Hs]. destruct ev as [m|m|b|w|p|t]; cbn [handle];
    try (split; [exact He|exact Hs]).
  - destruct b; [congruence|]. split; [reflexivity|exact Hs].
  - unfold bind. destruct (loop_pass_effect t st) as (H1 & _ & _ & _ & _ & H2).
    destruct (loop_pass polyfit Controller control reset t st) as [[r|e] s1]; cbn [snd fst] in *; unfold ret; cbv beta iota; cbn [snd].
    + split; [congruence|]. destruct H2 as [->|[H2 _]]; [exact Hs|congruence].
    + split; [congruence|]. destruct H2 as [->|[H2 _]]; [exact Hs|congruence].
Qed.

(** Until a [/vehicle/dbw_enabled] message with value true has arrived,
    the node sends no throttle, brake or steering command, whatever
    else arrives and however often the loop passes. *)
Theorem no_command_before_dbw_enabled (c : Controller) (now : Z) (evs : list Event) :
  Forall (fun ev => ev <> DbwEnabledMsg true) evs ->
  sent _ (run polyfit Controller control reset evs (init Controller c now)) = [].
Proof.
  intros H.
  enough (Hgen : forall st : State Controller,
            is_dbw_enabled _ st = false /\ sent _ st = [] ->
            is_dbw_enabled _ (run polyfit Controller control reset evs st) = false /\ sent _ (run polyfit Controller control reset evs st) = [])
    by (apply Hgen; split; reflexivity).
  induction H as [|ev evs Hev _ IH]; intros st HI; [exact HI|].
  cbn [run fold_left]. apply IH. apply handle_not_enabling; assumption.
Qed.

(** A pass of [loop], whether it is skipped, completes or raises,
    leaves the inputs the callbacks have stored and the DBW switch as
    they are and sends at most one command: none when DBW is disabled. *)
Theorem control_pass_sends_at_most_one_command (t : Z) (st : State Controller) :
  is_dbw_enabled _ (snd (loop_pass polyfit Controller control reset t st)) = is_dbw_enabled _ st /\
  current_velocity _ (snd (loop_pass polyfit Controller control reset t st)) = current_velocity _ st /\
  proposed_velocity _ (snd (loop_pass polyfit Controller control reset t st)) = proposed_velocity _ st /\
  final_waypoints _ (snd (loop_pass polyfit Controller control reset t st)) = final_waypoints _ st /\
  current_pose _ (snd (loop_pass polyfit Controller control reset t st)) = current_pose _ st /\
  (sent _ (snd (loop_pass polyfit Controller control reset t st)) = sent _ st \/
   is_dbw_enabled _ st = true /\
   exists cmd, sent _ (snd (loop_pass polyfit Controller control reset t st)) = cmd :: sent _ st).
Proof.
  destruct (loop_pass_effect t st) as (H1 & H2 & H3 & H4 & H5 & H6).
  repeat split; try assumption.
  destruct H6 as [H6|(H6 & _ & H7)]; [left; exact H6|right; split; assumption].
Qed.

End Control.

Import DBWNodeSpec.

Lemma loop_waits_for_its_inputs_witness :
  loop zero_fit unit idle_control idle_reset [0%Z; 20000000%Z] (init unit tt 0%Z) =
  (Ok tt, init unit tt 0%Z).
Proof. apply loop_waits_for_its_inputs. left. reflexivity. Defined.

Lemma no_command_before_dbw_enabled_witness :
  sent _ (run zero_fit unit idle_control idle_reset
            [CurrentVelocityMsg moving; DbwEnabledMsg false; LoopPass 20000000%Z]
            (init unit tt 0%Z)) = [].
Proof.
  apply no_command_before_dbw_enabled. repeat constructor; discriminate.
Defined.

Section Failure.
Variable polyfit : list R -> list R -> nat -> result (list R).
Variable Controller : Type.
Variable control : Controller -> R -> R -> R -> R -> R -> (R * R * R) * Controller.
Variable reset : Controller -> Controller.

Lemma estimate_independent {S1 S2} (fw : list Waypoint) (cp : option Pose)
    (s1 : S1) (s2 : S2) :
  fst (get_cross_track_error polyfit fw cp s1) =
  fst (get_cross_track_error polyfit fw cp s2).
Proof.
  unfold get_cross_track_error, bind, py_getitem, lift_result, ret, raise.
  destruct (fw !! 0%nat) as [w0|]; [|reflexivity]. cbv beta iota.
  destruct (_ !! 15%nat) as [row|]; [|reflexivity]. cbv beta iota.
  destruct (polyfit _ _ _) as [cs|e]; [|reflexivity].
  destruct cp as [p|]; reflexivity.
Qed.

(** A pass of [loop] that raises has done so in the cross-track
    estimate: it has recorded the time of the pass and nothing else; the
    controller has not been called or reset and no command has been
    sent. *)
Theorem failed_pass_only_advances_time (t : Z) (st : State Controller) (e : exn) :
  fst (loop_pass polyfit Controller control reset t st) = Raise e ->
  snd (loop_pass polyfit Controller control reset t st) =
    set_previous_loop_time Controller t st /\
  exists fw,
    final_waypoints _ st = Some fw /\
    forall S (s : S),
      get_cross_track_error polyfit fw (current_pose _ st) s = (Raise e, s).
Proof.
  unfold loop_pass, bind, get_state, put_state.
  destruct (current_velocity _ st) as [cv|]; [|discriminate].
  destruct (proposed_velocity _ st) as [pv|]; [|discriminate].
  destruct (final_waypoints _ st) as [fw|]; [|discriminate].
  pose proof (fun S => @get_cross_track_error_read_only polyfit S fw (current_pose _ st))
    as Hro.
  destruct (get_cross_track_error polyfit fw (current_pose _ st)
              (set_previous_loop_time Controller t st)) as [[cte|e'] s1] eqn:Hg.
  - destruct (control _ _ _ _ _ _) as [[[throttle brake] steering] c'].
    cbv beta iota.
    destruct (negb _ || _); destruct (is_dbw_enabled _ _); discriminate.
  - cbn [fst snd]. intros H. injection H as ->.
    pose proof (Hro _ (set_previous_loop_time Controller t st)) as H1.
    rewrite Hg in H1. cbn [snd] in H1. subst s1.
    split; [reflexivity|]. exists fw. split; [reflexivity|].
    intros S s. specialize (Hro S s).
    pose proof (estimate_independent fw (current_pose _ st) s
                  (set_previous_loop_time Controller t st)) as Hi.
    rewrite Hg in Hi. cbn [fst] in Hi.
    destruct (get_cross_track_error polyfit fw (current_pose _ st) s) as [r s'].
    cbn [fst snd] in *. subst. reflexivity.
Qed.

End Failure.

Lemma failed_pass_only_advances_time_witness :
  snd (loop_pass zero_fit unit idle_control idle_reset 20000000%Z
         {| controller := tt; is_dbw_enabled := true;
            current_velocity := Some moving; proposed_velocity := Some moving;
            final_waypoints := Some []; current_pose := None;
            previous_loop_time := 0%Z; sent := [] |}) =
    set_previous_loop_time unit 20000000%Z
      {| controller := tt; is_dbw_enabled := true;
         current_velocity := Some moving; proposed_velocity := Some moving;
         final_waypoints := Some []; current_pose := None;
         previous_loop_time := 0%Z; sent := [] |} /\
  exists fw,
    final_waypoints _
      {| controller := tt; is_dbw_enabled := true;
         current_velocity := Some moving; proposed_velocity := Some moving;
         final_waypoints := Some []; current_pose := None;
         previous_loop_time := 0%Z; sent := [] |} = Some fw /\
    forall S (s : S),
      get_cross_track_error zero_fit fw
        (current_pose _
           {| controller := tt; is_dbw_enabled := true;
              current_velocity := Some moving; proposed_velocity := Some moving;
              final_waypoints := Some []; current_pose := None;
              previous_loop_time := 0%Z; sent := [] |}) s = (Raise IndexError, s).
Proof.
  apply (failed_pass_only_advances_time zero_fit unit idle_control idle_reset
           20000000%Z _ IndexError).
  reflexivity.
Defined.

Lemma control_pass_sends_one_command_witness :
  exists cte throttle brake steering c',
    (forall S (s : S),
       get_cross_track_error zero_fit straight_window
         (Some (WaypointUpdaterSpec.pose_on_axis 0)) s = (Ok cte, s)) /\
    idle_control tt (linear_x_of moving) (angular_z_of moving) (linear_x_of moving) cte
      (IZR (20000000 - 0) / 1000000000) = ((throttle, brake, steering), c') /\
    loop_pass zero_fit unit idle_control idle_reset 20000000%Z
      {| controller := tt; is_dbw_enabled := true;
         current_velocity := Some moving; proposed_velocity := Some moving;
         final_waypoints := Some straight_window;
         current_pose := Some (WaypointUpdaterSpec.pose_on_axis 0);
         previous_loop_time := 0%Z; sent := [] |} =
    (Ok (Controlled cte),
     {| controller :=
          if negb true
             || ((if Rlt_dec (Rabs (linear_x_of moving)) (/ 100000) then true else false)
                 && (if Rlt_dec (Rabs (linear_x_of moving)) (/ 100000) then true
                     else false))
          then idle_reset c' else c';
        is_dbw_enabled := true;
        current_velocity := Some moving; proposed_velocity := Some moving;
        final_waypoints := Some straight_window;
        current_pose := Some (WaypointUpdaterSpec.pose_on_axis 0);
        previous_loop_time := 20000000%Z;
        sent := if true
                then {| throttle_cmd := throttle; brake_cmd := brake;
                        steering_cmd := steering |} :: []
                else [] |}).
Proof.
  apply (control_pass_sends_one_command zero_fit unit idle_control idle_reset).
  - intros xs ys. exists [0; 0; 0; 0]. reflexivity.
  - simpl. lia.
Defined.

End DBWNodeFacts.
